(** * instrux: the recursive template compiler, embedded in Rocq

    A shallow embedding of [src/frontmatter.ts] (source index, tag sort,
    frontmatter stripping and serialisation) and of [src/compiler.ts]
    ([InstruxCompiler.compile], [compileFile] and the Handlebars helpers
    [tag], [file], [tagged] and [meta]).

    Conventions of the embedding:
    - JavaScript strings are [string]; [Map<string, _>] is [gmap string _];
      [Set<string>] is a duplicate-free list in insertion order (the order
      in which a JS [Set] iterates);
    - a thrown [Error] is a value of [CompileError]; the mutable fields of
      the compiler object are threaded as a [CompilerState];
    - the libraries the compiler calls (gray-matter, Handlebars' parser) and
      the collation of the host ([localeCompare]) are parameters of the
      development; the Handlebars runtime is modelled on the syntax tree of
      the directives the compiler registers. *)

From Stdlib Require Import ZArith String Ascii List Permutation Lia.
From Stdlib Require Import Sorting.Sorted DecimalString.
From stdpp Require Import base option list gmap strings sorting.

Local Open Scope Z_scope.

(** ** JavaScript strings *)

Module Js.

Definition LF : ascii := ascii_of_nat 10.
Definition newline : string := String LF EmptyString.
Definition quote : string := String (ascii_of_nat 34) EmptyString.

(** [s.replace(/\\/g, '/')] *)
Fixpoint replace_backslashes (s : string) : string :=
  match s with
  | EmptyString => EmptyString
  | String c s' =>
      String (if Ascii.eqb c "\"%char then "/"%char else c)
             (replace_backslashes s')
  end.

(** [s.endsWith(t)] for a one-character [t] *)
Fixpoint endsWith_char (s : string) (c : ascii) : bool :=
  match s with
  | EmptyString => false
  | String a EmptyString => Ascii.eqb a c
  | String _ s' => endsWith_char s' c
  end.

(** White space in the sense of [String.prototype.trimEnd], on the
    one-byte code units: TAB, LF, VT, FF, CR and SPACE. The host strips the
    other white space of Unicode as well (U+00A0, U+FEFF and the like),
    which is outside the model. *)
Definition is_white (c : ascii) : bool :=
  let n := nat_of_ascii c in
  ((9 <=? n)%nat && (n <=? 13)%nat) || (n =? 32)%nat.

(** [s.trimEnd()] *)
Fixpoint trimEnd (s : string) : string :=
  match s with
  | EmptyString => EmptyString
  | String c s' =>
      match trimEnd s' with
      | EmptyString => if is_white c then EmptyString else String c EmptyString
      | t => String c t
      end
  end.

(** [parts.join(sep)] *)
Fixpoint join (sep : string) (parts : list string) : string :=
  match parts with
  | [] => ""
  | [p] => p
  | p :: ps => p +:+ sep +:+ join sep ps
  end.

(** [a.localeCompare(b)]: the comparison of the host's collation (ICU in
    Node), which is not the order of the code units: it is taken as given.
    The result is negative, zero or positive. *)
Class Collation : Type := localeCompare : string → string → Z.

(** What a collation guarantees: comparing the other way round flips the
    sign, and the order is transitive. Strings that differ may compare
    equal. *)
Definition consistent `{Collation} : Prop :=
  (∀ a b, Z.sgn (localeCompare b a) = - Z.sgn (localeCompare a b)) ∧
  (∀ a b c, localeCompare a b ≤ 0 → localeCompare b c ≤ 0 → localeCompare a c ≤ 0).

(** Decimal rendering of an integral number, as [String(n)] gives it. *)
Definition number_to_string (n : Z) : string :=
  NilZero.string_of_int (Z.to_int n).

(** An insertion-ordered [Set<string>]. *)
Definition set_has (x : string) (s : list string) : bool :=
  bool_decide (x ∈ s).

Definition set_add (x : string) (s : list string) : list string :=
  if set_has x s then s else s ++ [x].

Definition set_delete (x : string) (s : list string) : list string :=
  filter (λ y, y ≠ x) s.

(** [[...files].sort(cmp)]: [Array.prototype.sort] is stable; it is
    modelled by the stable insertion sort. *)
Section Sort.
Context {A : Type} (cmp : A → A → Z).

Fixpoint sort_insert (x : A) (l : list A) : list A :=
  match l with
  | [] => [x]
  | y :: l' => if cmp x y <=? 0 then x :: y :: l' else y :: sort_insert x l'
  end.

Definition sort (l : list A) : list A := foldr sort_insert [] l.
End Sort.

(** The members every object inherits from [Object.prototype], which a
    property access [obj[key]] finds when [obj] has no own property [key].
    The functions among them, and the text the host gives for a member when
    it is appended to a string: a native function prints its name,
    [__proto__] is the prototype object itself. *)
Definition object_prototype_functions : list string :=
  ["constructor"; "hasOwnProperty"; "isPrototypeOf"; "propertyIsEnumerable";
   "toLocaleString"; "toString"; "valueOf"; "__defineGetter__";
   "__defineSetter__"; "__lookupGetter__"; "__lookupSetter__"].

Definition inherited_text (key : string) : option string :=
  if String.eqb key "constructor" then Some "function Object() { [native code] }"
  else if bool_decide (key ∈ object_prototype_functions)
  then Some ("function " +:+ key +:+ "() { [native code] }")
  else if String.eqb key "__proto__" then Some "[object Object]"
  else None.

End Js.

(** [path.basename(p, ext)] of Node's [path] module, POSIX flavour: the last
    segment of [p] (trailing slashes dropped), without the suffix [ext] when
    the segment ends in [ext] and is longer than it. *)
Module NodePath.

Fixpoint drop_trailing_slashes (s : string) : string :=
  match s with
  | EmptyString => EmptyString
  | String c s' =>
      match drop_trailing_slashes s' with
      | EmptyString => if Ascii.eqb c "/"%char then EmptyString else String c EmptyString
      | t => String c t
      end
  end.

(** The part of [s] after its last slash; [acc] is the segment read so
    far, reversed. *)
Fixpoint last_segment_go (acc : string) (s : string) : string :=
  match s with
  | EmptyString => String.rev acc
  | String c s' =>
      if Ascii.eqb c "/"%char then last_segment_go EmptyString s'
      else last_segment_go (String c acc) s'
  end.

Definition last_segment (s : string) : string :=
  last_segment_go EmptyString (drop_trailing_slashes s).

(** [Some stem] when [s = stem ++ ext]. *)
Fixpoint strip_suffix (ext s : string) : option string :=
  if String.eqb s ext then Some EmptyString
  else match s with
       | EmptyString => None
       | String c s' => String c <$> strip_suffix ext s'
       end.

Definition basename (p ext : string) : string :=
  if String.eqb p ext then ""
  else
    let seg := last_segment p in
    match strip_suffix ext seg with
    | Some EmptyString | None => seg
    | Some stem => stem
    end.

End NodePath.


(** ** Data model ([src/types.ts]) *)

(** The values a parsed YAML frontmatter holds. *)
#[warnings="-register-all"]
Inductive value : Type :=
| VNull
| VBool (b : bool)
| VNum (n : Z)
| VStr (s : string)
| VList (items : list value)
| VMap (fields : list (string * value)).

(** [Record<string, any>]: the own properties of the object, in insertion
    order. *)
Definition Frontmatter : Type := list (string * value).

(** [obj[key]], with [undefined] as [None]. *)
Fixpoint get (key : string) (obj : Frontmatter) : option value :=
  match obj with
  | [] => None
  | (k, v) :: obj' => if String.eqb k key then Some v else get key obj'
  end.

(** [x ?? d]: the default is taken when [x] is [undefined] or [null]. *)
Definition nullish (x : option value) (d : value) : value :=
  match x with
  | None | Some VNull => d
  | Some v => v
  end.

(** The text Handlebars appends for a value (with [noEscape], the value is
    concatenated to the output unless it is [null] or [undefined]). *)
Fixpoint to_text (v : value) : string :=
  match v with
  | VNull => ""
  | VBool true => "true"
  | VBool false => "false"
  | VNum n => Js.number_to_string n
  | VStr s => s
  | VList items => Js.join "," (map to_text items)
  | VMap _ => "[object Object]"
  end.

(** [InstruxMeta]: the metadata nested under [instrux:]. *)
Record InstruxMeta : Type := {
  im_tags : option (list string);
  im_order : option Z;
  im_description : option string;
}.

(** [SourceFile] *)
Record SourceFile : Type := {
  sf_path : string;
  sf_frontmatter : Frontmatter;
  sf_instrux : InstruxMeta;
  sf_content : string;
}.

(** [SourceIndex] *)
Record SourceIndex : Type := {
  idx_files : list SourceFile;
  idx_tags : gmap string (list SourceFile);
  idx_paths : gmap string SourceFile;
}.

(** [FrontmatterOutput.output] *)
Inductive FrontmatterMode : Type := strip | preserve.

(** The fields of [AgentConfig] the compiler reads; [cfg_frontmatter] is
    [config.frontmatter?.output]. *)
Record AgentConfig : Type := {
  cfg_name : string;
  cfg_description : string;
  cfg_entry : option string;
  cfg_sources : option (list string);
  cfg_frontmatter : option FrontmatterMode;
  cfg_addSeparators : bool;
  cfg_separatorStyle : string;
}.

(** ** Frontmatter and source index ([src/frontmatter.ts]) *)

(** The typed reading of [frontmatter.instrux ?? {}] as an [InstruxMeta]:
    a field is present when the YAML value has the declared type. The code
    reads the raw values, which are these when the frontmatter is well
    typed ([typed_tags] for the tags). *)
Definition as_string (v : value) : option string :=
  match v with VStr s => Some s | _ => None end.

Definition as_number (v : value) : option Z :=
  match v with VNum n => Some n | _ => None end.

Definition as_string_list (v : value) : option (list string) :=
  match v with VList items => mapM as_string items | _ => None end.

Definition instrux_of (frontmatter : Frontmatter) : InstruxMeta :=
  let fields :=
    match get "instrux" frontmatter with
    | Some (VMap fields) => fields
    | _ => []
    end in
  {| im_tags := get "tags" fields ≫= as_string_list;
     im_order := get "order" fields ≫= as_number;
     im_description := get "description" fields ≫= as_string |}.

(** [sortSourceFiles] *)
Definition order_of (f : SourceFile) : Z := default 999 (im_order (sf_instrux f)).

Definition compare_files `{Js.Collation} (a b : SourceFile) : Z :=
  let oa := order_of a in
  let ob := order_of b in
  if negb (oa =? ob) then oa - ob
  else Js.localeCompare (sf_path a) (sf_path b).

Definition sortSourceFiles `{Js.Collation} (files : list SourceFile)
    : list SourceFile :=
  Js.sort compare_files files.

(** The order [sortSourceFiles] sorts by: [order] first (999 when absent),
    then the path, as the collation compares paths. *)
Definition key_le `{Js.Collation} (a b : SourceFile) : Prop :=
  order_of a < order_of b ∨
  (order_of a = order_of b ∧ Js.localeCompare (sf_path a) (sf_path b) ≤ 0).

(** [stripInstruxMeta]: the rest of the object once [instrux] is taken out. *)
Definition stripInstruxMeta (frontmatter : Frontmatter) : Frontmatter :=
  filter (λ kv, kv.1 ≠ "instrux") (frontmatter : list (string * value)).

Section Frontmatter.

(** gray-matter: [matter(raw)] gives the parsed frontmatter and the body,
    [matter.stringify('', data)] the YAML block of [data]. *)
Variable matter : string → Frontmatter * string.
Variable matter_stringify : Frontmatter → string.

(** [serializeFrontmatter] *)
Definition serializeFrontmatter (data : Frontmatter) : string :=
  match data with
  | [] => ""
  | _ => Js.trimEnd (matter_stringify data) +:+ Js.newline +:+ Js.newline
  end.

(** [buildSourceIndex], on the files the glob matched: each is given as
    its relative path and the text read from it. The body of the loop is
    [index_file]; the inner loop over [instrux.tags] is [index_tags]. *)
Definition index_tags (sourceFile : SourceFile) (tag_list : list string)
    (tags : gmap string (list SourceFile)) : gmap string (list SourceFile) :=
  fold_left
    (λ tags tag,
       let bucket := default [] (tags !! tag) in
       <[tag := bucket ++ [sourceFile]]> tags)
    tag_list tags.

Definition index_file (idx : SourceIndex) (m : string * string) : SourceIndex :=
  let '(relPath, raw) := m in
  let '(frontmatter, content) := matter raw in
  let instrux := instrux_of frontmatter in
  let sourceFile :=
    {| sf_path := Js.replace_backslashes relPath;
       sf_frontmatter := frontmatter;
       sf_instrux := instrux;
       sf_content := content |} in
  {| idx_files := idx_files idx ++ [sourceFile];
     idx_paths := <[sf_path sourceFile := sourceFile]> (idx_paths idx);
     idx_tags :=
       match im_tags instrux with
       | Some tag_list => index_tags sourceFile tag_list (idx_tags idx)
       | None => idx_tags idx
       end |}.

Definition buildSourceIndex (matched : list (string * string)) : SourceIndex :=
  fold_left index_file matched
    {| idx_files := []; idx_tags := ∅; idx_paths := ∅ |}.

End Frontmatter.

(** ** Templates

    [hbs.compile(content)] gives a template; the compiler's directives are
    its nodes. Literal helper arguments only. *)

(** The properties of an item of [tagged], as a template reads them from
    [this]. *)
Inductive field : Type :=
| FBody
| FRaw
| FPath
| FTitle
| FDescription
| FFrontmatter (key : string).

#[warnings="-register-all"]
Inductive node : Type :=
| NText (text : string)
| NAgentName
| NAgentDescription
| NField (f : field)
| NMeta (key : string)
| NFile (filePath : string)
| NTag (tagName : string)
| NEach (tagName : string) (body : list node).

(** An item of the array [tagged] returns. *)
Record Element : Type := {
  el_body : string;
  el_raw : string;
  el_path : string;
  el_title : value;
  el_description : value;
  el_frontmatter : Frontmatter;
  el_instrux : InstruxMeta;
}.

Definition field_text (item : Element) (f : field) : string :=
  match f with
  | FBody => el_body item
  | FRaw => el_raw item
  | FPath => el_path item
  | FTitle => to_text (el_title item)
  | FDescription => to_text (el_description item)
  | FFrontmatter key => to_text (nullish (get key (el_frontmatter item)) VNull)
  end.

(** ** Compiler state and errors ([src/compiler.ts]) *)

Record CompilerState : Type := {
  compileStack : list string;
  compiledFiles : list string;
  tagsUsed : list string;
}.

(** The state after the three [clear()] calls of [compile]. *)
Definition cleared : CompilerState :=
  {| compileStack := []; compiledFiles := []; tagsUsed := [] |}.

Inductive CompileError : Type :=
| NoEntry
| NoSources
| CircularReference (chain : list string)
| FileNotFound (normalised : string)
| TemplateError (normalised : string).

(** The message of the thrown [Error]. [TemplateError] stands for the error
    Handlebars raises on a template it cannot parse. *)
Definition message (e : CompileError) : string :=
  match e with
  | NoEntry =>
      "No " +:+ Js.quote +:+ "entry" +:+ Js.quote +:+ " field in agent config. Use "
      +:+ Js.quote +:+ "files" +:+ Js.quote +:+ " for simple merge mode."
  | NoSources =>
      "No " +:+ Js.quote +:+ "sources" +:+ Js.quote
      +:+ " patterns defined. Add source globs to agent config."
  | CircularReference chain =>
      "Circular reference detected:" +:+ Js.newline +:+ "  " +:+ Js.join " → " chain
  | FileNotFound normalised => "File not found: " +:+ normalised
  | TemplateError normalised => "Parse error in " +:+ normalised
  end.

(** A call either returns a value and the state it leaves, or throws. *)
Inductive Outcome (A : Type) : Type :=
| Return (a : A) (st : CompilerState)
| Throw (e : CompileError).
Arguments Return {A} a st.
Arguments Throw {A} e.

(** A computation on the compiler object; [None] is a run the recursion
    budget of the model cut short. *)
Definition Run (A : Type) : Type := CompilerState → option (Outcome A).

#[global] Instance run_ret : MRet Run := λ A a st, Some (Return a st).

#[global] Instance run_bind : MBind Run := λ A B k m st,
  match m st with
  | None => None
  | Some (Throw e) => Some (Throw e)
  | Some (Return a st') => k a st'
  end.

Definition throw {A : Type} (e : CompileError) : Run A := λ _, Some (Throw e).

Definition modify (f : CompilerState → CompilerState) : Run unit :=
  λ st, Some (Return tt (f st)).

Definition push_file (normalised : string) (st : CompilerState) : CompilerState :=
  {| compileStack := Js.set_add normalised (compileStack st);
     compiledFiles := Js.set_add normalised (compiledFiles st);
     tagsUsed := tagsUsed st |}.

Definition pop_file (normalised : string) (st : CompilerState) : CompilerState :=
  {| compileStack := Js.set_delete normalised (compileStack st);
     compiledFiles := compiledFiles st;
     tagsUsed := tagsUsed st |}.

Definition use_tag (tagName : string) (st : CompilerState) : CompilerState :=
  {| compileStack := compileStack st;
     compiledFiles := compiledFiles st;
     tagsUsed := Js.set_add tagName (tagsUsed st) |}.

(** [xs.map(f)] for an [f] that runs on the compiler object, and the
    concatenation of the texts [f] gives on [xs]. *)
Definition map_run {X Y : Type} (f : X → Run Y) : list X → Run (list Y) :=
  fix go (xs : list X) : Run (list Y) :=
    match xs with
    | [] => mret []
    | x :: xs' => y ← f x; ys ← go xs'; mret (y :: ys)
    end.

Definition concat_run {X : Type} (f : X → Run string) : list X → Run string :=
  fix go (xs : list X) : Run string :=
    match xs with
    | [] => mret ""
    | x :: xs' => a ← f x; b ← go xs'; mret (a +:+ b)
    end.

(** [CompileResult] *)
Record CompileResult : Type := {
  output : string;
  filesCompiled : nat;
  res_tagsUsed : list string;
}.

(** ** The compiler ([InstruxCompiler]) *)

Section Compiler.

(** The collation of the host. *)
Context {collate : Js.Collation}.

(** gray-matter and the parser of Handlebars ([None]: the template is
    rejected). *)
Variable matter : string → Frontmatter * string.
Variable matter_stringify : Frontmatter → string.
Variable hbs_parse : string → option (list node).

(** [this.config], and the files under [this.rootDir]: the text read at
    [path.join(rootDir, p)], for the paths [p] that exist. The paths that
    exist are taken to be files that can be read: a directory or an
    unreadable file, for which [readFileSync] throws an error of its own,
    is outside the model, as is a file gray-matter cannot parse. *)
Variable config : AgentConfig.
Variable disk : gmap string string.

Section Resolution.

(** [this.index] *)
Variable index : SourceIndex.

(** [sep] of [registerHelpers] *)
Definition sep : string :=
  if cfg_addSeparators config
  then Js.newline +:+ cfg_separatorStyle config +:+ Js.newline +:+ Js.newline
  else Js.newline +:+ Js.newline.

Section Helpers.

(** [self.compileFile], and [meta] of the root context. *)
Variable compileFile : string → Run string.
Variable meta : Frontmatter.

(** The helper [tag] *)
Definition tag (tagName : string) : Run string :=
  modify (use_tag tagName);;
  match idx_tags index !! tagName with
  | None | Some [] => mret ""
  | Some files =>
      rendered ← map_run (λ f, compileFile (sf_path f)) (sortSourceFiles files);
      mret (Js.join sep rendered)
  end.

(** The helper [file] *)
Definition file (filePath : string) : Run string := compileFile filePath.

(** The object [tagged] builds for [f], once [f] is compiled. *)
Definition element_of (f : SourceFile) (body : string) : Element :=
  {| el_body := body;
     el_raw := sf_content f;
     el_path := sf_path f;
     el_title :=
       nullish (get "title" (sf_frontmatter f))
               (VStr (NodePath.basename (sf_path f) ".md"));
     el_description :=
       nullish (get "description" (sf_frontmatter f))
               (VStr (default "" (im_description (sf_instrux f))));
     el_frontmatter := sf_frontmatter f;
     el_instrux := sf_instrux f |}.

(** The helper [tagged] *)
Definition tagged (tagName : string) : Run (list Element) :=
  modify (use_tag tagName);;
  match idx_tags index !! tagName with
  | None | Some [] => mret []
  | Some files =>
      map_run
        (λ f, body ← compileFile (sf_path f); mret (element_of f body))
        (sortSourceFiles files)
  end.

(** The helper [meta]: [meta?.[key] ?? '']. The access finds the own
    property of the frontmatter, or else the member of that name inherited
    from [Object.prototype]. *)
Definition meta_helper (key : string) : value :=
  match get key meta with
  | Some v => nullish (Some v) (VStr "")
  | None => VStr (default "" (Js.inherited_text key))
  end.

(** Rendering a node of the template. [this] is [None] in the root
    context. The block of [each] is rendered once per item of the
    array, with the item as [this]. *)
Fixpoint render_node (this : option Element) (n : node) {struct n} : Run string :=
  match n with
  | NText text => mret text
  | NAgentName => mret (cfg_name config)
  | NAgentDescription => mret (cfg_description config)
  | NField f => mret (from_option (λ item, field_text item f) "" this)
  | NMeta key => mret (to_text (meta_helper key))
  | NFile filePath => file filePath
  | NTag tagName => tag tagName
  | NEach tagName body =>
      items ← tagged tagName;
      concat_run (λ item, concat_run (render_node (Some item)) body) items
  end.

(** Rendering a template: the text of its nodes, left to right. *)
Definition render (this : option Element) (ns : list node) : Run string :=
  concat_run (render_node this) ns.

End Helpers.

(** The content [compileFile] resolves: from the index, or read from
    disk and stripped of its frontmatter. *)
Definition read_content (indexed : option SourceFile) (normalised : string)
    : option string :=
  match indexed with
  | Some f => Some (sf_content f)
  | None =>
      match disk !! normalised with
      | None => None
      | Some raw => Some (matter raw).2
      end
  end.

(** [compileFile]; [fuel] bounds the depth of the recursion. *)
Fixpoint compileFile (fuel : nat) (relPath : string) : Run string :=
  match fuel with
  | O => λ _, None
  | S fuel' =>
      let normalised := Js.replace_backslashes relPath in
      λ st,
        if Js.set_has normalised (compileStack st)
        then Some (Throw (CircularReference (compileStack st ++ [normalised])))
        else
          let indexed := idx_paths index !! normalised in
          (modify (push_file normalised);;
           match read_content indexed normalised with
           | None => throw (FileNotFound normalised)
           | Some content =>
               match hbs_parse content with
               | None => throw (TemplateError normalised)
               | Some template =>
                   rendered ←
                     render (compileFile fuel')
                            (from_option sf_frontmatter [] indexed)
                            None template;
                   modify (pop_file normalised);;
                   mret rendered
               end
           end) st
  end.

End Resolution.

(** The text [compile] returns as [output], from the compiled body. *)
Definition ensure_trailing_newline (output : string) : string :=
  if Js.endsWith_char output Js.LF then output else output +:+ Js.newline.

(** The frontmatter [compile] puts in front of the body. *)
Definition frontmatter_block (index : SourceIndex) (entryPath : string) : string :=
  match default strip (cfg_frontmatter config) with
  | preserve =>
      match idx_paths index !! entryPath with
      | Some entrySource =>
          serializeFrontmatter matter_stringify
            (stripInstruxMeta (sf_frontmatter entrySource))
      | None => ""
      end
  | strip => ""
  end.

Definition assemble (index : SourceIndex) (entryPath body : string) : string :=
  ensure_trailing_newline (frontmatter_block index entryPath +:+ body).

(** [compile], given the files the source globs matched. *)
Definition compile (fuel : nat) (matched : list (string * string))
    : option (CompileError + CompileResult) :=
  match cfg_entry config with
  | None | Some EmptyString => Some (inl NoEntry)
  | Some entry =>
      match cfg_sources config with
      | None | Some [] => Some (inl NoSources)
      | Some _ =>
          let index := buildSourceIndex matter matched in
          let entryPath := Js.replace_backslashes entry in
          match compileFile index fuel entryPath cleared with
          | None => None
          | Some (Throw e) => Some (inl e)
          | Some (Return body st) =>
              Some (inr {| output := assemble index entryPath body;
                           filesCompiled := length (compiledFiles st);
                           res_tagsUsed := tagsUsed st |})
          end
      end
  end.

End Compiler.

(** ** Specifications of runs *)

(** From every state in [P] the run [m] finishes within the budget: it
    returns a value and a state in [Q], or throws an error in [E]. *)
Definition triple {A : Type} (P : CompilerState → Prop) (m : Run A)
    (Q : A → CompilerState → Prop) (E : CompileError → Prop) : Prop :=
  ∀ st, P st →
    ∃ r, m st = Some r ∧
         match r with
         | Return a st' => Q a st'
         | Throw e => E e
         end.

(** Whatever [m1] finishes with, [m2] finishes with it too. *)
Definition refines {A : Type} (m1 m2 : Run A) : Prop :=
  ∀ st r, m1 st = Some r → m2 st = Some r.

(** Nodes that render without calling [compileFile]. *)
Definition plain (n : node) : Prop :=
  match n with
  | NFile _ | NTag _ | NEach _ _ => False
  | _ => True
  end.

(** The text of a plain node. *)
Definition plain_text (config : AgentConfig) (meta : Frontmatter)
    (this : option Element) (n : node) : string :=
  match n with
  | NText text => text
  | NAgentName => cfg_name config
  | NAgentDescription => cfg_description config
  | NField f => from_option (λ item, field_text item f) "" this
  | NMeta key => to_text (meta_helper meta key)
  | _ => ""
  end.

Section Callees.

Variable index : SourceIndex.

(** The paths of the files in the bucket of a tag. *)
Definition bucket_paths (tagName : string) : list string :=
  sf_path <$> default [] (idx_tags index !! tagName).

(** The paths a template may hand to [compileFile]. *)
Fixpoint callees_node (n : node) : list string :=
  match n with
  | NFile filePath => [filePath]
  | NTag tagName => bucket_paths tagName
  | NEach tagName body => bucket_paths tagName ++ (body ≫= callees_node)
  | _ => []
  end.

Definition callees (ns : list node) : list string := ns ≫= callees_node.

End Callees.

Section Resolved.

Variable matter : string → Frontmatter * string.
Variable hbs_parse : string → option (list node).
Variable disk : gmap string string.
Variable index : SourceIndex.

(** The template of the file at a normalised path, when the path resolves
    and its content parses. *)
Definition template_of (normalised : string) : option (list node) :=
  read_content matter disk (idx_paths index !! normalised) normalised ≫= hbs_parse.

(** The paths that resolve: those in the index and those on disk. *)
Definition known : gset string := dom (idx_paths index) ∪ dom disk.

(** A set of paths is closed when it holds every path that resolves among
    those the templates of its files include. *)
Definition closed (R : gset string) : Prop :=
  ∀ x template q,
    x ∈ R → template_of x = Some template → q ∈ callees index template →
    Js.replace_backslashes q ∈ known → Js.replace_backslashes q ∈ R.

End Resolved.

(** The paths of [R] that are not being compiled. *)
Definition room (R : gset string) (stack : list string) : nat :=
  size (R ∖ list_to_set stack).

(** Induction on nodes, with the blocks of [each]. *)
Section NodeInduction.

Variable P : node → Prop.
Hypothesis P_text : ∀ text, P (NText text).
Hypothesis P_agent_name : P NAgentName.
Hypothesis P_agent_description : P NAgentDescription.
Hypothesis P_field : ∀ f, P (NField f).
Hypothesis P_meta : ∀ key, P (NMeta key).
Hypothesis P_file : ∀ filePath, P (NFile filePath).
Hypothesis P_tag : ∀ tagName, P (NTag tagName).
Hypothesis P_each : ∀ tagName body, Forall P body → P (NEach tagName body).

Fixpoint node_nested_ind (n : node) : P n :=
  match n with
  | NText text => P_text text
  | NAgentName => P_agent_name
  | NAgentDescription => P_agent_description
  | NField f => P_field f
  | NMeta key => P_meta key
  | NFile filePath => P_file filePath
  | NTag tagName => P_tag tagName
  | NEach tagName body =>
      P_each tagName body
        ((fix all (ns : list node) : Forall P ns :=
            match ns with
            | [] => @List.Forall_nil _ P
            | n' :: ns' => @List.Forall_cons _ P n' ns' (node_nested_ind n') (all ns')
            end) body)
  end.

End NodeInduction.

(** Two outcomes agree when they return the same value or throw the same
    error, and leave the same compile stack. *)
Definition agree {A : Type} (r1 r2 : option (Outcome A)) : Prop :=
  match r1, r2 with
  | Some (Return a st1), Some (Return b st2) =>
      a = b ∧ compileStack st1 = compileStack st2
  | Some (Throw e1), Some (Throw e2) => e1 = e2
  | None, None => True
  | _, _ => False
  end.

(** A run whose outcome depends on the compile stack only, not on the two
    sets kept for the report. *)
Definition stack_only {A : Type} (m : Run A) : Prop :=
  ∀ st1 st2, compileStack st1 = compileStack st2 → agree (m st1) (m st2).

Section Inclusion.

(** The collation of the host. *)
Context {collate : Js.Collation}.

Variable matter : string → Frontmatter * string.
Variable hbs_parse : string → option (list node).
Variable config : AgentConfig.
Variable disk : gmap string string.
Variable index : SourceIndex.

(** The file at [x] includes the path [y]: its template hands to
    [compileFile] a path that normalises to [y]. *)
Definition includes (x y : string) : Prop :=
  ∃ template q,
    template_of matter hbs_parse disk index x = Some template ∧
    q ∈ callees index template ∧
    Js.replace_backslashes q = y.

(** A list of paths in which each includes the next. *)
Inductive inclusion_chain : list string → Prop :=
| chain_end (x : string) : inclusion_chain [x]
| chain_step (x y : string) (l : list string) :
  includes x y → inclusion_chain (y :: l) → inclusion_chain (x :: y :: l).

(** [compileFile] from the point where the content is resolved: the
    template is compiled and rendered with [meta], between the push and
    the pop of the path. *)
Definition compile_content (fuel : nat) (normalised content : string)
    (meta : Frontmatter) : Run string :=
  λ st,
    match hbs_parse content with
    | None => Some (Throw (TemplateError normalised))
    | Some template =>
        match render config index
                (compileFile matter hbs_parse config disk index fuel)
                meta None template (push_file normalised st) with
        | Some (Return rendered st') =>
            Some (Return rendered (pop_file normalised st'))
        | Some (Throw e) => Some (Throw e)
        | None => None
        end
    end.

(** The chain of a circular reference thrown under [stack] by a call on
    [p]: the stack, then the paths from [p] on, each including the next,
    down to a path that is already in the chain. *)
Definition cycle_error (stack : list string) (p : string) (e : CompileError) : Prop :=
  ∀ chain, e = CircularReference chain →
    NoDup stack →
    ∃ ext last,
      chain = stack ++ ext ++ [last] ∧
      last ∈ stack ++ ext ∧
      NoDup (stack ++ ext) ∧
      head (ext ++ [last]) = Some (Js.replace_backslashes p) ∧
      inclusion_chain (ext ++ [last]).

(** The nodes [pre] of the template of the file at [x] render to a text,
    none of them throwing, when the compile stack is [stack]: the node that
    follows them in the template is reached. *)
Definition renders_under (stack : list string) (x : string) (pre : list node) : Prop :=
  ∃ fuel st text st',
    compileStack st = stack ∧
    render config index (compileFile matter hbs_parse config disk index fuel)
      (from_option sf_frontmatter [] (idx_paths index !! x)) None pre st
    = Some (Return text st').

End Inclusion.

(** The text of a template of plain nodes. *)
Definition plain_texts (config : AgentConfig) (meta : Frontmatter)
    (this : option Element) (ns : list node) : string :=
  foldr (λ n text, plain_text config meta this n +:+ text) "" ns.

(** The [SourceFile] that [buildSourceIndex] makes of a matched file. *)
Definition source_file_of (matter : string → Frontmatter * string)
    (m : string * string) : SourceFile :=
  {| sf_path := Js.replace_backslashes m.1;
     sf_frontmatter := (matter m.2).1;
     sf_instrux := instrux_of (matter m.2).1;
     sf_content := (matter m.2).2 |}.

(** How many times a tag occurs in a list of tags. *)
Definition occurrences (tagName : string) (tag_list : list string) : nat :=
  length (filter (λ tag, tag = tagName) tag_list).

(** The tags of a file, none when the list is absent. *)
Definition tags_of (f : SourceFile) : list string :=
  default [] (im_tags (sf_instrux f)).

(** The tags of a frontmatter are well typed when [instrux.tags], if the
    frontmatter has it, is a list of strings or one of the values the
    condition [if (instrux.tags)] takes for false: this is the type
    [InstruxMeta] declares, and the scope of the theorems on the tag
    index. *)
Definition typed_tags (frontmatter : Frontmatter) : Prop :=
  match get "instrux" frontmatter with
  | Some (VMap fields) =>
      match get "tags" fields with
      | Some (VList items) => Forall (λ item, ∃ tag, item = VStr tag) items
      | Some (VStr tag) => tag = ""
      | Some (VNum n) => n = 0
      | Some (VBool b) => b = false
      | Some (VMap _) => False
      | Some VNull | None => True
      end
  | _ => True
  end.

(** ** The output rules as the specification words them *)

(** Normalisation of the final text: trailing white space stripped, then
    one newline, an empty result staying empty. *)
Definition spec_normalize (text : string) : string :=
  match Js.trimEnd text with
  | EmptyString => ""
  | t => t +:+ Js.newline
  end.

(** The title of an item of the tag iteration: the pass-through title, else
    the description of the compiler metadata, else the name of the file. *)
Definition spec_title (f : SourceFile) : value :=
  nullish (get "title" (sf_frontmatter f))
    (match im_description (sf_instrux f) with
     | Some d => VStr d
     | None => VStr (NodePath.basename (sf_path f) ".md")
     end).

(** The metadata block of the output: in mode [preserve], the pass-through
    metadata of the entry file, serialised. *)
Definition spec_metadata_block (matter_stringify : Frontmatter → string)
    (mode : FrontmatterMode) (entry_frontmatter : Frontmatter) : string :=
  match mode with
  | preserve => serializeFrontmatter matter_stringify (stripInstruxMeta entry_frontmatter)
  | strip => ""
  end.

(** ** A small project, for the examples *)

Module Demo.

(** The collation of the examples: the order of the code units, which is
    how the host's collation orders the paths of the examples (lower-case
    letters, digits, full stops and slashes). *)
#[global] Instance code_units : Js.Collation :=
  λ a b, match String.compare a b with
         | Lt => -1
         | Eq => 0
         | Gt => 1
         end.

Definition lines (ls : list string) : string := Js.join Js.newline ls.

(** The texts of the files. *)
Definition raw_a : string := "A: {{file 'agents/b.md'}}".
Definition raw_b : string := "B: {{file 'agents\a.md'}}".
Definition raw_s : string := "{{file 'agents/s.md'}}".
Definition raw_twice : string :=
  lines ["---"; "instrux:"; "  tags: [x, x]"; "---"; "twice"].
Definition raw_list : string := "{{tag 'x'}}".
Definition raw_entry : string :=
  lines ["---"; "title: X"; "instrux:"; "  tags: [a]"; "---"; "Hello {{meta 'title'}}"].
Definition raw_blank : string := "x" +:+ Js.newline +:+ Js.newline.
Definition raw_main : string :=
  lines ["---"; "title: X"; "instrux:"; "  tags: [a]"; "---"; "Hello"].

(** gray-matter on these texts. *)
Definition matter (raw : string) : Frontmatter * string :=
  if String.eqb raw raw_twice
  then ([("instrux", VMap [("tags", VList [VStr "x"; VStr "x"])])], "twice")
  else if String.eqb raw raw_entry
  then ([("title", VStr "X"); ("instrux", VMap [("tags", VList [VStr "a"])])],
        "Hello {{meta 'title'}}")
  else if String.eqb raw raw_main
  then ([("title", VStr "X"); ("instrux", VMap [("tags", VList [VStr "a"])])], "Hello")
  else ([], raw).

(** The YAML block of a frontmatter of scalars. *)
Definition matter_stringify (data : Frontmatter) : string :=
  lines (["---"] ++ ((λ kv, kv.1 +:+ ": " +:+ to_text kv.2) <$> data) ++ ["---"; ""; ""]).

(** Handlebars' parser on these templates. *)
Definition hbs_parse (content : string) : option (list node) :=
  if String.eqb content raw_a then Some [NText "A: "; NFile "agents/b.md"]
  else if String.eqb content raw_b then Some [NText "B: "; NFile "agents\a.md"]
  else if String.eqb content raw_s then Some [NFile "agents/s.md"]
  else if String.eqb content raw_list then Some [NTag "x"]
  else if String.eqb content "Hello {{meta 'title'}}"
  then Some [NText "Hello "; NMeta "title"]
  else Some [NText content].

Definition config (entry : string) (mode : FrontmatterMode) : AgentConfig :=
  {| cfg_name := "Demo";
     cfg_description := "";
     cfg_entry := Some entry;
     cfg_sources := Some ["agents/**/*.md"];
     cfg_frontmatter := Some mode;
     cfg_addSeparators := false;
     cfg_separatorStyle := "---" |}.

(** The files the source patterns match, and all the files of the project:
    [entry.md], [blank.md] and [empty.md] lie outside the source patterns. *)
Definition matched : list (string * string) :=
  [("agents/a.md", raw_a); ("agents/b.md", raw_b); ("agents/s.md", raw_s);
   ("agents/twice.md", raw_twice); ("agents/list.md", raw_list);
   ("agents/main.md", raw_main)].

Definition disk : gmap string string :=
  list_to_map
    (matched ++ [("entry.md", raw_entry); ("blank.md", raw_blank); ("empty.md", "")]).

Definition index : SourceIndex := buildSourceIndex matter matched.

(** A source file with the given path and order. *)
Definition file_with (path : string) (order : option Z) : SourceFile :=
  {| sf_path := path;
     sf_frontmatter := [];
     sf_instrux := {| im_tags := Some ["x"]; im_order := order; im_description := None |};
     sf_content := "" |}.

(** A knowledge-base file without title, and an index that holds it. *)
Definition kb_file : SourceFile :=
  {| sf_path := "kb/intro.md";
     sf_frontmatter := [("instrux", VMap [("description", VStr "About")])];
     sf_instrux := {| im_tags := Some ["kb"]; im_order := None;
                      im_description := Some "About" |};
     sf_content := "text" |}.

Definition kb_index : SourceIndex :=
  {| idx_files := [kb_file];
     idx_tags := {[ "kb" := [kb_file] ]};
     idx_paths := {[ "kb/intro.md" := kb_file ]} |}.

End Demo.

(** ** A nested project, for the examples of substitution *)

Module Nested.

(** An entry that includes the tag [t]; one file with that tag, which
    includes a third file by path. *)
Definition raw_entry : string := "A {{tag 't'}} B".
Definition raw_x : string :=
  Demo.lines ["---"; "instrux:"; "  tags: [t]"; "---"; "X {{file 'docs/other.md'}}"].
Definition raw_other : string := "Y".

Definition matter (raw : string) : Frontmatter * string :=
  if String.eqb raw raw_x
  then ([("instrux", VMap [("tags", VList [VStr "t"])])], "X {{file 'docs/other.md'}}")
  else ([], raw).

Definition hbs_parse (content : string) : option (list node) :=
  if String.eqb content raw_entry then Some [NText "A "; NTag "t"; NText " B"]
  else if String.eqb content "X {{file 'docs/other.md'}}"
  then Some [NText "X "; NFile "docs/other.md"]
  else Some [NText content].

Definition config : AgentConfig :=
  {| cfg_name := "Nested";
     cfg_description := "";
     cfg_entry := Some "docs/entry.md";
     cfg_sources := Some ["docs/*.md"];
     cfg_frontmatter := None;
     cfg_addSeparators := true;
     cfg_separatorStyle := "---" |}.

Definition matched : list (string * string) :=
  [("docs/entry.md", raw_entry); ("docs/x.md", raw_x); ("docs/other.md", raw_other)].

Definition disk : gmap string string := list_to_map matched.

Definition index : SourceIndex := buildSourceIndex matter matched.

End Nested.

(** * The engine ([src/engine.ts])

    The engine resolves the configuration of an agent from [agent.json] and
    the repository's [instrux.json], and builds the agent either with the
    compiler or, without an entry, by the ordered merge of configured
    files. *)

Module Engine.

(** [s.trimStart()] and [s.trim()], on the white space of [Js.is_white]. *)
Fixpoint trimStart (s : string) : string :=
  match s with
  | EmptyString => EmptyString
  | String c s' => if Js.is_white c then trimStart s' else s
  end.

Definition trim (s : string) : string := trimStart (Js.trimEnd s).

(** [MergeSettings] and [Partial<MergeSettings>] of [src/types.ts] *)
Record MergeSettings : Type := {
  addSeparators : bool;
  separatorStyle : string;
  includeFileHeaders : bool;
  preserveFormatting : bool;
  generateHash : bool;
  useTimestamp : bool;
}.

Record PartialMergeSettings : Type := {
  opt_addSeparators : option bool;
  opt_separatorStyle : option string;
  opt_includeFileHeaders : option bool;
  opt_preserveFormatting : option bool;
  opt_generateHash : option bool;
  opt_useTimestamp : option bool;
}.

Definition DEFAULT_MERGE_SETTINGS : MergeSettings :=
  {| addSeparators := true;
     separatorStyle := "---";
     includeFileHeaders := false;
     preserveFormatting := true;
     generateHash := false;
     useTimestamp := false |}.

(** The object [{}] as partial settings. *)
Definition no_settings : PartialMergeSettings :=
  {| opt_addSeparators := None;
     opt_separatorStyle := None;
     opt_includeFileHeaders := None;
     opt_preserveFormatting := None;
     opt_generateHash := None;
     opt_useTimestamp := None |}.

(** [{...base, ...over}]: the keys of [over] win. *)
Definition spread (base : MergeSettings) (over : PartialMergeSettings) : MergeSettings :=
  {| addSeparators := default (addSeparators base) (opt_addSeparators over);
     separatorStyle := default (separatorStyle base) (opt_separatorStyle over);
     includeFileHeaders := default (includeFileHeaders base) (opt_includeFileHeaders over);
     preserveFormatting := default (preserveFormatting base) (opt_preserveFormatting over);
     generateHash := default (generateHash base) (opt_generateHash over);
     useTimestamp := default (useTimestamp base) (opt_useTimestamp over) |}.

(** [InstruxFile] *)
Record InstruxFile : Type := {
  file_path : string;
  file_description : string;
  file_required : bool;
}.

(** [RepoConfig]: the content of [instrux.json]; every key is optional. *)
Record RepoConfig : Type := {
  repo_agentsDirectory : option string;
  repo_outputDirectory : option string;
  repo_mergeSettings : option PartialMergeSettings;
  repo_frontmatter : option FrontmatterMode;
  repo_sources : option (list string);
  repo_tokenizerModel : option string;
}.

(** [AgentConfig] of [src/types.ts]: the content of [agent.json]. *)
Record AgentConfig : Type := {
  agent_name : string;
  agent_description : string;
  agent_outputDirectory : option string;
  agent_outputFilePattern : option string;
  agent_files : option (list InstruxFile);
  agent_entry : option string;
  agent_sources : option (list string);
  agent_frontmatter : option FrontmatterMode;
  agent_mergeSettings : option PartialMergeSettings;
}.

(** [ResolvedAgentConfig] *)
Record ResolvedAgentConfig : Type := {
  rc_name : string;
  rc_description : string;
  rc_files : option (list InstruxFile);
  rc_entry : option string;
  rc_agentsDirectory : string;
  rc_outputDirectory : string;
  rc_outputFilePattern : string;
  rc_sources : option (list string);
  rc_frontmatter : option FrontmatterMode;
  rc_mergeSettings : MergeSettings;
  rc_tokenizerModel : string;
}.

(** [ValidationResult] *)
Record ValidationResult : Type := {
  valid : bool;
  missing : list string;
  warnings : list string;
}.

Section Engine.

(** [String.prototype.toLowerCase] *)
Variable toLowerCase : string → string.

(** [mergeConfigs] *)
Definition mergeConfigs (agentConfig : AgentConfig) (repoConfig : RepoConfig)
    : ResolvedAgentConfig :=
  let mergeSettings :=
    spread
      (spread DEFAULT_MERGE_SETTINGS
         (default no_settings (repo_mergeSettings repoConfig)))
      (default no_settings (agent_mergeSettings agentConfig)) in
  let agentsDirectory := default "agents" (repo_agentsDirectory repoConfig) in
  let agentName := agent_name agentConfig in
  let agentDir := agentsDirectory +:+ "/" +:+ agentName in
  let entry :=
    match agent_entry agentConfig with
    | Some (String c rest) => Some (agentDir +:+ "/" +:+ String c rest)
    | other => other
    end in
  let sources :=
    [agentDir +:+ "/**/*.md"]
    ++ match agent_sources agentConfig with
       | Some (s :: rest) => s :: rest
       | _ => []
       end
    ++ match repo_sources repoConfig with
       | Some (s :: rest) => (λ s, agentsDirectory +:+ "/" +:+ s) <$> (s :: rest)
       | _ => [agentsDirectory +:+ "/base/**/*.md"]
       end in
  {| rc_name := agent_name agentConfig;
     rc_description := agent_description agentConfig;
     rc_files := agent_files agentConfig;
     rc_entry := entry;
     rc_agentsDirectory := agentsDirectory;
     rc_outputDirectory :=
       default (default "out" (repo_outputDirectory repoConfig))
         (agent_outputDirectory agentConfig);
     rc_outputFilePattern :=
       default (toLowerCase agentName +:+ "_instructions.md")
         (agent_outputFilePattern agentConfig);
     rc_sources := Some sources;
     rc_frontmatter :=
       match agent_frontmatter agentConfig with
       | Some fm => Some fm
       | None => repo_frontmatter repoConfig
       end;
     rc_mergeSettings := mergeSettings;
     rc_tokenizerModel := default "gpt-4" (repo_tokenizerModel repoConfig) |}.

(** [isCompileMode]: [!!config.entry] *)
Definition isCompileMode (config : ResolvedAgentConfig) : bool :=
  match rc_entry config with
  | Some (String _ _) => true
  | _ => false
  end.

(** The files under the root directory, by their path relative to it:
    [fs.pathExists] and [fs.readFile]. *)
Variable disk : gmap string string.

(** [validate]; the body of its loop is [validate_file]. *)
Definition validate_file (acc : list string * list string) (file : InstruxFile)
    : list string * list string :=
  let '(missing, warnings) := acc in
  let exists_ := bool_decide (is_Some (disk !! file_path file)) in
  if negb exists_ && file_required file
  then (missing ++ [file_path file], warnings)
  else if negb exists_ && negb (file_required file)
  then (missing, warnings ++ ["Optional file not found: " +:+ file_path file])
  else (missing, warnings).

Definition validate (config : ResolvedAgentConfig) : ValidationResult :=
  let files := default [] (rc_files config) in
  let '(missing, warnings) := fold_left validate_file files ([], []) in
  {| valid := (length missing =? 0)%nat;
     missing := missing;
     warnings := warnings |}.

(** [new Date().toISOString()] at the time of the merge. *)
Variable now : string.

(** [merge]; the body of its loop is [merge_file], on the text merged so
    far and the flag [first]. *)
Definition merge_file (mergeSettings : MergeSettings) (acc : string * bool)
    (file : InstruxFile) : string * bool :=
  let '(merged, first) := acc in
  let content := default "" (disk !! file_path file) in
  if (String.length content =? 0)%nat || (String.length (trim content) =? 0)%nat
  then (merged, first)
  else
    let content := trim content in
    let merged :=
      if first then merged
      else if addSeparators mergeSettings
      then merged +:+ Js.newline +:+ separatorStyle mergeSettings +:+ Js.newline
      else merged +:+ Js.newline in
    let merged :=
      if includeFileHeaders mergeSettings
      then merged +:+ "<!-- File: " +:+ file_path file +:+ " -->" +:+ Js.newline
                  +:+ "<!-- " +:+ file_description file +:+ " -->" +:+ Js.newline
                  +:+ Js.newline
      else merged in
    (merged +:+ content, false).

Definition merge (config : ResolvedAgentConfig) : string :=
  let mergeSettings := rc_mergeSettings config in
  let files := default [] (rc_files config) in
  let merged :=
    if includeFileHeaders mergeSettings
    then "<!-- Generated by instrux -->" +:+ Js.newline
         +:+ "<!-- Agent: " +:+ rc_name config +:+ " -->" +:+ Js.newline
         +:+ "<!-- Generated: " +:+ now +:+ " -->" +:+ Js.newline +:+ Js.newline
    else "" in
  let merged := (fold_left (merge_file mergeSettings) files (merged, true)).1 in
  let merged := trim merged in
  if (0 <? String.length merged)%nat && negb (Js.endsWith_char merged Js.LF)
  then merged +:+ Js.newline
  else merged.

End Engine.

End Engine.

(** The configuration the engine hands to the compiler: the fields of the
    resolved configuration that the compiler reads. *)
Definition compiler_config (config : Engine.ResolvedAgentConfig) : AgentConfig :=
  {| cfg_name := Engine.rc_name config;
     cfg_description := Engine.rc_description config;
     cfg_entry := Engine.rc_entry config;
     cfg_sources := Engine.rc_sources config;
     cfg_frontmatter := Engine.rc_frontmatter config;
     cfg_addSeparators := Engine.addSeparators (Engine.rc_mergeSettings config);
     cfg_separatorStyle := Engine.separatorStyle (Engine.rc_mergeSettings config) |}.

(** The files [merge] does not skip: those with a content that is not
    blank. *)
Definition merged_content (disk : gmap string string) (file : Engine.InstruxFile)
    : string :=
  Engine.trim (default "" (disk !! Engine.file_path file)).

(** The separator of [merge]. *)
Definition merge_separator (mergeSettings : Engine.MergeSettings) : string :=
  if Engine.addSeparators mergeSettings
  then Js.newline +:+ Engine.separatorStyle mergeSettings +:+ Js.newline
  else Js.newline.

(** A legacy project of two files and one missing optional file, for the
    examples of the ordered merge. *)
Module Legacy.

Definition files : list Engine.InstruxFile :=
  [ {| Engine.file_path := "a.md"; Engine.file_description := "first";
       Engine.file_required := true |};
    {| Engine.file_path := "gone.md"; Engine.file_description := "optional";
       Engine.file_required := false |};
    {| Engine.file_path := "blank.md"; Engine.file_description := "blank";
       Engine.file_required := true |};
    {| Engine.file_path := "b.md"; Engine.file_description := "second";
       Engine.file_required := true |} ].

Definition disk : gmap string string :=
  list_to_map [("a.md", " A" +:+ Js.newline); ("blank.md", " " +:+ Js.newline);
               ("b.md", "B")].

Definition agent (files : list Engine.InstruxFile) (entry : option string)
    : Engine.AgentConfig :=
  {| Engine.agent_name := "Bot";
     Engine.agent_description := "";
     Engine.agent_outputDirectory := None;
     Engine.agent_outputFilePattern := None;
     Engine.agent_files := Some files;
     Engine.agent_entry := entry;
     Engine.agent_sources := None;
     Engine.agent_frontmatter := None;
     Engine.agent_mergeSettings := None |}.

Definition repo : Engine.RepoConfig :=
  {| Engine.repo_agentsDirectory := None;
     Engine.repo_outputDirectory := None;
     Engine.repo_mergeSettings := None;
     Engine.repo_frontmatter := None;
     Engine.repo_sources := None;
     Engine.repo_tokenizerModel := None |}.

(** [toLowerCase] on the letters A to Z. *)
Fixpoint toLowerCase (s : string) : string :=
  match s with
  | EmptyString => EmptyString
  | String c s' =>
      let n := nat_of_ascii c in
      String (if (65 <=? n)%nat && (n <=? 90)%nat then ascii_of_nat (n + 32) else c)
             (toLowerCase s')
  end.

Definition config : Engine.ResolvedAgentConfig :=
  Engine.mergeConfigs toLowerCase (agent files None) repo.

Definition now : string := "2024-01-01T00:00:00.000Z".

End Legacy.

(** A project whose entry is outside the source patterns and looks up a
    key that every object inherits. *)
Module Proto.

Definition body : string := "{{meta 'constructor'}}{{meta 'title'}}".
Definition raw_entry : string := Demo.lines ["---"; "title: X"; "---"; body].

Definition matter (raw : string) : Frontmatter * string :=
  if String.eqb raw raw_entry then ([("title", VStr "X")], body) else ([], raw).

Definition hbs_parse (content : string) : option (list node) :=
  if String.eqb content body then Some [NMeta "constructor"; NMeta "title"]
  else Some [NText content].

Definition config : AgentConfig :=
  {| cfg_name := "Proto";
     cfg_description := "";
     cfg_entry := Some "entry.md";
     cfg_sources := Some ["docs/*.md"];
     cfg_frontmatter := None;
     cfg_addSeparators := true;
     cfg_separatorStyle := "---" |}.

Definition disk : gmap string string := {[ "entry.md" := raw_entry ]}.

Definition index : SourceIndex := buildSourceIndex matter [].

End Proto.

(** A collation that, like the host's, compares the letters before their
    case: [a.md] comes before [B.md], and of two paths that differ in case
    only the lower-case one comes first. *)
Module Icu.

Definition collation : Js.Collation :=
  λ a b,
    match String.compare (Legacy.toLowerCase a) (Legacy.toLowerCase b) with
    | Lt => -1
    | Gt => 1
    | Eq => match String.compare a b with
            | Lt => 1
            | Eq => 0
            | Gt => -1
            end
    end.

End Icu.

(** * Properties *)

(** ** [Array.prototype.sort] with a consistent comparator *)

Section SortTheory.
Context {A : Type} (cmp : A → A → Z).

Let le (x y : A) : Prop := cmp x y ≤ 0.

Lemma sort_insert_perm (x : A) (l : list A) : Js.sort_insert cmp x l ≡ₚ x :: l.
Proof.
    induction l as [|y l IH]; simpl; [done|].
    destruct (cmp x y <=? 0); [done|].
    rewrite IH. apply perm_swap.
Qed.

Lemma sort_perm (l : list A) : Js.sort cmp l ≡ₚ l.
Proof.
    induction l as [|x l IH]; simpl; [done|].
    rewrite sort_insert_perm. by rewrite IH.
Qed.

Hypothesis cmp_total : ∀ x y, 0 < cmp x y → cmp y x ≤ 0.
Hypothesis cmp_trans : ∀ x y z, cmp x y ≤ 0 → cmp y z ≤ 0 → cmp x z ≤ 0.

Lemma sort_insert_sorted (x : A) (l : list A) :
    StronglySorted le l → StronglySorted le (Js.sort_insert cmp x l).
Proof using cmp_total cmp_trans.
    induction 1 as [|y l Hl IH Hy]; simpl.
    - repeat constructor.
    - destruct (Z.leb_spec (cmp x y) 0) as [Hxy|Hxy].
      + constructor; [by constructor|].
        constructor; [exact Hxy|].
        eapply Forall_impl; [exact Hy|].
        intros z Hz. by apply cmp_trans with y.
      + constructor; [exact IH|].
        rewrite sort_insert_perm. constructor; [|exact Hy].
        by apply cmp_total.
Qed.

Lemma sort_sorted (l : list A) : StronglySorted le (Js.sort cmp l).
Proof using cmp_total cmp_trans.
    induction l as [|x l IH]; simpl; [constructor|].
    by apply sort_insert_sorted.
Qed.

End SortTheory.

(** ** The order of [sortSourceFiles] *)

Section Order.

Context {collate : Js.Collation}.

Lemma compare_files_le (a b : SourceFile) : compare_files a b ≤ 0 ↔ key_le a b.
Proof.
  unfold compare_files, key_le.
  destruct (Z.eqb_spec (order_of a) (order_of b)) as [Heq|Hne]; simpl; intuition lia.
Qed.

Lemma sortSourceFiles_perm (files : list SourceFile) : sortSourceFiles files ≡ₚ files.
Proof. apply sort_perm. Qed.

Hypothesis collation : Js.consistent.

Lemma localeCompare_total (a b : string) :
  Js.localeCompare a b ≤ 0 ∨ Js.localeCompare b a ≤ 0.
Proof using collation.
  destruct collation as [Hflip _]. specialize (Hflip a b).
  destruct (Z.sgn_spec (Js.localeCompare a b)) as [[? ?]|[[? ?]|[? ?]]],
           (Z.sgn_spec (Js.localeCompare b a)) as [[? ?]|[[? ?]|[? ?]]]; lia.
Qed.

Lemma localeCompare_both (a b : string) :
  Js.localeCompare a b ≤ 0 → Js.localeCompare b a ≤ 0 → Js.localeCompare a b = 0.
Proof using collation.
  destruct collation as [Hflip _]. specialize (Hflip a b).
  destruct (Z.sgn_spec (Js.localeCompare a b)) as [[? ?]|[[? ?]|[? ?]]],
           (Z.sgn_spec (Js.localeCompare b a)) as [[? ?]|[[? ?]|[? ?]]]; lia.
Qed.

Lemma key_le_total (a b : SourceFile) : key_le a b ∨ key_le b a.
Proof using collation.
  unfold key_le.
  destruct (Z.lt_trichotomy (order_of a) (order_of b)) as [?|[?|?]]; auto.
  destruct (localeCompare_total (sf_path a) (sf_path b)); auto.
Qed.

Lemma key_le_trans (a b c : SourceFile) : key_le a b → key_le b c → key_le a c.
Proof using collation.
  unfold key_le. intros [?|[? Hab]] [?|[? Hbc]]; try (left; lia).
  right. split; [lia|]. destruct collation as [_ Htrans]. by eapply Htrans.
Qed.

Lemma sortSourceFiles_sorted (files : list SourceFile) :
  StronglySorted key_le (sortSourceFiles files).
Proof using collation.
  assert (StronglySorted (λ x y, compare_files x y ≤ 0) (sortSourceFiles files)) as Hs.
  { apply sort_sorted.
    - intros x y Hxy. apply compare_files_le.
      destruct (key_le_total x y) as [Hk|Hk]; [|done].
      apply compare_files_le in Hk. lia.
    - intros x y z. rewrite !compare_files_le. apply key_le_trans. }
  induction Hs as [|x l _ IH Hx]; constructor; [done|].
  eapply Forall_impl; [exact Hx|]. intros y. apply compare_files_le.
Qed.

End Order.

(** The collation of the examples is consistent. *)
Lemma code_units_consistent : @Js.consistent Demo.code_units.
Proof.
  assert (∀ a b, Js.localeCompare a b ≤ 0 ↔ (a ≤ b)%string) as Hle.
  { intros a b. unfold Js.localeCompare, Demo.code_units, String.le, String.leb.
    destruct (String.compare a b); simpl; intuition lia. }
  split.
  - intros a b. unfold Js.localeCompare, Demo.code_units.
    rewrite (String.compare_antisym b a). by destruct (String.compare a b).
  - intros a b c. rewrite !Hle. intros Hab Hbc. by transitivity b.
Qed.

(** In a strongly sorted list, positions follow the order. *)
Lemma StronglySorted_lookup {A : Type} (R : relation A) (l : list A) (i j : nat) (x y : A) :
  StronglySorted R l → l !! i = Some x → l !! j = Some y → (i < j)%nat → R x y.
Proof.
  intros Hs. revert i j. induction Hs as [|z l _ IH Hz]; intros i j Hi Hj Hlt.
  - by rewrite lookup_nil in Hi.
  - destruct j as [|j]; [lia|]. destruct i as [|i]; simpl in *.
    + injection Hi as ->. rewrite Forall_forall in Hz.
      apply Hz. by eapply list_elem_of_lookup_2.
    + apply (IH i j); [done|done|lia].
Qed.

(** ** Rules for runs *)

Lemma triple_ret {A : Type} (P : CompilerState → Prop) (a : A)
    (Q : A → CompilerState → Prop) (E : CompileError → Prop) :
  (∀ st, P st → Q a st) → triple P (mret a) Q E.
Proof. intros H st Hst. exists (Return a st). split; [done|]. by apply H. Qed.

Lemma triple_throw {A : Type} (P : CompilerState → Prop) (e : CompileError)
    (Q : A → CompilerState → Prop) (E : CompileError → Prop) :
  E e → triple P (throw e) Q E.
Proof. intros H st _. by exists (Throw e). Qed.

Lemma triple_modify (P : CompilerState → Prop) (f : CompilerState → CompilerState)
    (Q : unit → CompilerState → Prop) (E : CompileError → Prop) :
  (∀ st, P st → Q tt (f st)) → triple P (modify f) Q E.
Proof. intros H st Hst. exists (Return tt (f st)). split; [done|]. by apply H. Qed.

Lemma triple_bind {A B : Type} (P : CompilerState → Prop) (m : Run A)
    (Q : A → CompilerState → Prop) (k : A → Run B)
    (R : B → CompilerState → Prop) (E : CompileError → Prop) :
  triple P m Q E → (∀ a, triple (Q a) (k a) R E) → triple P (m ≫= k) R E.
Proof.
  intros Hm Hk st Hst. destruct (Hm st Hst) as ([a st'|e] & Hr & Hpost).
  - destruct (Hk a st' Hpost) as (r & Hr' & Hpost').
    exists r. split; [|done]. unfold mbind, run_bind. by rewrite Hr.
  - exists (Throw e). split; [|done]. unfold mbind, run_bind. by rewrite Hr.
Qed.

Lemma triple_weaken {A : Type} (P P' : CompilerState → Prop) (m : Run A)
    (Q Q' : A → CompilerState → Prop) (E E' : CompileError → Prop) :
  triple P m Q E →
  (∀ st, P' st → P st) → (∀ a st, Q a st → Q' a st) → (∀ e, E e → E' e) →
  triple P' m Q' E'.
Proof.
  intros Hm HP HQ HE st Hst. destruct (Hm st (HP st Hst)) as ([a st'|e] & Hr & Hpost).
  - exists (Return a st'). split; [done|]. by apply HQ.
  - exists (Throw e). split; [done|]. by apply HE.
Qed.

(** Under an invariant [I], [map_run] and [concat_run] run [f] on each
    element in turn; an error they throw is an error of one of the calls. *)
Lemma triple_map_run {X Y : Type} (I : CompilerState → Prop) (f : X → Run Y)
    (E : X → CompileError → Prop) (xs : list X) :
  (∀ x, x ∈ xs → triple I (f x) (λ _, I) (E x)) →
  triple I (map_run f xs) (λ _, I) (λ e, ∃ x, x ∈ xs ∧ E x e).
Proof.
  induction xs as [|x xs IH]; intros Hf; simpl.
  - by apply triple_ret.
  - eapply triple_bind.
    + eapply triple_weaken; [apply (Hf x); left|done|done|].
      intros e He. exists x. split; [left|done].
    + intros y. eapply triple_bind.
      * eapply triple_weaken; [apply IH|done|done|].
        -- intros x' Hx'. apply Hf. by right.
        -- intros e (x' & Hx' & He). exists x'. split; [by right|done].
      * intros ys. by apply triple_ret.
Qed.

Lemma triple_concat_run {X : Type} (I : CompilerState → Prop) (f : X → Run string)
    (E : X → CompileError → Prop) (xs : list X) :
  (∀ x, x ∈ xs → triple I (f x) (λ _, I) (E x)) →
  triple I (concat_run f xs) (λ _, I) (λ e, ∃ x, x ∈ xs ∧ E x e).
Proof.
  induction xs as [|x xs IH]; intros Hf; simpl.
  - by apply triple_ret.
  - eapply triple_bind.
    + eapply triple_weaken; [apply (Hf x); left|done|done|].
      intros e He. exists x. split; [left|done].
    + intros y. eapply triple_bind.
      * eapply triple_weaken; [apply IH|done|done|].
        -- intros x' Hx'. apply Hf. by right.
        -- intros e (x' & Hx' & He). exists x'. split; [by right|done].
      * intros ys. by apply triple_ret.
Qed.

Lemma refines_refl {A : Type} (m : Run A) : refines m m.
Proof. by intros st r. Qed.

Lemma refines_bind {A B : Type} (m1 m2 : Run A) (k1 k2 : A → Run B) :
  refines m1 m2 → (∀ a, refines (k1 a) (k2 a)) → refines (m1 ≫= k1) (m2 ≫= k2).
Proof.
  intros Hm Hk st r. unfold mbind, run_bind.
  destruct (m1 st) as [[a st'|e]|] eqn:H1; [| |done].
  - rewrite (Hm _ _ H1). apply Hk.
  - by rewrite (Hm _ _ H1).
Qed.

Lemma refines_map_run {X Y : Type} (f1 f2 : X → Run Y) (xs : list X) :
  (∀ x, refines (f1 x) (f2 x)) → refines (map_run f1 xs) (map_run f2 xs).
Proof.
  intros Hf. induction xs as [|x xs IH]; simpl; [apply refines_refl|].
  apply refines_bind; [done|]. intros y.
  apply refines_bind; [done|]. intros ys. apply refines_refl.
Qed.

Lemma refines_concat_run {X : Type} (f1 f2 : X → Run string) (xs : list X) :
  (∀ x, refines (f1 x) (f2 x)) → refines (concat_run f1 xs) (concat_run f2 xs).
Proof.
  intros Hf. induction xs as [|x xs IH]; simpl; [apply refines_refl|].
  apply refines_bind; [done|]. intros y.
  apply refines_bind; [done|]. intros ys. apply refines_refl.
Qed.

(** ** Rules for the helpers and for rendering *)

Section RenderRules.

(** The collation of the host. *)
Context {collate : Js.Collation}.

Variable config : AgentConfig.
Variable index : SourceIndex.

Lemma sorted_bucket_path (tagName : string) (files : list SourceFile) (f : SourceFile) :
  idx_tags index !! tagName = Some files →
  f ∈ sortSourceFiles files →
  sf_path f ∈ bucket_paths index tagName.
Proof.
  intros Hb Hf. unfold bucket_paths. rewrite Hb. simpl.
  apply list_elem_of_fmap. exists f. split; [done|].
  by rewrite sortSourceFiles_perm in Hf.
Qed.

Section Invariant.

Variable cf : string → Run string.
Variable meta : Frontmatter.
Variable I : CompilerState → Prop.
Variable Ecb : string → CompileError → Prop.

Lemma triple_tag (tagName : string) :
  (∀ t st, I st → I (use_tag t st)) →
  (∀ q, q ∈ bucket_paths index tagName → triple I (cf q) (λ _, I) (Ecb q)) →
  triple I (tag config index cf tagName) (λ _, I)
         (λ e, ∃ q, q ∈ bucket_paths index tagName ∧ Ecb q e).
Proof.
  intros HI Hcf. unfold tag.
  eapply (triple_bind I _ (λ _, I)); [apply triple_modify; intros st Hst; by apply HI|].
  intros _. simpl.
  destruct (idx_tags index !! tagName) as [[|f files]|] eqn:Hb;
    [by apply triple_ret| |by apply triple_ret].
  eapply (triple_bind I _ (λ _, I)); [|intros rendered; by apply triple_ret].
  eapply triple_weaken;
    [apply (triple_map_run I _ (λ f, Ecb (sf_path f)))|done|done|].
  - intros f' Hf'. apply Hcf. by eapply sorted_bucket_path.
  - intros e (f' & Hf' & He). exists (sf_path f').
    split; [by eapply sorted_bucket_path|done].
Qed.

Lemma triple_tagged (tagName : string) :
  (∀ t st, I st → I (use_tag t st)) →
  (∀ q, q ∈ bucket_paths index tagName → triple I (cf q) (λ _, I) (Ecb q)) →
  triple I (tagged index cf tagName) (λ _, I)
         (λ e, ∃ q, q ∈ bucket_paths index tagName ∧ Ecb q e).
Proof.
  intros HI Hcf. unfold tagged.
  eapply (triple_bind I _ (λ _, I)); [apply triple_modify; intros st Hst; by apply HI|].
  intros _. simpl.
  destruct (idx_tags index !! tagName) as [[|f files]|] eqn:Hb;
    [by apply triple_ret| |by apply triple_ret].
  eapply triple_weaken;
    [apply (triple_map_run I _ (λ f, Ecb (sf_path f)))|done|done|].
  - intros f' Hf'. eapply (triple_bind I _ (λ _, I)); [|intros body; by apply triple_ret].
    apply Hcf. by eapply sorted_bucket_path.
  - intros e (f' & Hf' & He). exists (sf_path f').
    split; [by eapply sorted_bucket_path|done].
Qed.

Lemma triple_render_node (n : node) (this : option Element) :
  (∀ t st, I st → I (use_tag t st)) →
  (∀ q, q ∈ callees_node index n → triple I (cf q) (λ _, I) (Ecb q)) →
  triple I (render_node config index cf meta this n) (λ _, I)
         (λ e, ∃ q, q ∈ callees_node index n ∧ Ecb q e).
Proof.
  intros HI. revert this.
  induction n as [text| | |f|key|filePath|tagName|tagName body IH]
    using node_nested_ind; intros this Hcf; simpl;
    try (by apply triple_ret).
  - eapply triple_weaken; [apply (Hcf filePath); left|done|done|].
    intros e He. exists filePath. split; [left|done].
  - apply triple_tag; [done|]. intros q Hq. by apply Hcf.
  - eapply (triple_bind I _ (λ _, I)).
    + eapply triple_weaken; [apply triple_tagged|done|done|]; [done| |].
      * intros q Hq. apply Hcf. apply elem_of_app. by left.
      * intros e (q & Hq & He). exists q. split; [|done].
        apply elem_of_app. by left.
    + intros items.
      eapply triple_weaken;
        [apply (triple_concat_run I _
                  (λ _ e, ∃ q, q ∈ body ≫= callees_node index ∧ Ecb q e))
        |done|done|].
      * intros item _.
        eapply triple_weaken;
          [apply (triple_concat_run I _
                    (λ n' e, ∃ q, q ∈ callees_node index n' ∧ Ecb q e))
          |done|done|].
        -- intros n' Hn'. rewrite Forall_forall in IH.
           apply IH; [done|]. intros q Hq. apply Hcf.
           apply elem_of_app. right. apply list_elem_of_bind. by exists n'.
        -- intros e (n' & Hn' & q & Hq & He). exists q. split; [|done].
           apply list_elem_of_bind. by exists n'.
      * intros e (_ & _ & q & Hq & He). exists q. split; [|done].
        apply elem_of_app. by right.
Qed.

Lemma triple_render (ns : list node) (this : option Element) :
  (∀ t st, I st → I (use_tag t st)) →
  (∀ q, q ∈ callees index ns → triple I (cf q) (λ _, I) (Ecb q)) →
  triple I (render config index cf meta this ns) (λ _, I)
         (λ e, ∃ q, q ∈ callees index ns ∧ Ecb q e).
Proof.
  intros HI Hcf. unfold render.
  eapply triple_weaken;
    [apply (triple_concat_run I _
              (λ n e, ∃ q, q ∈ callees_node index n ∧ Ecb q e))
    |done|done|].
  - intros n Hn. apply triple_render_node; [done|].
    intros q Hq. apply Hcf. apply list_elem_of_bind. by exists n.
  - intros e (n & Hn & q & Hq & He). exists q. split; [|done].
    apply list_elem_of_bind. by exists n.
Qed.

End Invariant.

(** Rendering is monotone in the recursive call. *)
Lemma refines_render_node (cf1 cf2 : string → Run string) (meta : Frontmatter)
    (n : node) (this : option Element) :
  (∀ q, refines (cf1 q) (cf2 q)) →
  refines (render_node config index cf1 meta this n)
          (render_node config index cf2 meta this n).
Proof.
  intros Hcf. revert this.
  induction n as [text| | |f|key|filePath|tagName|tagName body IH]
    using node_nested_ind; intros this; simpl;
    try apply refines_refl.
  - apply Hcf.
  - unfold tag. apply refines_bind; [apply refines_refl|]. intros _.
    destruct (idx_tags index !! tagName) as [[|f files]|];
      [apply refines_refl| |apply refines_refl].
    apply refines_bind; [|intros; apply refines_refl].
    apply refines_map_run. intros f'. apply Hcf.
  - apply refines_bind.
    + unfold tagged. apply refines_bind; [apply refines_refl|]. intros _.
      destruct (idx_tags index !! tagName) as [[|f files]|];
        [apply refines_refl| |apply refines_refl].
      apply refines_map_run. intros f'.
      apply refines_bind; [apply Hcf|intros; apply refines_refl].
    + intros items. apply refines_concat_run. intros item.
      induction IH as [|n' ns' Hn' _ IH']; simpl; [apply refines_refl|].
      apply refines_bind; [apply Hn'|]. intros a.
      apply refines_bind; [apply IH'|]. intros b. apply refines_refl.
Qed.

Lemma refines_render (cf1 cf2 : string → Run string) (meta : Frontmatter)
    (ns : list node) (this : option Element) :
  (∀ q, refines (cf1 q) (cf2 q)) →
  refines (render config index cf1 meta this ns)
          (render config index cf2 meta this ns).
Proof.
  intros Hcf. apply refines_concat_run. intros n. by apply refines_render_node.
Qed.

End RenderRules.

(** ** The compile stack *)

Lemma set_has_true (x : string) (s : list string) : Js.set_has x s = true ↔ x ∈ s.
Proof. apply bool_decide_eq_true. Qed.

Lemma set_has_false (x : string) (s : list string) : Js.set_has x s = false ↔ x ∉ s.
Proof. apply bool_decide_eq_false. Qed.

Lemma set_add_fresh (x : string) (s : list string) : x ∉ s → Js.set_add x s = s ++ [x].
Proof. intros H. unfold Js.set_add. apply set_has_false in H. by rewrite H. Qed.

Lemma set_delete_fresh (x : string) (s : list string) : x ∉ s → Js.set_delete x s = s.
Proof.
  unfold Js.set_delete. induction s as [|y s IH]; intros H; [done|].
  apply not_elem_of_cons in H as [Hne Hs].
  rewrite filter_cons_True; [|done]. by rewrite IH.
Qed.

(** Deleting the path just pushed gives the stack back. *)
Lemma set_delete_add (x : string) (s : list string) :
  x ∉ s → Js.set_delete x (Js.set_add x s) = s.
Proof.
  intros H. rewrite set_add_fresh; [|done]. unfold Js.set_delete.
  rewrite filter_app. fold (Js.set_delete x s). rewrite set_delete_fresh; [|done].
  rewrite filter_cons_False; [|by intros []]. by rewrite app_nil_r.
Qed.

(** ** The room left on the stack *)

Lemma room_push (R : gset string) (stack : list string) (x : string) :
  x ∈ R → x ∉ stack → (room R (stack ++ [x]) < room R stack)%nat.
Proof.
  intros Hk Hs. unfold room. apply subset_size.
  rewrite list_to_set_app_L.
  assert (x ∉ (list_to_set stack : gset string)) as Hx
    by (by rewrite elem_of_list_to_set).
  split.
  - intros y. rewrite !elem_of_difference, elem_of_union. tauto.
  - intros Hsub. specialize (Hsub x).
    rewrite !elem_of_difference, elem_of_union, elem_of_list_to_set in Hsub.
    destruct Hsub as [_ Hsub]; [done|]. apply Hsub. right.
    apply elem_of_list_to_set. by left.
Qed.

Lemma room_le (R : gset string) (stack : list string) : (room R stack ≤ size R)%nat.
Proof.
  unfold room. apply subseteq_size. intros x.
  rewrite elem_of_difference. tauto.
Qed.

(** ** [compileFile] *)

Section CompileFile.

(** The collation of the host. *)
Context {collate : Js.Collation}.

Variable matter : string → Frontmatter * string.
Variable hbs_parse : string → option (list node).
Variable config : AgentConfig.
Variable disk : gmap string string.
Variable index : SourceIndex.

Local Abbreviation compileFile' := (compileFile matter hbs_parse config disk index).
Local Abbreviation read_content' := (read_content matter disk).
Local Abbreviation normalise := Js.replace_backslashes.
Local Abbreviation template_of' := (template_of matter hbs_parse disk index).
Local Abbreviation known' := (known disk index).
Local Abbreviation closed' := (closed matter hbs_parse disk index).

Lemma read_content_known (normalised content : string) :
  read_content' (idx_paths index !! normalised) normalised = Some content →
  normalised ∈ known'.
Proof.
  unfold read_content, known. intros H. apply elem_of_union.
  destruct (idx_paths index !! normalised) eqn:Hi.
  - left. apply elem_of_dom. by eexists.
  - right. destruct (disk !! normalised) eqn:Hd; [|done].
    apply elem_of_dom. by eexists.
Qed.

(** One step of [compileFile], for a path that is not on the stack. *)
Lemma compileFile_unfold (fuel : nat) (relPath : string) (st : CompilerState) :
  normalise relPath ∉ compileStack st →
  compileFile' (S fuel) relPath st =
    match template_of' (normalise relPath) with
    | Some template =>
        match render config index (compileFile' fuel)
                (from_option sf_frontmatter [] (idx_paths index !! normalise relPath))
                None template (push_file (normalise relPath) st) with
        | Some (Return rendered st') =>
            Some (Return rendered (pop_file (normalise relPath) st'))
        | Some (Throw e) => Some (Throw e)
        | None => None
        end
    | None =>
        match read_content' (idx_paths index !! normalise relPath) (normalise relPath) with
        | Some _ => Some (Throw (TemplateError (normalise relPath)))
        | None => Some (Throw (FileNotFound (normalise relPath)))
        end
    end.
Proof.
  intros Hs. apply set_has_false in Hs. simpl. rewrite Hs.
  unfold template_of, mbind at 1, run_bind, modify. simpl.
  destruct (read_content' _ _) as [content|]; simpl; [|done].
  destruct (hbs_parse content) as [template|]; simpl; [|done].
  unfold mbind at 1, run_bind.
  by destruct (render _ _ _ _ _ _ _) as [[rendered st'|e]|].
Qed.

(** A path on the stack is a circular reference. *)
Lemma compileFile_circular (fuel : nat) (relPath : string) (st : CompilerState) :
  normalise relPath ∈ compileStack st →
  compileFile' (S fuel) relPath st =
    Some (Throw (CircularReference (compileStack st ++ [normalise relPath]))).
Proof. intros Hs. apply set_has_true in Hs. simpl. by rewrite Hs. Qed.

Lemma template_of_Some (normalised : string) (template : list node) :
  template_of' normalised = Some template ↔
  ∃ content,
    read_content' (idx_paths index !! normalised) normalised = Some content ∧
    hbs_parse content = Some template.
Proof.
  unfold template_of. destruct (read_content' _ _) as [content|]; simpl.
  - split; [by exists content|]. by intros (? & [= <-] & ?).
  - split; [done|]. by intros (? & ? & ?).
Qed.

(** *** The rule of [compileFile]

    [E stack p e] says which errors [e] a call on [p] may throw when it is
    entered with [stack]. When [E] admits the three errors [compileFile]
    throws itself and the errors of the nested calls, a call entered with
    [stack] finishes as soon as the budget exceeds the room left in a closed
    set [R] that holds the path, leaves the stack as it found it, and throws
    only errors in [E]. *)
Section Rule.

Variable E : list string → string → CompileError → Prop.

Hypothesis E_circular : ∀ stack p,
  normalise p ∈ stack →
  E stack p (CircularReference (stack ++ [normalise p])).

Hypothesis E_missing : ∀ stack p,
  normalise p ∉ stack →
  read_content' (idx_paths index !! normalise p) (normalise p) = None →
  E stack p (FileNotFound (normalise p)).

Hypothesis E_template : ∀ stack p,
  normalise p ∉ stack →
  is_Some (read_content' (idx_paths index !! normalise p) (normalise p)) →
  template_of' (normalise p) = None →
  E stack p (TemplateError (normalise p)).

Hypothesis E_nested : ∀ stack p template q e,
  normalise p ∉ stack →
  template_of' (normalise p) = Some template →
  q ∈ callees index template →
  E (stack ++ [normalise p]) q e →
  E stack p e.

Variable R : gset string.
Hypothesis R_closed : closed' R.

Lemma compileFile_triple (n : nat) (stack : list string) (p : string) :
  (normalise p ∈ known' → normalise p ∈ R) →
  (room R stack ≤ n)%nat →
  triple (λ st, compileStack st = stack) (compileFile' (S n) p)
         (λ _ st, compileStack st = stack) (E stack p).
Proof using E_circular E_missing E_template E_nested R_closed.
  revert stack p. induction n as [|n IH]; intros stack p HR Hroom st Hst.
  all: destruct (decide (normalise p ∈ stack)) as [Hin|Hout];
    [rewrite compileFile_circular; [|by rewrite Hst];
     eexists; split; [done|]; rewrite Hst; by apply E_circular|].
  all: rewrite compileFile_unfold; [|by rewrite Hst].
  all: destruct (template_of' (normalise p)) as [template|] eqn:Ht;
    [|destruct (read_content' _ _) as [content|] eqn:Hc;
      (eexists; split; [done|]);
      [by apply E_template|by apply E_missing]].
  all: pose proof Ht as Ht'; apply template_of_Some in Ht' as (content & Hc & _).
  all: pose proof (HR (read_content_known _ _ Hc)) as HpR.
  all: pose proof (room_push R stack (normalise p) HpR Hout) as Hlt.
  - lia.
  - destruct (triple_render config index (compileFile' (S n))
                (from_option sf_frontmatter [] (idx_paths index !! normalise p))
                (λ st', compileStack st' = stack ++ [normalise p])
                (E (stack ++ [normalise p])) template None)
      with (st := push_file (normalise p) st) as ([rendered st'|e] & Hr & Hpost).
    + done.
    + intros q Hq. apply IH; [|lia]. by apply (R_closed (normalise p) template).
    + simpl. rewrite Hst. by apply set_add_fresh.
    + rewrite Hr. eexists. split; [done|]. simpl. rewrite Hpost.
      rewrite <- (set_add_fresh _ _ Hout). by apply set_delete_add.
    + rewrite Hr. eexists. split; [done|].
      destruct Hpost as (q & Hq & He). by eapply E_nested.
Qed.

End Rule.

(** More budget does not change the outcome. *)
Lemma compileFile_step (fuel : nat) (p : string) :
  refines (compileFile' fuel p) (compileFile' (S fuel) p).
Proof.
  revert p. induction fuel as [|fuel IH]; intros p st r H; [done|].
  destruct (decide (normalise p ∈ compileStack st)) as [Hin|Hout].
  - rewrite compileFile_circular in H |- *; done.
  - rewrite compileFile_unfold in H |- *; [|done..].
    destruct (template_of' (normalise p)) as [template|]; [|done].
    destruct (render _ _ (compileFile' fuel) _ _ _ _) as [r'|] eqn:Hr; [|done].
    by rewrite (refines_render config index _ _ _ _ _ IH _ _ Hr).
Qed.

Lemma compileFile_mono (fuel fuel' : nat) (p : string) :
  (fuel ≤ fuel')%nat → refines (compileFile' fuel p) (compileFile' fuel' p).
Proof.
  induction 1 as [|fuel' _ IH]; [apply refines_refl|].
  intros st r H. by apply compileFile_step, IH.
Qed.

Lemma known_closed : closed' known'.
Proof. by intros x template q _ _ _ Hq. Qed.

(** What a finished call satisfies, whatever its budget was. *)
Lemma compileFile_outcome (E : list string → string → CompileError → Prop)
    (R : gset string) (fuel : nat) (p : string) (st : CompilerState) (r : Outcome string) :
  (∀ stack p, normalise p ∈ stack →
     E stack p (CircularReference (stack ++ [normalise p]))) →
  (∀ stack p, normalise p ∉ stack →
     read_content' (idx_paths index !! normalise p) (normalise p) = None →
     E stack p (FileNotFound (normalise p))) →
  (∀ stack p, normalise p ∉ stack →
     is_Some (read_content' (idx_paths index !! normalise p) (normalise p)) →
     template_of' (normalise p) = None →
     E stack p (TemplateError (normalise p))) →
  (∀ stack p template q e, normalise p ∉ stack →
     template_of' (normalise p) = Some template →
     q ∈ callees index template →
     E (stack ++ [normalise p]) q e → E stack p e) →
  closed' R →
  (normalise p ∈ known' → normalise p ∈ R) →
  compileFile' fuel p st = Some r →
  match r with
  | Return _ st' => compileStack st' = compileStack st
  | Throw e => E (compileStack st) p e
  end.
Proof.
  intros E1 E2 E3 E4 HR Hp H.
  destruct (compileFile_triple E E1 E2 E3 E4 R HR
              (fuel `max` room R (compileStack st)) (compileStack st) p Hp
              ltac:(lia) st eq_refl) as (r' & Hr' & Hpost).
  apply (compileFile_mono fuel (S (fuel `max` room R (compileStack st)))) in H; [|lia].
  rewrite H in Hr'. by injection Hr' as <-.
Qed.

(** Every call finishes: a budget above the number of paths of a closed set
    holding the path is enough. *)
Lemma compileFile_terminates_within (R : gset string) (p : string) (st : CompilerState) :
  closed' R →
  (normalise p ∈ known' → normalise p ∈ R) →
  ∃ r, ∀ fuel, (size R < fuel)%nat → compileFile' fuel p st = Some r.
Proof.
  intros HR Hp.
  destruct (compileFile_triple (λ _ _ _, True) ltac:(done) ltac:(done) ltac:(done)
              ltac:(done) R HR (size R) (compileStack st) p Hp
              (room_le R _) st eq_refl) as (r & Hr & _).
  exists r. intros fuel Hfuel.
  by apply (compileFile_mono (S (size R)) fuel); [lia|].
Qed.

End CompileFile.

(** ** Templates of plain nodes *)

Lemma string_app_assoc (a b c : string) : (a +:+ b) +:+ c = a +:+ (b +:+ c).
Proof.
  induction a as [|x a IH]; [done|].
  change (String x ((a +:+ b) +:+ c) = String x (a +:+ (b +:+ c))).
  by rewrite IH.
Qed.

Lemma string_app_nil_r (a : string) : a +:+ "" = a.
Proof.
  induction a as [|x a IH]; [done|].
  change (String x (a +:+ "") = String x a). by rewrite IH.
Qed.

Section Plain.

(** The collation of the host. *)
Context {collate : Js.Collation}.

Variable config : AgentConfig.
Variable index : SourceIndex.
Variable cf : string → Run string.
Variable meta : Frontmatter.

Lemma render_node_plain (this : option Element) (n : node) (st : CompilerState) :
  plain n →
  render_node config index cf meta this n st
  = Some (Return (plain_text config meta this n) st).
Proof. by destruct n. Qed.

Lemma render_cons (this : option Element) (n : node) (ns : list node) :
  render config index cf meta this (n :: ns)
  = (a ← render_node config index cf meta this n;
     b ← render config index cf meta this ns;
     mret (a +:+ b)).
Proof. done. Qed.

(** Plain nodes in front of a template only add their text. *)
Lemma render_plain_app (this : option Element) (pre ns : list node) (st : CompilerState) :
  Forall plain pre →
  render config index cf meta this (pre ++ ns) st
  = match render config index cf meta this ns st with
    | Some (Return b st') =>
        Some (Return (plain_texts config meta this pre +:+ b) st')
    | r => r
    end.
Proof.
  induction 1 as [|n pre Hn _ IH].
  - by destruct (render _ _ _ _ _ _ _) as [[b st'|e]|].
  - change ((n :: pre) ++ ns) with (n :: (pre ++ ns)).
    rewrite render_cons. unfold mbind at 1, run_bind.
    rewrite render_node_plain; [|done].
    unfold mbind at 1, run_bind. rewrite IH.
    destruct (render _ _ _ _ _ ns st) as [[b st'|e]|]; [|done..].
    cbn [plain_texts foldr]. by rewrite string_app_assoc.
Qed.

Lemma render_plain (this : option Element) (ns : list node) (st : CompilerState) :
  Forall plain ns →
  render config index cf meta this ns st
  = Some (Return (plain_texts config meta this ns) st).
Proof.
  intros H. rewrite <- (app_nil_r ns) at 1. rewrite render_plain_app; [|done].
  change (render config index cf meta this [] st) with (Some (Return "" st)).
  cbv beta iota. by rewrite string_app_nil_r.
Qed.

End Plain.

(** ** Outcomes depend on the compile stack only *)

Lemma stack_only_ret {A : Type} (a : A) : stack_only (mret a : Run A).
Proof. by intros st1 st2 H. Qed.

Lemma stack_only_modify (f : CompilerState → CompilerState) :
  (∀ st1 st2, compileStack st1 = compileStack st2 →
              compileStack (f st1) = compileStack (f st2)) →
  stack_only (modify f).
Proof. intros Hf st1 st2 H. split; [done|]. by apply Hf. Qed.

Lemma stack_only_bind {A B : Type} (m : Run A) (k : A → Run B) :
  stack_only m → (∀ a, stack_only (k a)) → stack_only (m ≫= k).
Proof.
  intros Hm Hk st1 st2 H. specialize (Hm st1 st2 H).
  unfold mbind, run_bind.
  destruct (m st1) as [[a st1'|e1]|], (m st2) as [[b st2'|e2]|]; try done.
  destruct Hm as [<- Hm]. by apply Hk.
Qed.

Lemma stack_only_map_run {X Y : Type} (f : X → Run Y) (xs : list X) :
  (∀ x, stack_only (f x)) → stack_only (map_run f xs).
Proof.
  intros Hf. induction xs as [|x xs IH]; [apply stack_only_ret|].
  apply stack_only_bind; [done|]. intros y.
  apply stack_only_bind; [done|]. intros ys. apply stack_only_ret.
Qed.

Lemma stack_only_concat_run {X : Type} (f : X → Run string) (xs : list X) :
  (∀ x, stack_only (f x)) → stack_only (concat_run f xs).
Proof.
  intros Hf. induction xs as [|x xs IH]; [apply stack_only_ret|].
  apply stack_only_bind; [done|]. intros y.
  apply stack_only_bind; [done|]. intros ys. apply stack_only_ret.
Qed.

Section StackOnly.

(** The collation of the host. *)
Context {collate : Js.Collation}.

Variable matter : string → Frontmatter * string.
Variable hbs_parse : string → option (list node).
Variable config : AgentConfig.
Variable disk : gmap string string.
Variable index : SourceIndex.

Lemma stack_only_tag (cf : string → Run string) (tagName : string) :
  (∀ q, stack_only (cf q)) → stack_only (tag config index cf tagName).
Proof.
  intros Hcf. unfold tag.
  apply stack_only_bind; [by apply stack_only_modify|]. intros _.
  destruct (idx_tags index !! tagName) as [[|f files]|];
    [apply stack_only_ret| |apply stack_only_ret].
  apply stack_only_bind; [|intros; apply stack_only_ret].
  apply stack_only_map_run. intros f'. apply Hcf.
Qed.

Lemma stack_only_tagged (cf : string → Run string) (tagName : string) :
  (∀ q, stack_only (cf q)) → stack_only (tagged index cf tagName).
Proof.
  intros Hcf. unfold tagged.
  apply stack_only_bind; [by apply stack_only_modify|]. intros _.
  destruct (idx_tags index !! tagName) as [[|f files]|];
    [apply stack_only_ret| |apply stack_only_ret].
  apply stack_only_map_run. intros f'.
  apply stack_only_bind; [apply Hcf|intros; apply stack_only_ret].
Qed.

Lemma stack_only_render_node (cf : string → Run string) (meta : Frontmatter)
    (n : node) (this : option Element) :
  (∀ q, stack_only (cf q)) →
  stack_only (render_node config index cf meta this n).
Proof.
  intros Hcf. revert this.
  induction n as [text| | |f|key|filePath|tagName|tagName body IH]
    using node_nested_ind; intros this;
    try apply stack_only_ret.
  - apply Hcf.
  - by apply stack_only_tag.
  - apply stack_only_bind; [by apply stack_only_tagged|].
    intros items. apply stack_only_concat_run. intros item.
    induction IH as [|n' ns' Hn' _ IH']; [apply stack_only_ret|].
    apply stack_only_bind; [apply Hn'|]. intros a.
    apply stack_only_bind; [apply IH'|]. intros b. apply stack_only_ret.
Qed.

Lemma stack_only_render (cf : string → Run string) (meta : Frontmatter)
    (ns : list node) (this : option Element) :
  (∀ q, stack_only (cf q)) →
  stack_only (render config index cf meta this ns).
Proof.
  intros Hcf. apply stack_only_concat_run. intros n.
  by apply stack_only_render_node.
Qed.

Lemma stack_only_compileFile (fuel : nat) (p : string) :
  stack_only (compileFile matter hbs_parse config disk index fuel p).
Proof.
  revert p. induction fuel as [|fuel IH]; intros p st1 st2 H; [done|].
  destruct (decide (Js.replace_backslashes p ∈ compileStack st1)) as [Hin|Hout].
  - rewrite !compileFile_circular; [|by rewrite <- H|done]. simpl. by rewrite H.
  - rewrite !compileFile_unfold; [|by rewrite <- H|done].
    destruct (template_of _ _ _ _ _) as [template|]; [|by destruct (read_content _ _ _ _)].
    pose proof (stack_only_render
                  (compileFile matter hbs_parse config disk index fuel)
                  (from_option sf_frontmatter []
                     (idx_paths index !! Js.replace_backslashes p))
                  template None IH
                  (push_file (Js.replace_backslashes p) st1)
                  (push_file (Js.replace_backslashes p) st2)) as Hr.
    simpl in Hr. rewrite H in Hr. specialize (Hr eq_refl).
    destruct (render _ _ _ _ _ _ (push_file _ st1)) as [[a st1'|e1]|],
             (render _ _ _ _ _ _ (push_file _ st2)) as [[b st2'|e2]|]; try done.
    destruct Hr as [<- Hr]. split; [done|]. simpl. by rewrite Hr.
Qed.

End StackOnly.

(** * The claims *)

(** ** Tag ordering *)

Lemma order_of_Some (f : SourceFile) (n : Z) : im_order (sf_instrux f) = Some n → order_of f = n.
Proof. unfold order_of. by intros ->. Qed.

Lemma order_of_None (f : SourceFile) : im_order (sf_instrux f) = None → order_of f = 999.
Proof. unfold order_of. by intros ->. Qed.

(** Files with pairwise different sort keys have one sorted arrangement. *)
Lemma sortSourceFiles_unique {collate : Js.Collation} (l sorted : list SourceFile) :
  Js.consistent →
  (∀ x y, x ∈ sorted → y ∈ sorted → key_le x y → key_le y x → x = y) →
  StronglySorted key_le sorted →
  l ≡ₚ sorted →
  sortSourceFiles l = sorted.
Proof.
  intros Hc Hanti Hsorted Hperm. symmetry.
  apply (StronglySorted_unique_strong key_le); [|done| |].
  - intros x y Hx Hy. apply Hanti; [done|].
    rewrite sortSourceFiles_perm in Hy. by rewrite <- Hperm.
  - by apply sortSourceFiles_sorted.
  - by rewrite sortSourceFiles_perm.
Qed.

(** C7, as stated, fails: a file with the explicit order 1000 sorts after a
    file without order. *)
Lemma C7_counterexample :
  im_order (sf_instrux (Demo.file_with "a.md" (Some 1000))) = Some 1000 ∧
  im_order (sf_instrux (Demo.file_with "b.md" None)) = None ∧
  sortSourceFiles [Demo.file_with "a.md" (Some 1000); Demo.file_with "b.md" None]
  = [Demo.file_with "b.md" None; Demo.file_with "a.md" (Some 1000)].
Proof. split_and!; reflexivity. Qed.

(** C7, amended. An absent order sorts as the order 999. In the sorted
    bucket a file without order comes after every file whose explicit order
    is below 999 and before every file whose explicit order is above 999;
    with a file of explicit order 999 it ties, and the two are ordered by
    path, as the collation compares paths. *)
Theorem C7_absent_order_sorts_as_999
    {collate : Js.Collation}
    (files : list SourceFile) (a b : SourceFile) (n : Z) (i j : nat) :
  Js.consistent →
  im_order (sf_instrux a) = Some n →
  im_order (sf_instrux b) = None →
  sortSourceFiles files !! i = Some a →
  sortSourceFiles files !! j = Some b →
  (n < 999 → (i < j)%nat) ∧
  (999 < n → (j < i)%nat) ∧
  (n = 999 → Js.localeCompare (sf_path a) (sf_path b) < 0 → (i < j)%nat) ∧
  (n = 999 → Js.localeCompare (sf_path b) (sf_path a) < 0 → (j < i)%nat).
Proof.
  intros Hc Ha Hb Hi Hj.
  apply order_of_Some in Ha. apply order_of_None in Hb.
  pose proof (sortSourceFiles_sorted Hc files) as Hsorted.
  assert (∀ x y k l, sortSourceFiles files !! k = Some x →
                     sortSourceFiles files !! l = Some y →
                     ¬ key_le y x → (k < l)%nat) as Hbefore.
  { intros x y k l Hk Hl Hnot.
    destruct (decide (k < l)%nat) as [|Hge]; [done|]. exfalso. apply Hnot.
    destruct (decide (k = l)) as [->|Hne].
    - rewrite Hk in Hl. injection Hl as ->.
      by destruct (key_le_total Hc y y).
    - eapply (StronglySorted_lookup key_le _ l k); [done..|lia]. }
  assert (∀ p q, Js.localeCompare p q < 0 → ¬ Js.localeCompare q p ≤ 0) as Hflip.
  { intros p q Hpq Hqp. pose proof (localeCompare_both Hc p q ltac:(lia) Hqp). lia. }
  split_and!.
  - intros Hn. apply (Hbefore a b); [done..|]. intros [?|[? _]]; lia.
  - intros Hn. apply (Hbefore b a); [done..|]. intros [?|[? _]]; lia.
  - intros Hn Hab. apply (Hbefore a b); [done..|].
    intros [?|[_ Hba]]; [lia|]. by apply (Hflip _ _ Hab).
  - intros Hn Hba. apply (Hbefore b a); [done..|].
    intros [?|[_ Hab]]; [lia|]. by apply (Hflip _ _ Hba).
Qed.

Lemma C7_witness :
  sortSourceFiles [Demo.file_with "b.md" None; Demo.file_with "a.md" (Some 3)] !! 0%nat
  = Some (Demo.file_with "a.md" (Some 3)) ∧
  sortSourceFiles [Demo.file_with "b.md" None; Demo.file_with "a.md" (Some 3)] !! 1%nat
  = Some (Demo.file_with "b.md" None) ∧
  (0 < 1)%nat.
Proof.
  split_and!; [reflexivity|reflexivity|].
  destruct (C7_absent_order_sorts_as_999
              [Demo.file_with "b.md" None; Demo.file_with "a.md" (Some 3)]
              (Demo.file_with "a.md" (Some 3)) (Demo.file_with "b.md" None) 3 0 1
              code_units_consistent) as (Hbelow & _); [reflexivity..|].
  apply Hbelow. lia.
Defined.

(** ** Output normalisation *)

Lemma endsWith_char_app_newline (text : string) :
  Js.endsWith_char (text +:+ Js.newline) Js.LF = true.
Proof.
  induction text as [|c text IH]; [done|].
  change (String c text +:+ Js.newline) with (String c (text +:+ Js.newline)).
  destruct text; [done|]. exact IH.
Qed.

Lemma ensure_trailing_newline_ends (text : string) :
  Js.endsWith_char (ensure_trailing_newline text) Js.LF = true.
Proof.
  unfold ensure_trailing_newline.
  destruct (Js.endsWith_char text Js.LF) eqn:H; [done|].
  apply endsWith_char_app_newline.
Qed.

(** C4, as stated, fails: a body that ends in two newlines keeps both, and
    an empty body becomes a newline. *)
Lemma C4_counterexample :
  (∃ r, compile Demo.matter Demo.matter_stringify Demo.hbs_parse
          (Demo.config "blank.md" strip) Demo.disk 2 Demo.matched = Some (inr r) ∧
        output r = "x" +:+ Js.newline +:+ Js.newline ∧
        spec_normalize ("x" +:+ Js.newline +:+ Js.newline) = "x" +:+ Js.newline) ∧
  (∃ r, compile Demo.matter Demo.matter_stringify Demo.hbs_parse
          (Demo.config "empty.md" strip) Demo.disk 2 Demo.matched = Some (inr r) ∧
        output r = Js.newline ∧
        spec_normalize "" = "").
Proof. split; eexists; split_and!; vm_compute; reflexivity. Qed.

(** C4, amended. The output of a compilation is the frontmatter block and
    the compiled body of the entry, followed by a newline exactly when that
    text does not end with one: it always ends with a newline, and nothing
    is stripped from it. *)
Theorem C4_output_ends_with_newline {collate : Js.Collation}
    (matter : string → Frontmatter * string) (matter_stringify : Frontmatter → string)
    (hbs_parse : string → option (list node)) (config : AgentConfig)
    (disk : gmap string string) (fuel : nat) (matched : list (string * string))
    (r : CompileResult) :
  compile matter matter_stringify hbs_parse config disk fuel matched = Some (inr r) →
  ∃ entry body st,
    cfg_entry config = Some entry ∧
    compileFile matter hbs_parse config disk (buildSourceIndex matter matched) fuel
      (Js.replace_backslashes entry) cleared = Some (Return body st) ∧
    let text :=
      frontmatter_block matter_stringify config (buildSourceIndex matter matched)
        (Js.replace_backslashes entry) +:+ body in
    (Js.endsWith_char text Js.LF = true → output r = text) ∧
    (Js.endsWith_char text Js.LF = false → output r = text +:+ Js.newline) ∧
    Js.endsWith_char (output r) Js.LF = true.
Proof.
  unfold compile. intros H.
  destruct (cfg_entry config) as [[|c entry]|] eqn:He; [done| |done].
  destruct (cfg_sources config) as [[|? ?]|]; [done| |done].
  destruct (compileFile _ _ _ _ _ _ _ _) as [[body st|e]|] eqn:Hc; [|done..].
  injection H as <-. exists (String c entry), body, st.
  split_and!; [done|done|..]; simpl; unfold assemble, ensure_trailing_newline.
  - by intros ->.
  - by intros ->.
  - apply ensure_trailing_newline_ends.
Qed.

Lemma C4_witness :
  ∃ r, compile Demo.matter Demo.matter_stringify Demo.hbs_parse
         (Demo.config "blank.md" strip) Demo.disk 2 Demo.matched = Some (inr r) ∧
       Js.endsWith_char (output r) Js.LF = true.
Proof.
  eexists. split; [vm_compute; reflexivity|].
  destruct (C4_output_ends_with_newline Demo.matter Demo.matter_stringify
              Demo.hbs_parse (Demo.config "blank.md" strip) Demo.disk 2 Demo.matched
              _ eq_refl) as (entry & body & st & _ & _ & _ & _ & H).
  exact H.
Defined.

(** ** The items of the tag iteration *)

Lemma map_run_elements (cf : string → Run string) (files : list SourceFile)
    (st st' : CompilerState) (items : list Element) :
  map_run (λ f, body ← cf (sf_path f); mret (element_of f body)) files st
    = Some (Return items st') →
  Forall2 (λ f item, ∃ body, item = element_of f body) files items.
Proof.
  revert st items. induction files as [|f files IH]; intros st items H; simpl in H.
  - injection H as <- _. constructor.
  - unfold mbind at 1, run_bind in H. unfold mbind at 1, run_bind in H.
    destruct (cf (sf_path f) st) as [[body st1|e]|]; [|done..].
    simpl in H. unfold mbind at 1, run_bind in H.
    destruct (map_run _ files st1) as [[items' st2|e]|] eqn:Hrest; [|done..].
    injection H as <- <-. constructor; [by exists body|]. by eapply IH.
Qed.

(** The files of a bucket and the items [tagged] returns for them. *)
Lemma tagged_items {collate : Js.Collation} (index : SourceIndex) (cf : string → Run string)
    (tagName : string) (st st' : CompilerState) (items : list Element) :
  tagged index cf tagName st = Some (Return items st') →
  Forall2 (λ f item, ∃ body, item = element_of f body)
    (sortSourceFiles (default [] (idx_tags index !! tagName))) items.
Proof.
  unfold tagged, mbind at 1, run_bind, modify.
  destruct (idx_tags index !! tagName) as [[|f files]|]; simpl.
  - intros [= <- _]. constructor.
  - apply map_run_elements.
  - intros [= <- _]. constructor.
Qed.

(** C8, as stated, fails: a file without title whose compiler metadata has
    a description gets the name of the file as title, not the description. *)
Lemma C8_counterexample :
  ∃ item st,
    tagged Demo.kb_index (λ _, mret "text") "kb" cleared = Some (Return [item] st) ∧
    el_title item = VStr "intro" ∧
    spec_title Demo.kb_file = VStr "About".
Proof. eexists _, _. split_and!; vm_compute; reflexivity. Qed.

(** C8, amended. Every item of the tag iteration comes from a file of the
    bucket; its title is the pass-through title of the file when there is
    one, and the name of the file without [.md] otherwise, whatever the
    description in the compiler metadata. The description of the item is
    the one that falls back to the compiler metadata. *)
Theorem C8_item_title_falls_back_to_file_name {collate : Js.Collation}
    (index : SourceIndex) (cf : string → Run string) (tagName : string)
    (st st' : CompilerState) (items : list Element) (item : Element) :
  tagged index cf tagName st = Some (Return items st') →
  item ∈ items →
  ∃ f, f ∈ default [] (idx_tags index !! tagName) ∧
       el_path item = sf_path f ∧
       (∀ title, get "title" (sf_frontmatter f) = Some title → title ≠ VNull →
                 el_title item = title) ∧
       (get "title" (sf_frontmatter f) = None ∨
        get "title" (sf_frontmatter f) = Some VNull →
        el_title item = VStr (NodePath.basename (sf_path f) ".md")) ∧
       el_description item
       = nullish (get "description" (sf_frontmatter f))
           (VStr (default "" (im_description (sf_instrux f)))).
Proof.
  intros Hrun Hitem. apply tagged_items in Hrun.
  apply list_elem_of_lookup in Hitem as [i Hi].
  destruct (Forall2_lookup_r _ _ _ _ _ Hrun Hi) as (f & Hf & body & ->).
  exists f. split_and!.
  - apply list_elem_of_lookup_2 in Hf. by rewrite sortSourceFiles_perm in Hf.
  - done.
  - intros title Ht Hnull. simpl. rewrite Ht. by destruct title.
  - intros [Ht|Ht]; simpl; by rewrite Ht.
  - done.
Qed.

Lemma C8_witness :
  ∃ f, f ∈ [Demo.kb_file] ∧
       el_title (element_of Demo.kb_file "text")
       = VStr (NodePath.basename (sf_path f) ".md").
Proof.
  edestruct (C8_item_title_falls_back_to_file_name Demo.kb_index (λ _, mret "text")
               "kb" cleared) as (f & Hf & _ & _ & Htitle & _).
  - vm_compute. reflexivity.
  - apply list_elem_of_here.
  - exists f. split; [exact Hf|]. apply Htitle.
    set_unfold in Hf. destruct Hf as [->|[]]. by left.
Defined.

(** ** Termination *)

(** C2. [compileFile] finishes on every path, in every state, for every
    index and every set of files on disk: a budget above the number of
    paths the index and the disk hold is enough, and gives a returned text
    or a thrown error. (The nesting of the calls is bounded by the number of
    known paths that are not on the stack; a closed set of paths that holds
    the entry bounds it as well, see [compileFile_terminates_within].) *)
Theorem C2_compileFile_terminates {collate : Js.Collation}
    (matter : string → Frontmatter * string)
    (hbs_parse : string → option (list node)) (config : AgentConfig)
    (disk : gmap string string) (index : SourceIndex)
    (relPath : string) (st : CompilerState) :
  ∃ r : Outcome string,
    ∀ fuel, (size (known disk index) < fuel)%nat →
      compileFile matter hbs_parse config disk index fuel relPath st = Some r.
Proof.
  apply compileFile_terminates_within; [apply known_closed|done].
Qed.

(** ** Cycle detection *)

Section Cycles.

(** The collation of the host. *)
Context {collate : Js.Collation}.

Variable matter : string → Frontmatter * string.
Variable hbs_parse : string → option (list node).
Variable config : AgentConfig.
Variable disk : gmap string string.
Variable index : SourceIndex.

Local Abbreviation compileFile' := (compileFile matter hbs_parse config disk index).
Local Abbreviation template_of' := (template_of matter hbs_parse disk index).
Local Abbreviation cycle_error' := (cycle_error matter hbs_parse disk index).
Local Abbreviation renders_under' := (renders_under matter hbs_parse config disk index).
Local Abbreviation normalise := Js.replace_backslashes.

Lemma cycle_error_outcome (fuel : nat) (p : string) (st : CompilerState)
    (e : CompileError) :
  compileFile' fuel p st = Some (Throw e) → cycle_error' (compileStack st) p e.
Proof.
  intros H.
  apply (compileFile_outcome matter hbs_parse config disk index cycle_error'
           (known disk index) fuel p st (Throw e)); [..|apply known_closed|done|done].
  - intros stack q Hq chain [= <-] Hnd. exists [], (normalise q).
    rewrite !app_nil_r. split_and!; [done|done|done|done|constructor].
  - by intros stack q _ _ chain.
  - by intros stack q _ _ _ chain.
  - intros stack q template q' e' Hq Ht Hq' He chain -> Hnd.
    destruct (He chain eq_refl) as (ext & last & -> & Hlast & Hnd' & Hhead & Hchain).
    { apply NoDup_app. split_and!; [done| |apply NoDup_singleton].
      intros x Hx ->%list_elem_of_singleton. done. }
    exists (normalise q :: ext), last. rewrite <- !app_assoc in *. simpl in *.
    split_and!; [done|done|done|done|].
    destruct (ext ++ [last]) as [|y l] eqn:Hl; [by destruct ext|].
    injection Hhead as ->. constructor; [|done]. by exists template, q'.
Qed.

Lemma stack_push_fresh (x : string) (st : CompilerState) :
  x ∉ compileStack st → compileStack (push_file x st) = compileStack st ++ [x].
Proof. intros H. simpl. by apply set_add_fresh. Qed.

(** Rendering leaves the compile stack as it found it. *)
Lemma render_returns_stack (fuel : nat) (meta : Frontmatter) (this : option Element)
    (ns : list node) (st st' : CompilerState) (text : string) :
  render config index (compileFile' fuel) meta this ns st = Some (Return text st') →
  compileStack st' = compileStack st.
Proof.
  intros H.
  set (big := (fuel `max` size (known disk index))%nat).
  destruct (triple_render config index (compileFile' (S big)) meta
              (λ s, compileStack s = compileStack st) (λ _ _, True) ns this)
    with (st := st) as (r & Hr & Hpost); [done| |done|].
  - intros q _.
    apply (compileFile_triple matter hbs_parse config disk index (λ _ _ _, True)
             ltac:(done) ltac:(done) ltac:(done) ltac:(done)
             (known disk index) ltac:(apply known_closed)); [done|].
    pose proof (room_le (known disk index) (compileStack st)). lia.
  - apply (refines_render config index (compileFile' fuel) (compileFile' (S big))) in H.
    + rewrite H in Hr. by injection Hr as <-.
    + intros q. apply compileFile_mono. lia.
Qed.

(** Rendering the nodes in front, then the rest. *)
Lemma render_app (cf : string → Run string) (meta : Frontmatter)
    (this : option Element) (pre ns : list node) (st : CompilerState) :
  render config index cf meta this (pre ++ ns) st
  = match render config index cf meta this pre st with
    | Some (Return a st') =>
        match render config index cf meta this ns st' with
        | Some (Return b st'') => Some (Return (a +:+ b) st'')
        | r => r
        end
    | r => r
    end.
Proof.
  revert st. induction pre as [|n pre IH]; intros st.
  - change (render config index cf meta this [] st) with (Some (Return "" st)).
    cbv beta iota. by destruct (render _ _ _ _ _ _ _) as [[b st'|e]|].
  - change ((n :: pre) ++ ns) with (n :: (pre ++ ns)).
    rewrite !render_cons. unfold mbind, run_bind, mret, run_ret.
    destruct (render_node _ _ _ _ _ n st) as [[a st1|e]|]; [|done..].
    rewrite IH.
    destruct (render _ _ _ _ _ pre st1) as [[b st2|e]|]; [|done..].
    destruct (render _ _ _ _ _ ns st2) as [[c st3|e]|]; [|done..].
    by rewrite string_app_assoc.
Qed.

(** Nodes that render under a stack render in every state with that stack,
    for every larger budget. *)
Lemma renders_under_at (stack : list string) (x : string) (pre : list node) :
  renders_under' stack x pre →
  ∃ fuel0 text, ∀ fuel st, (fuel0 ≤ fuel)%nat → compileStack st = stack →
    ∃ st', render config index (compileFile' fuel)
             (from_option sf_frontmatter [] (idx_paths index !! x)) None pre st
           = Some (Return text st') ∧
           compileStack st' = stack.
Proof.
  intros (fuel0 & st0 & text & st0' & Hstack & Hrun).
  exists fuel0, text. intros fuel st Hfuel Hst.
  apply (refines_render config index (compileFile' fuel0) (compileFile' fuel)) in Hrun;
    [|intros q; by apply compileFile_mono].
  pose proof (render_returns_stack _ _ _ _ _ _ _ Hrun) as Hstack'.
  pose proof (stack_only_render config index
                (compileFile' fuel)
                (from_option sf_frontmatter [] (idx_paths index !! x)) pre None
                (stack_only_compileFile matter hbs_parse config disk index fuel)
                st0 st ltac:(by rewrite Hst)) as Hagree.
  rewrite Hrun in Hagree.
  destruct (render _ _ _ _ _ _ st) as [[text' st'|e]|]; [|done..].
  destruct Hagree as [<- Hs]. exists st'. split; [done|]. by rewrite <- Hs, Hstack'.
Qed.

Lemma plain_renders_under (stack : list string) (x : string) (pre : list node) :
  Forall plain pre → renders_under' stack x pre.
Proof.
  intros Hpre.
  exists 0%nat, {| compileStack := stack; compiledFiles := []; tagsUsed := [] |}.
  eexists _, _. split; [done|]. by apply render_plain.
Qed.

(** A file whose template reaches an inclusion that throws. *)
Lemma compileFile_reached_include_throws (fuel : nat) (p q : string)
    (pre rest : list node) (st st1 : CompilerState) (text : string) (e : CompileError) :
  normalise p ∉ compileStack st →
  template_of' (normalise p) = Some (pre ++ NFile q :: rest) →
  render config index (compileFile' fuel)
    (from_option sf_frontmatter [] (idx_paths index !! normalise p)) None pre
    (push_file (normalise p) st) = Some (Return text st1) →
  compileFile' fuel q st1 = Some (Throw e) →
  compileFile' (S fuel) p st = Some (Throw e).
Proof.
  intros Hout Ht Hpre Hq. rewrite compileFile_unfold; [|done]. rewrite Ht.
  rewrite render_app, Hpre, render_cons. unfold mbind at 1, run_bind.
  change (render_node config index (compileFile' fuel) _ None (NFile q) st1)
    with (compileFile' fuel q st1).
  by rewrite Hq.
Qed.

(** The outcome of a call is the same for every budget that gives one. *)
Lemma compileFile_outcome_unique (fuel1 fuel2 : nat) (p : string) (st : CompilerState)
    (r1 r2 : Outcome string) :
  compileFile' fuel1 p st = Some r1 → compileFile' fuel2 p st = Some r2 → r1 = r2.
Proof.
  intros H1 H2.
  apply (compileFile_mono _ _ _ _ _ fuel1 (fuel1 `max` fuel2)) in H1; [|lia].
  apply (compileFile_mono _ _ _ _ _ fuel2 (fuel1 `max` fuel2)) in H2; [|lia].
  rewrite H1 in H2. by injection H2.
Qed.

(** Two files that include each other. *)
Lemma mutual_inclusion_throws (A B entryA toA toB : string)
    (preA restA preB restB : list node) :
  normalise entryA = A → normalise toA = A → normalise toB = B → A ≠ B →
  template_of' A = Some (preA ++ NFile toB :: restA) →
  renders_under' [A] A preA →
  template_of' B = Some (preB ++ NFile toA :: restB) →
  renders_under' [A; B] B preB →
  ∃ fuel, compileFile' fuel entryA cleared
          = Some (Throw (CircularReference [A; B; A])).
Proof.
  intros HeA HtoA HtoB Hne HtA HpreA HtB HpreB.
  apply renders_under_at in HpreA as (fa & ta & HpreA).
  apply renders_under_at in HpreB as (fb & tb & HpreB).
  set (fuel := (fa `max` fb)%nat). exists (S (S (S fuel))).
  destruct (HpreA (S (S fuel)) (push_file A cleared)) as (s1 & Hr1 & Hs1);
    [lia|by rewrite stack_push_fresh; [|apply not_elem_of_nil]|].
  assert (B ∉ compileStack s1) as HB
    by (rewrite Hs1; by intros ->%list_elem_of_singleton).
  destruct (HpreB (S fuel) (push_file B s1)) as (s2 & Hr2 & Hs2);
    [lia|by rewrite stack_push_fresh, Hs1|].
  apply (compileFile_reached_include_throws _ entryA toB preA restA _ s1 ta);
    rewrite ?HeA; [apply not_elem_of_nil|done|done|].
  apply (compileFile_reached_include_throws _ toB toA preB restB _ s2 tb);
    rewrite ?HtoB; [done|done|done|].
  rewrite compileFile_circular; rewrite HtoA, Hs2; [done|set_solver].
Qed.

(** A file that includes itself. *)
Lemma self_inclusion_throws (C entryC toC : string) (preC restC : list node) :
  normalise entryC = C → normalise toC = C →
  template_of' C = Some (preC ++ NFile toC :: restC) →
  renders_under' [C] C preC →
  ∃ fuel, compileFile' fuel entryC cleared
          = Some (Throw (CircularReference [C; C])).
Proof.
  intros HeC HtoC HtC HpreC.
  apply renders_under_at in HpreC as (fc & tc & HpreC).
  exists (S (S fc)).
  destruct (HpreC (S fc) (push_file C cleared)) as (s1 & Hr1 & Hs1);
    [lia|by rewrite stack_push_fresh; [|apply not_elem_of_nil]|].
  apply (compileFile_reached_include_throws _ entryC toC preC restC _ s1 tc);
    rewrite ?HeC; [apply not_elem_of_nil|done|done|].
  rewrite compileFile_circular; rewrite HtoC, Hs1; [done|set_solver].
Qed.

End Cycles.



(** ** Where the content comes from *)

Section Content.

(** The collation of the host. *)
Context {collate : Js.Collation}.

Variable matter : string → Frontmatter * string.
Variable hbs_parse : string → option (list node).
Variable config : AgentConfig.
Variable disk : gmap string string.
Variable index : SourceIndex.

Local Abbreviation compileFile' := (compileFile matter hbs_parse config disk index).
Local Abbreviation compile_content' := (compile_content matter hbs_parse config disk index).
Local Abbreviation normalise := Js.replace_backslashes.

(** A path of the index is compiled from the content and with the
    frontmatter the index holds. *)
Lemma compileFile_indexed (fuel : nat) (p : string) (st : CompilerState) (f : SourceFile) :
  normalise p ∉ compileStack st →
  idx_paths index !! normalise p = Some f →
  compileFile' (S fuel) p st
  = compile_content' fuel (normalise p) (sf_content f) (sf_frontmatter f) st.
Proof.
  intros Hout Hi. rewrite compileFile_unfold; [|done].
  unfold template_of, read_content, compile_content. rewrite Hi. simpl.
  by destruct (hbs_parse (sf_content f)).
Qed.

(** A path outside the index is compiled from the body of the file on disk,
    with an empty [meta]. *)
Lemma compileFile_from_disk (fuel : nat) (p : string) (st : CompilerState) (raw : string) :
  normalise p ∉ compileStack st →
  idx_paths index !! normalise p = None →
  disk !! normalise p = Some raw →
  compileFile' (S fuel) p st
  = compile_content' fuel (normalise p) (matter raw).2 [] st.
Proof.
  intros Hout Hi Hd. rewrite compileFile_unfold; [|done].
  unfold template_of, read_content, compile_content. rewrite Hi, Hd. simpl.
  by destruct (hbs_parse (matter raw).2).
Qed.

Lemma compileFile_missing (fuel : nat) (p : string) (st : CompilerState) :
  normalise p ∉ compileStack st →
  idx_paths index !! normalise p = None →
  disk !! normalise p = None →
  compileFile' (S fuel) p st = Some (Throw (FileNotFound (normalise p))).
Proof.
  intros Hout Hi Hd. rewrite compileFile_unfold; [|done].
  unfold template_of, read_content. by rewrite Hi, Hd.
Qed.

(** A file-not-found error names a path that neither the index nor the disk
    holds. *)
Lemma FileNotFound_absent (fuel : nat) (p q : string) (st : CompilerState) :
  compileFile' fuel p st = Some (Throw (FileNotFound q)) →
  idx_paths index !! q = None ∧ disk !! q = None.
Proof.
  intros H.
  apply (compileFile_outcome matter hbs_parse config disk index
           (λ _ _ e, ∀ q, e = FileNotFound q →
                          idx_paths index !! q = None ∧ disk !! q = None)
           (known disk index) fuel p st (Throw (FileNotFound q)));
    [..|apply known_closed|done|done|done].
  - by intros stack p' _ q'.
  - intros stack p' _ Hc q' [= <-]. unfold read_content in Hc.
    destruct (idx_paths index !! normalise p'); [done|].
    by destruct (disk !! normalise p').
  - by intros stack p' _ _ _ q'.
  - by intros stack p' template q' e _ _ _ He.
Qed.

End Content.

(** C6. Compiling a path that is not on the compile stack takes the content
    and the frontmatter of the indexed file when the index holds the path;
    otherwise the body of the file read from disk, through gray-matter; and
    it throws the file-not-found error naming the path exactly when neither
    the index nor the disk holds it. Any file-not-found error the call
    throws names a path absent from both. *)
Theorem C6_content_from_index_then_disk {collate : Js.Collation}
    (matter : string → Frontmatter * string)
    (hbs_parse : string → option (list node)) (config : AgentConfig)
    (disk : gmap string string) (index : SourceIndex)
    (fuel : nat) (relPath : string) (st : CompilerState) :
  Js.replace_backslashes relPath ∉ compileStack st →
  let normalised := Js.replace_backslashes relPath in
  (∀ f, idx_paths index !! normalised = Some f →
        compileFile matter hbs_parse config disk index (S fuel) relPath st
        = compile_content matter hbs_parse config disk index fuel normalised
            (sf_content f) (sf_frontmatter f) st) ∧
  (∀ raw, idx_paths index !! normalised = None → disk !! normalised = Some raw →
          compileFile matter hbs_parse config disk index (S fuel) relPath st
          = compile_content matter hbs_parse config disk index fuel normalised
              (matter raw).2 [] st) ∧
  (compileFile matter hbs_parse config disk index (S fuel) relPath st
   = Some (Throw (FileNotFound normalised))
   ↔ idx_paths index !! normalised = None ∧ disk !! normalised = None) ∧
  (∀ q, compileFile matter hbs_parse config disk index (S fuel) relPath st
        = Some (Throw (FileNotFound q)) →
        idx_paths index !! q = None ∧ disk !! q = None).
Proof.
  intros Hout normalised. split_and!.
  - intros f. by apply compileFile_indexed.
  - intros raw. by apply compileFile_from_disk.
  - split; [apply FileNotFound_absent|].
    intros [Hi Hd]. by apply compileFile_missing.
  - intros q. apply FileNotFound_absent.
Qed.

Lemma C6_witness :
  compileFile Demo.matter Demo.hbs_parse (Demo.config "agents/list.md" strip)
    Demo.disk Demo.index 1 "nope.md" cleared
  = Some (Throw (FileNotFound "nope.md")).
Proof.
  destruct (C6_content_from_index_then_disk Demo.matter Demo.hbs_parse
              (Demo.config "agents/list.md" strip) Demo.disk Demo.index
              0 "nope.md" cleared) as (_ & _ & [_ H] & _).
  - simpl. apply not_elem_of_nil.
  - apply H. split; vm_compute; reflexivity.
Defined.




(** ** Buckets of the tag index *)

Section Buckets.

Variable matter : string → Frontmatter * string.

Lemma index_tags_bucket (sourceFile : SourceFile) (tag_list : list string)
    (tags : gmap string (list SourceFile)) (tagName : string) :
  default [] (index_tags sourceFile tag_list tags !! tagName)
  = default [] (tags !! tagName)
    ++ replicate (occurrences tagName tag_list) sourceFile.
Proof.
  unfold index_tags, occurrences. revert tags.
  induction tag_list as [|tag tag_list IH]; intros tags; simpl.
  - by rewrite app_nil_r.
  - rewrite IH. destruct (decide (tag = tagName)) as [->|Hne].
    + rewrite lookup_insert_eq, filter_cons_True; [|done]. simpl.
      by rewrite <- app_assoc.
    + rewrite lookup_insert_ne, filter_cons_False; done.
Qed.

Lemma index_file_bucket (idx : SourceIndex) (m : string * string) (tagName : string) :
  default [] (idx_tags (index_file matter idx m) !! tagName)
  = default [] (idx_tags idx !! tagName)
    ++ replicate (occurrences tagName (tags_of (source_file_of matter m)))
         (source_file_of matter m).
Proof.
  unfold index_file, source_file_of, tags_of. destruct m as [relPath raw].
  cbn [fst snd]. destruct (matter raw) as [frontmatter content].
  cbn [fst snd sf_instrux idx_tags]. generalize (instrux_of frontmatter) as instrux.
  intros instrux. destruct (im_tags instrux) as [tag_list|]; cbn [default from_option].
  - apply index_tags_bucket.
  - by rewrite app_nil_r.
Qed.

Lemma fold_index_file_bucket (matched : list (string * string)) (idx : SourceIndex)
    (tagName : string) :
  default [] (idx_tags (fold_left (index_file matter) matched idx) !! tagName)
  = default [] (idx_tags idx !! tagName)
    ++ ((source_file_of matter <$> matched) ≫=
          λ f, replicate (occurrences tagName (tags_of f)) f).
Proof.
  revert idx. induction matched as [|m matched IH]; intros idx; simpl.
  - by rewrite app_nil_r.
  - rewrite IH, index_file_bucket. by rewrite <- app_assoc.
Qed.

(** The bucket of a tag: the files in the order of the scan, each as many
    times as the tag occurs in its list of tags. *)
Lemma buildSourceIndex_bucket (matched : list (string * string)) (tagName : string) :
  default [] (idx_tags (buildSourceIndex matter matched) !! tagName)
  = (source_file_of matter <$> matched) ≫=
      λ f, replicate (occurrences tagName (tags_of f)) f.
Proof. unfold buildSourceIndex. by rewrite fold_index_file_bucket. Qed.

End Buckets.

(** A call that returns leaves the compile stack as it found it. *)
Lemma compileFile_returns_stack {collate : Js.Collation}
    (matter : string → Frontmatter * string)
    (hbs_parse : string → option (list node)) (config : AgentConfig)
    (disk : gmap string string) (index : SourceIndex)
    (fuel : nat) (p : string) (st st' : CompilerState) (out : string) :
  compileFile matter hbs_parse config disk index fuel p st = Some (Return out st') →
  compileStack st' = compileStack st.
Proof.
  intros H.
  by apply (compileFile_outcome matter hbs_parse config disk index (λ _ _ _, True)
              (known disk index) fuel p st (Return out st'));
    [..|apply known_closed|done|done].
Qed.

(** Runs that each return from one state, depend on the stack only and
    leave the stack as it was, return the same values in sequence. *)
Lemma map_run_each {X Y : Type} (f : X → Run Y) (xs : list X) (ys : list Y)
    (st0 st : CompilerState) :
  (∀ x, stack_only (f x)) →
  (∀ x s y s', f x s = Some (Return y s') → compileStack s' = compileStack s) →
  compileStack st = compileStack st0 →
  Forall2 (λ x y, ∃ st', f x st0 = Some (Return y st')) xs ys →
  ∃ st', map_run f xs st = Some (Return ys st') ∧
         compileStack st' = compileStack st0.
Proof.
  intros Hso Hrestore Hs Hall. revert st Hs.
  induction Hall as [|x y xs ys [st0' Hx] _ IH]; intros st Hs; simpl.
  - by exists st.
  - pose proof (Hso x st0 st (eq_sym Hs)) as Hagree.
    rewrite Hx in Hagree. unfold mbind at 1, run_bind.
    destruct (f x st) as [[y' st1|e]|] eqn:Hrun; [|done..].
    destruct Hagree as [<- _].
    destruct (IH st1) as (st' & Hrest & Hs').
    { rewrite (Hrestore _ _ _ _ Hrun). done. }
    exists st'. unfold mbind at 1, run_bind. by rewrite Hrest.
Qed.

(** C10. The index puts a file in the bucket of a tag once per occurrence
    of the tag in the list of tags of the file. Include-by-tag and the tag
    iteration render every entry of the bucket, the repeated ones as often
    as they are repeated: when the files of the sorted bucket each compile,
    include-by-tag gives one text per entry, joined by the separator, and
    the iteration one item per entry; entries of one path have one text.
    No circular reference is thrown, the stack being popped between the
    calls. *)
Theorem C10_duplicate_tag_repeats_file {collate : Js.Collation}
    (matter : string → Frontmatter * string)
    (hbs_parse : string → option (list node)) (config : AgentConfig)
    (disk : gmap string string) (index : SourceIndex)
    (matched : list (string * string)) (tagName : string)
    (files : list SourceFile) (outs : list string)
    (fuel : nat) (st : CompilerState) :
  Forall (λ m, typed_tags (matter m.2).1) matched →
  idx_tags index !! tagName = Some files →
  Forall2 (λ f out, ∃ st', compileFile matter hbs_parse config disk index fuel
                             (sf_path f) st = Some (Return out st'))
    (sortSourceFiles files) outs →
  (∀ t, default [] (idx_tags (buildSourceIndex matter matched) !! t)
        = (source_file_of matter <$> matched) ≫=
            λ g, replicate (occurrences t (tags_of g)) g) ∧
  sortSourceFiles files ≡ₚ files ∧
  length outs = length files ∧
  (∀ i j f g, sortSourceFiles files !! i = Some f →
              sortSourceFiles files !! j = Some g →
              sf_path f = sf_path g → outs !! i = outs !! j) ∧
  (∃ st', tag config index (compileFile matter hbs_parse config disk index fuel)
            tagName st
          = Some (Return (Js.join (sep config) outs) st')) ∧
  (∃ st', tagged index (compileFile matter hbs_parse config disk index fuel)
            tagName st
          = Some (Return (zip_with element_of (sortSourceFiles files) outs) st')).
Proof.
  intros _ Hbucket Hall. split_and!.
  - intros t. apply buildSourceIndex_bucket.
  - apply sortSourceFiles_perm.
  - rewrite <- (Forall2_length _ _ _ Hall). by rewrite sortSourceFiles_perm.
  - intros i j f g Hi Hj Hpath.
    destruct (Forall2_lookup_l _ _ _ _ _ Hall Hi) as (a & Ha & sa & Hfa).
    destruct (Forall2_lookup_l _ _ _ _ _ Hall Hj) as (b & Hb & sb & Hgb).
    rewrite Hpath, Hgb in Hfa. injection Hfa as <- _. by rewrite Ha, Hb.
  - destruct (map_run_each
                (λ g, compileFile matter hbs_parse config disk index fuel (sf_path g))
                (sortSourceFiles files) outs st (use_tag tagName st))
      as (st' & Hrun & _); [|  |done|done|].
    { intros g. apply stack_only_compileFile. }
    { intros g s y s'. apply compileFile_returns_stack. }
    unfold tag, mbind at 1, run_bind, modify. rewrite Hbucket.
    destruct files as [|f files].
    + apply Forall2_nil_inv_l in Hall as ->. by eexists.
    + exists st'. unfold mbind at 1, run_bind. by rewrite Hrun.
  - destruct (map_run_each
                (λ g, body ← compileFile matter hbs_parse config disk index fuel
                               (sf_path g);
                      mret (element_of g body))
                (sortSourceFiles files)
                (zip_with element_of (sortSourceFiles files) outs)
                st (use_tag tagName st))
      as (st' & Hrun & _); [| |done| |].
    { intros g. apply stack_only_bind; [apply stack_only_compileFile|].
      intros body. apply stack_only_ret. }
    { intros g s y s'. unfold mbind, run_bind.
      destruct (compileFile _ _ _ _ _ _ _ s) as [[body s1|e]|] eqn:Hg; [|done..].
      intros [= _ <-]. by eapply compileFile_returns_stack. }
    { clear Hbucket. induction Hall as [|f out fs os [sf Hf] _ IH]; [constructor|].
      cbn [zip_with]. constructor; [|exact IH].
      exists sf. unfold mbind, run_bind. by rewrite Hf. }
    unfold tagged, mbind at 1, run_bind, modify. rewrite Hbucket.
    destruct files as [|f files].
    + apply Forall2_nil_inv_l in Hall as ->. by eexists.
    + by exists st'.
Qed.

Lemma C10_witness :
  occurrences "x" (tags_of (source_file_of Demo.matter ("agents/twice.md", Demo.raw_twice)))
  = 2%nat ∧
  ∃ st', tag (Demo.config "agents/list.md" strip) Demo.index
           (compileFile Demo.matter Demo.hbs_parse (Demo.config "agents/list.md" strip)
              Demo.disk Demo.index 1)
           "x" cleared
         = Some (Return ("twice" +:+ Js.newline +:+ Js.newline +:+ "twice") st').
Proof.
  split; [reflexivity|].
  edestruct (C10_duplicate_tag_repeats_file Demo.matter Demo.hbs_parse
               (Demo.config "agents/list.md" strip) Demo.disk Demo.index Demo.matched
               "x"
               (replicate 2 (source_file_of Demo.matter
                               ("agents/twice.md", Demo.raw_twice)))
               ["twice"; "twice"] 1 cleared) as (_ & _ & _ & _ & Htag & _).
  - vm_compute. repeat constructor; by eexists.
  - vm_compute. reflexivity.
  - constructor; [|constructor; [|constructor]]; eexists; vm_compute; reflexivity.
  - exact Htag.
Defined.

(** ** Pass-through metadata *)

Lemma get_stripInstruxMeta (key : string) (frontmatter : Frontmatter) :
  key ≠ "instrux" → get key (stripInstruxMeta frontmatter) = get key frontmatter.
Proof.
  intros Hkey. unfold stripInstruxMeta.
  induction frontmatter as [|[k v] frontmatter IH]; [done|].
  destruct (decide (k = "instrux")) as [->|Hk].
  - rewrite filter_cons_False; [|by intros []]. cbn [get].
    destruct (String.eqb_spec "instrux" key) as [<-|_]; done.
  - rewrite filter_cons_True; [|done]. cbn [get]. by rewrite IH.
Qed.

Lemma get_instrux_stripped (frontmatter : Frontmatter) :
  get "instrux" (stripInstruxMeta frontmatter) = None.
Proof.
  unfold stripInstruxMeta.
  induction frontmatter as [|[k v] frontmatter IH]; [done|].
  destruct (decide (k = "instrux")) as [->|Hk].
  - by rewrite filter_cons_False; [|by intros []].
  - rewrite filter_cons_True; [|done]. cbn [get].
    by destruct (String.eqb_spec k "instrux").
Qed.

(** C5, as stated, fails for an entry file outside the source patterns: it
    is compiled from disk, and in mode [preserve] the output has no metadata
    block, although the file has the pass-through field [title: X]. *)
Lemma C5_counterexample :
  idx_paths Demo.index !! "entry.md" = None ∧
  get "title" (Demo.matter Demo.raw_entry).1 = Some (VStr "X") ∧
  spec_metadata_block Demo.matter_stringify preserve (Demo.matter Demo.raw_entry).1
  = Demo.lines ["---"; "title: X"; "---"; ""; ""] ∧
  ∃ r, compile Demo.matter Demo.matter_stringify Demo.hbs_parse
         (Demo.config "entry.md" preserve) Demo.disk 1 Demo.matched = Some (inr r) ∧
       output r = "Hello " +:+ Js.newline.
Proof. split_and!; [..|eexists; split]; vm_compute; reflexivity. Qed.

(** C5, amended. For an entry file that the index holds, the pass-through
    metadata is the frontmatter without [instrux]: it keeps every other
    field, [title: X] among them, and has no [instrux] field, so none of
    the compiler-owned fields under it. In mode [preserve] the output is
    the serialised pass-through metadata, a blank line and the body when
    that metadata is not empty, and the body alone when it is empty; in
    mode [strip], the default, it is the body alone. For an entry file that
    the index does not hold, which is compiled from disk, the output is the
    body alone in every mode. (A newline is added when the text lacks
    one.) *)
Theorem C5_pass_through_metadata_of_entry {collate : Js.Collation}
    (matter : string → Frontmatter * string) (matter_stringify : Frontmatter → string)
    (hbs_parse : string → option (list node)) (config : AgentConfig)
    (disk : gmap string string) (fuel : nat) (matched : list (string * string))
    (entry pattern : string) (patterns : list string)
    (body : string) (st : CompilerState) :
  cfg_entry config = Some entry →
  entry ≠ "" →
  cfg_sources config = Some (pattern :: patterns) →
  compileFile matter hbs_parse config disk (buildSourceIndex matter matched) fuel
    (Js.replace_backslashes entry) cleared = Some (Return body st) →
  ∃ r,
    compile matter matter_stringify hbs_parse config disk fuel matched = Some (inr r) ∧
    (∀ entrySource,
       idx_paths (buildSourceIndex matter matched) !! Js.replace_backslashes entry
       = Some entrySource →
       let passthrough := stripInstruxMeta (sf_frontmatter entrySource) in
       (∀ key, key ≠ "instrux" →
               get key passthrough = get key (sf_frontmatter entrySource)) ∧
       get "instrux" passthrough = None ∧
       (cfg_frontmatter config = Some preserve → passthrough ≠ [] →
        output r = ensure_trailing_newline
                     ((Js.trimEnd (matter_stringify passthrough)
                       +:+ Js.newline +:+ Js.newline) +:+ body)) ∧
       (cfg_frontmatter config = Some preserve → passthrough = [] →
        output r = ensure_trailing_newline body) ∧
       (cfg_frontmatter config = Some strip ∨ cfg_frontmatter config = None →
        output r = ensure_trailing_newline body)) ∧
    (idx_paths (buildSourceIndex matter matched) !! Js.replace_backslashes entry = None →
     output r = ensure_trailing_newline body).
Proof.
  intros He Hne Hs Hrun. eexists. split_and!.
  - unfold compile. rewrite He, Hs. destruct entry; [done|]. by rewrite Hrun.
  - intros entrySource Hi passthrough. split_and!.
    + intros key. apply get_stripInstruxMeta.
    + apply get_instrux_stripped.
    + intros Hmode Hpass. simpl. unfold assemble, frontmatter_block.
      rewrite Hmode, Hi. simpl. fold passthrough. by destruct passthrough.
    + intros Hmode Hpass. simpl. unfold assemble, frontmatter_block.
      rewrite Hmode, Hi. simpl. fold passthrough. by rewrite Hpass.
    + intros [Hmode|Hmode]; simpl; unfold assemble, frontmatter_block;
        by rewrite Hmode.
  - intros Hi. simpl. unfold assemble, frontmatter_block. rewrite Hi.
    by destruct (default strip (cfg_frontmatter config)).
Qed.

Lemma C5_witness :
  ∃ r, compile Demo.matter Demo.matter_stringify Demo.hbs_parse
         (Demo.config "agents/main.md" preserve) Demo.disk 1 Demo.matched
       = Some (inr r) ∧
       output r = Demo.lines ["---"; "title: X"; "---"; ""; "Hello"; ""].
Proof.
  edestruct (C5_pass_through_metadata_of_entry Demo.matter
               Demo.matter_stringify Demo.hbs_parse
               (Demo.config "agents/main.md" preserve) Demo.disk 1 Demo.matched
               "agents/main.md" "agents/**/*.md" [])
    as (r & Hr & Hindexed & _).
  - reflexivity.
  - discriminate.
  - reflexivity.
  - vm_compute. reflexivity.
  - exists r. split; [exact Hr|].
    edestruct Hindexed as (_ & _ & Hout & _); [vm_compute; reflexivity|].
    rewrite Hout; [vm_compute; reflexivity|reflexivity|discriminate].
Defined.

(** * Further properties of the compiler *)

(** ** Invariants of the compiler state *)

Lemma elem_of_set_add (x y : string) (s : list string) :
  y ∈ Js.set_add x s ↔ y = x ∨ y ∈ s.
Proof.
  unfold Js.set_add. destruct (Js.set_has x s) eqn:H.
  - apply set_has_true in H. split; [by right|]. by intros [->|?].
  - rewrite elem_of_app, list_elem_of_singleton. tauto.
Qed.

Lemma NoDup_set_add (x : string) (s : list string) : NoDup s → NoDup (Js.set_add x s).
Proof.
  intros Hs. unfold Js.set_add. destruct (Js.set_has x s) eqn:H; [done|].
  apply set_has_false in H. apply NoDup_app. split_and!; [done| |apply NoDup_singleton].
  by intros y Hy ->%list_elem_of_singleton.
Qed.

Section Invariants.

(** The collation of the host. *)
Context {collate : Js.Collation}.

Variable matter : string → Frontmatter * string.
Variable hbs_parse : string → option (list node).
Variable config : AgentConfig.
Variable disk : gmap string string.
Variable index : SourceIndex.

Local Abbreviation compileFile' := (compileFile matter hbs_parse config disk index).
Local Abbreviation template_of' := (template_of matter hbs_parse disk index).
Local Abbreviation normalise := Js.replace_backslashes.

(** A property [J] of the state that the three updates of the compiler
    keep: pushing a path that resolves, popping a path, recording a tag. *)
Variable J : CompilerState → Prop.
Hypothesis J_push : ∀ x st, x ∈ known disk index → J st → J (push_file x st).
Hypothesis J_pop : ∀ x st, J st → J (pop_file x st).
Hypothesis J_tag : ∀ t st, J st → J (use_tag t st).

Lemma compileFile_triple_inv (n : nat) (stack : list string) (p : string) :
  (room (known disk index) stack ≤ n)%nat →
  triple (λ st, compileStack st = stack ∧ J st) (compileFile' (S n) p)
         (λ _ st, compileStack st = stack ∧ J st) (λ _, True).
Proof using J_push J_pop J_tag.
  revert stack p. induction n as [|n IH]; intros stack p Hroom st [Hst HJ].
  all: destruct (decide (normalise p ∈ stack)) as [Hin|Hout];
    [rewrite compileFile_circular; [|by rewrite Hst]; by eexists|].
  all: rewrite compileFile_unfold; [|by rewrite Hst].
  all: destruct (template_of' (normalise p)) as [template|] eqn:Ht;
    [|destruct (read_content _ _ _ _); by eexists].
  all: pose proof Ht as Ht'; apply template_of_Some in Ht' as (content & Hc & _).
  all: pose proof (read_content_known _ _ _ _ _ Hc) as Hk.
  all: pose proof (room_push _ stack (normalise p) Hk Hout) as Hlt.
  - lia.
  - destruct (triple_render config index (compileFile' (S n))
                (from_option sf_frontmatter [] (idx_paths index !! normalise p))
                (λ st', compileStack st' = stack ++ [normalise p] ∧ J st')
                (λ _ _, True) template None)
      with (st := push_file (normalise p) st) as ([rendered st'|e] & Hr & Hpost).
    + intros t st' [? ?]. split; [done|]. by apply J_tag.
    + intros q _. apply IH. lia.
    + split; [|by apply J_push]. simpl. rewrite Hst. by apply set_add_fresh.
    + rewrite Hr. eexists. split; [done|]. destruct Hpost as [Hs HJ'].
      split; [|by apply J_pop]. simpl. rewrite Hs.
      rewrite <- (set_add_fresh _ _ Hout). by apply set_delete_add.
    + rewrite Hr. by eexists.
Qed.

(** A call that returns keeps [J]. *)
Lemma compileFile_keeps (fuel : nat) (p : string) (st st' : CompilerState) (out : string) :
  compileFile' fuel p st = Some (Return out st') → J st → J st'.
Proof using J_push J_pop J_tag.
  intros H HJ.
  set (big := (fuel `max` size (known disk index))%nat).
  destruct (compileFile_triple_inv big (compileStack st) p) with (st := st)
    as (r & Hr & Hpost); [|done|].
  - pose proof (room_le (known disk index) (compileStack st)). lia.
  - apply (compileFile_mono _ _ _ _ _ fuel (S big)) in H; [|lia].
    rewrite H in Hr. injection Hr as <-. by destruct Hpost.
Qed.

(** Rendering that returns keeps [J]. *)
Lemma render_keeps (fuel : nat) (meta : Frontmatter) (this : option Element)
    (ns : list node) (st st' : CompilerState) (text : string) :
  render config index (compileFile' fuel) meta this ns st = Some (Return text st') →
  J st → J st'.
Proof using J_push J_pop J_tag.
  intros H HJ.
  set (big := (fuel `max` size (known disk index))%nat).
  destruct (triple_render config index (compileFile' (S big)) meta
              (λ s, compileStack s = compileStack st ∧ J s) (λ _ _, True) ns this)
    with (st := st) as (r & Hr & Hpost); [| |done|].
  - intros t s [? ?]. split; [done|]. by apply J_tag.
  - intros q _. apply compileFile_triple_inv.
    pose proof (room_le (known disk index) (compileStack st)). lia.
  - apply (refines_render config index (compileFile' fuel) (compileFile' (S big))) in H.
    + rewrite H in Hr. injection Hr as <-. by destruct Hpost.
    + intros q. apply compileFile_mono. lia.
Qed.

End Invariants.

(** The path of a call that returns is among the compiled files. *)
Lemma compileFile_records_path {collate : Js.Collation}
    (matter : string → Frontmatter * string)
    (hbs_parse : string → option (list node)) (config : AgentConfig)
    (disk : gmap string string) (index : SourceIndex)
    (fuel : nat) (relPath : string) (st st' : CompilerState) (out : string) :
  compileFile matter hbs_parse config disk index fuel relPath st
  = Some (Return out st') →
  Js.replace_backslashes relPath ∈ compiledFiles st'.
Proof.
  intros H. destruct fuel as [|fuel]; [done|].
  destruct (decide (Js.replace_backslashes relPath ∈ compileStack st)) as [Hin|Hout].
  { by rewrite compileFile_circular in H. }
  rewrite compileFile_unfold in H; [|done].
  destruct (template_of _ _ _ _ _) as [template|];
    [|by destruct (read_content _ _ _ _)].
  destruct (render _ _ _ _ _ _ _) as [[rendered st1|e]|] eqn:Hr; [|done..].
  injection H as _ <-. simpl.
  apply (render_keeps matter hbs_parse config disk index
           (λ s, Js.replace_backslashes relPath ∈ compiledFiles s)) in Hr; try done.
  - intros x s _ Hx. simpl. apply elem_of_set_add. by right.
  - simpl. apply elem_of_set_add. by left.
Qed.

(** A call of [compileFile] that returns has popped what it pushed: the
    compile stack is the one it was entered with, and a compilation started
    from the cleared state ends with an empty stack. The two report sets
    only grow, and the path of the call is among the compiled files. *)
Theorem compileFile_restores_stack_and_records {collate : Js.Collation}
    (matter : string → Frontmatter * string)
    (hbs_parse : string → option (list node)) (config : AgentConfig)
    (disk : gmap string string) (index : SourceIndex)
    (fuel : nat) (relPath : string) (st st' : CompilerState) (out : string) :
  compileFile matter hbs_parse config disk index fuel relPath st
  = Some (Return out st') →
  compileStack st' = compileStack st ∧
  (st = cleared → compileStack st' = []) ∧
  compiledFiles st ⊆ compiledFiles st' ∧
  tagsUsed st ⊆ tagsUsed st' ∧
  Js.replace_backslashes relPath ∈ compiledFiles st'.
Proof.
  intros H.
  pose proof (compileFile_returns_stack _ _ _ _ _ _ _ _ _ _ H) as Hs.
  split_and!.
  - done.
  - intros ->. by rewrite Hs.
  - apply (compileFile_keeps matter hbs_parse config disk index
             (λ s, compiledFiles st ⊆ compiledFiles s)) in H; try done.
    intros x s _ Hsub y Hy. simpl. apply elem_of_set_add. right. by apply Hsub.
  - apply (compileFile_keeps matter hbs_parse config disk index
             (λ s, tagsUsed st ⊆ tagsUsed s)) in H; try done.
    intros t s Hsub y Hy. simpl. apply elem_of_set_add. right. by apply Hsub.
  - by eapply compileFile_records_path.
Qed.

Lemma compileFile_restores_stack_and_records_witness :
  ∃ st', compileFile Demo.matter Demo.hbs_parse (Demo.config "agents/list.md" strip)
           Demo.disk Demo.index 2 "agents\list.md" cleared
         = Some (Return ("twice" +:+ Js.newline +:+ Js.newline +:+ "twice") st') ∧
         compileStack st' = [] ∧ "agents/list.md" ∈ compiledFiles st'.
Proof.
  eexists. split; [vm_compute; reflexivity|].
  edestruct (compileFile_restores_stack_and_records Demo.matter Demo.hbs_parse
               (Demo.config "agents/list.md" strip) Demo.disk Demo.index 2
               "agents\list.md" cleared) as (_ & Hs & _ & _ & Hin).
  - vm_compute. reflexivity.
  - split; [by apply Hs|exact Hin].
Defined.

(** The report sets stay free of duplicates, and every path a returning
    call adds to the compiled files resolves, in the index or on disk. *)
Theorem compileFile_compiled_files_distinct_and_known {collate : Js.Collation}
    (matter : string → Frontmatter * string)
    (hbs_parse : string → option (list node)) (config : AgentConfig)
    (disk : gmap string string) (index : SourceIndex)
    (fuel : nat) (relPath : string) (st st' : CompilerState) (out : string) :
  compileFile matter hbs_parse config disk index fuel relPath st
  = Some (Return out st') →
  NoDup (compiledFiles st) →
  NoDup (tagsUsed st) →
  NoDup (compiledFiles st') ∧
  NoDup (tagsUsed st') ∧
  (∀ x, x ∈ compiledFiles st' → x ∈ compiledFiles st ∨ x ∈ known disk index).
Proof.
  intros H Hc Ht.
  apply (compileFile_keeps matter hbs_parse config disk index
           (λ s, NoDup (compiledFiles s) ∧ NoDup (tagsUsed s) ∧
                 ∀ x, x ∈ compiledFiles s →
                      x ∈ compiledFiles st ∨ x ∈ known disk index)) in H; try done.
  - intros x s Hx (? & ? & Hk). simpl. split_and!; [by apply NoDup_set_add|done|].
    intros y [->|Hy]%elem_of_set_add; [by right|by apply Hk].
  - intros t s (? & ? & Hk). simpl. split_and!; [done|by apply NoDup_set_add|done].
  - split_and!; [done|done|]. intros x Hx. by left.
Qed.

Lemma compileFile_compiled_files_distinct_and_known_witness :
  ∃ st', compileFile Demo.matter Demo.hbs_parse (Demo.config "agents/list.md" strip)
           Demo.disk Demo.index 2 "agents/list.md" cleared
         = Some (Return ("twice" +:+ Js.newline +:+ Js.newline +:+ "twice") st') ∧
         NoDup (compiledFiles st').
Proof.
  eexists. split; [vm_compute; reflexivity|].
  edestruct (compileFile_compiled_files_distinct_and_known Demo.matter Demo.hbs_parse
               (Demo.config "agents/list.md" strip) Demo.disk Demo.index 2
               "agents/list.md" cleared) as (Hnd & _ & _).
  - vm_compute. reflexivity.
  - apply NoDup_nil_2.
  - apply NoDup_nil_2.
  - exact Hnd.
Defined.

(** ** Paths *)

Lemma replace_backslashes_idem (s : string) :
  Js.replace_backslashes (Js.replace_backslashes s) = Js.replace_backslashes s.
Proof.
  induction s as [|c s IH]; [done|]. cbn [Js.replace_backslashes]. rewrite IH.
  f_equal. destruct (Ascii.eqb_spec c "\"%char) as [->|Hc]; [done|].
  by destruct (Ascii.eqb_spec c "\"%char).
Qed.

(** [compileFile] sees a path through its normalisation only: a path and
    the same path written with backslashes compile alike, and normalising
    twice changes nothing. *)
Theorem compileFile_normalises_path {collate : Js.Collation}
    (matter : string → Frontmatter * string)
    (hbs_parse : string → option (list node)) (config : AgentConfig)
    (disk : gmap string string) (index : SourceIndex)
    (fuel : nat) (relPath : string) (st : CompilerState) :
  compileFile matter hbs_parse config disk index fuel relPath st
  = compileFile matter hbs_parse config disk index fuel
      (Js.replace_backslashes relPath) st.
Proof.
  destruct fuel as [|fuel]; [done|].
  destruct (decide (Js.replace_backslashes relPath ∈ compileStack st)) as [Hin|Hout].
  - rewrite !compileFile_circular; rewrite ?replace_backslashes_idem; done.
  - rewrite !compileFile_unfold; rewrite ?replace_backslashes_idem; done.
Qed.

(** ** What the text depends on *)

(** The text a call returns, or the error it throws, depends on the compile
    stack only: the files compiled so far and the tags used so far have no
    influence on it. *)
Theorem compileFile_ignores_report_sets {collate : Js.Collation}
    (matter : string → Frontmatter * string)
    (hbs_parse : string → option (list node)) (config : AgentConfig)
    (disk : gmap string string) (index : SourceIndex)
    (fuel : nat) (relPath : string) (st1 st2 : CompilerState) :
  compileStack st1 = compileStack st2 →
  (∀ out st1',
     compileFile matter hbs_parse config disk index fuel relPath st1
     = Some (Return out st1') →
     ∃ st2', compileFile matter hbs_parse config disk index fuel relPath st2
             = Some (Return out st2')) ∧
  (∀ e,
     compileFile matter hbs_parse config disk index fuel relPath st1
     = Some (Throw e) →
     compileFile matter hbs_parse config disk index fuel relPath st2
     = Some (Throw e)).
Proof.
  intros Hs.
  pose proof (stack_only_compileFile matter hbs_parse config disk index fuel relPath
                st1 st2 Hs) as Hagree.
  split.
  - intros out st1' H. rewrite H in Hagree.
    destruct (compileFile _ _ _ _ _ _ _ st2) as [[out' st2'|e]|]; [|done..].
    destruct Hagree as [<- _]. by exists st2'.
  - intros e H. rewrite H in Hagree.
    destruct (compileFile _ _ _ _ _ _ _ st2) as [[out' st2'|e']|]; [done| |done].
    by rewrite Hagree.
Qed.

Lemma compileFile_ignores_report_sets_witness :
  ∃ st', compileFile Demo.matter Demo.hbs_parse (Demo.config "agents/list.md" strip)
           Demo.disk Demo.index 2 "agents/list.md"
           {| compileStack := []; compiledFiles := ["agents/twice.md"; "other.md"];
              tagsUsed := ["x"; "y"] |}
         = Some (Return ("twice" +:+ Js.newline +:+ Js.newline +:+ "twice") st').
Proof.
  edestruct (compileFile_ignores_report_sets Demo.matter Demo.hbs_parse
               (Demo.config "agents/list.md" strip) Demo.disk Demo.index 2
               "agents/list.md" cleared
               {| compileStack := []; compiledFiles := ["agents/twice.md"; "other.md"];
                  tagsUsed := ["x"; "y"] |}) as [H _].
  - reflexivity.
  - eapply H. vm_compute. reflexivity.
Defined.

(** ** The errors of a compilation *)

(** [compileFile] throws neither of the configuration errors. *)
Lemma compileFile_no_configuration_error {collate : Js.Collation}
    (matter : string → Frontmatter * string)
    (hbs_parse : string → option (list node)) (config : AgentConfig)
    (disk : gmap string string) (index : SourceIndex)
    (fuel : nat) (relPath : string) (st : CompilerState) (e : CompileError) :
  compileFile matter hbs_parse config disk index fuel relPath st = Some (Throw e) →
  e ≠ NoEntry ∧ e ≠ NoSources.
Proof.
  intros H.
  apply (compileFile_outcome matter hbs_parse config disk index
           (λ _ _ e, e ≠ NoEntry ∧ e ≠ NoSources)
           (known disk index) fuel relPath st (Throw e));
    [done..|apply known_closed|done|done].
Qed.

(** ** [compile] *)

Lemma length_le_size (l : list string) (X : gset string) :
  NoDup l → (∀ x, x ∈ l → x ∈ X) → (length l ≤ size X)%nat.
Proof.
  intros Hnd Hsub. rewrite <- (size_list_to_set (C := gset string) l Hnd).
  apply subseteq_size. intros x Hx. apply Hsub. by apply elem_of_list_to_set in Hx.
Qed.

(** The configuration is checked first: [compile] throws the missing-entry
    error exactly when the entry is absent or empty, and the missing-sources
    error exactly when there is an entry and the list of source patterns is
    absent or empty; this for every recursion budget and whatever the files
    are. *)
Theorem compile_configuration_errors {collate : Js.Collation}
    (matter : string → Frontmatter * string) (matter_stringify : Frontmatter → string)
    (hbs_parse : string → option (list node)) (config : AgentConfig)
    (disk : gmap string string) (fuel : nat) (matched : list (string * string)) :
  (compile matter matter_stringify hbs_parse config disk fuel matched
   = Some (inl NoEntry)
   ↔ cfg_entry config = None ∨ cfg_entry config = Some "") ∧
  (compile matter matter_stringify hbs_parse config disk fuel matched
   = Some (inl NoSources)
   ↔ (∃ entry, cfg_entry config = Some entry ∧ entry ≠ "") ∧
     (cfg_sources config = None ∨ cfg_sources config = Some [])).
Proof.
  unfold compile.
  destruct (cfg_entry config) as [[|c entry]|].
  - split; [by split; [|intros _]; auto|].
    split; [done|]. by intros [(entry & [= <-] & ?) _].
  - destruct (cfg_sources config) as [[|pattern patterns]|].
    + split; [by split; [|intros [|]]|]. split; [|done].
      intros _. split; [by eexists|by right].
    + destruct (compileFile _ _ _ _ _ _ _ _) as [[body st|e]|] eqn:Hrun.
      * split; (split; [done|]); [by intros [|]|by intros [_ [|]]].
      * destruct (compileFile_no_configuration_error _ _ _ _ _ _ _ _ _ Hrun)
          as [Hentry Hsources].
        split; (split; [intros [= ->]; done|]); [by intros [|]|by intros [_ [|]]].
      * split; (split; [done|]); [by intros [|]|by intros [_ [|]]].
    + split; [by split; [|intros [|]]|]. split; [|done].
      intros _. split; [by eexists|by left].
  - split; [by split; [|intros _]; auto|].
    split; [done|]. by intros [(entry & ? & ?) _].
Qed.

(** [compile] always finishes: one result, a compiled output or an error,
    is given for every budget above the number of paths the built index and
    the disk hold. *)
Theorem compile_terminates {collate : Js.Collation}
    (matter : string → Frontmatter * string) (matter_stringify : Frontmatter → string)
    (hbs_parse : string → option (list node)) (config : AgentConfig)
    (disk : gmap string string) (matched : list (string * string)) :
  ∃ r, ∀ fuel,
    (size (known disk (buildSourceIndex matter matched)) < fuel)%nat →
    compile matter matter_stringify hbs_parse config disk fuel matched = Some r.
Proof.
  unfold compile.
  destruct (cfg_entry config) as [[|c entry]|]; [by eexists| |by eexists].
  destruct (cfg_sources config) as [[|pattern patterns]|]; [by eexists| |by eexists].
  destruct (compileFile_terminates_within matter hbs_parse config disk
              (buildSourceIndex matter matched)
              (known disk (buildSourceIndex matter matched))
              (Js.replace_backslashes (String c entry)) cleared) as [r Hr];
    [apply known_closed|done|].
  destruct r as [body st|e].
  - eexists. intros fuel Hfuel. by rewrite (Hr fuel Hfuel).
  - eexists. intros fuel Hfuel. by rewrite (Hr fuel Hfuel).
Qed.



(** ** Inclusion is substitution *)

(** A path-include is replaced by the compiled text of the file it names:
    a file whose template is plain nodes, a path-include and plain nodes
    compiles to the text in front, the text the included file compiles to,
    and the text behind. *)
Theorem path_include_substitutes {collate : Js.Collation}
    (matter : string → Frontmatter * string)
    (hbs_parse : string → option (list node)) (config : AgentConfig)
    (disk : gmap string string) (index : SourceIndex)
    (fuel : nat) (relPath filePath : string) (pre post : list node)
    (st st1 : CompilerState) (out : string) :
  let normalised := Js.replace_backslashes relPath in
  let meta := from_option sf_frontmatter [] (idx_paths index !! normalised) in
  normalised ∉ compileStack st →
  template_of matter hbs_parse disk index normalised
  = Some (pre ++ NFile filePath :: post) →
  Forall plain pre →
  Forall plain post →
  compileFile matter hbs_parse config disk index fuel filePath
    (push_file normalised st) = Some (Return out st1) →
  compileFile matter hbs_parse config disk index (S fuel) relPath st
  = Some (Return (plain_texts config meta None pre +:+ out
                  +:+ plain_texts config meta None post)
            (pop_file normalised st1)).
Proof.
  intros normalised meta Hout Ht Hpre Hpost Hq.
  rewrite compileFile_unfold; [|done]. fold normalised. rewrite Ht. fold meta.
  rewrite render_plain_app; [|done]. rewrite render_cons.
  unfold mbind at 1, run_bind.
  change (render_node config index _ meta None (NFile filePath) (push_file normalised st))
    with (compileFile matter hbs_parse config disk index fuel filePath
            (push_file normalised st)).
  rewrite Hq. unfold mbind at 1, run_bind. by rewrite render_plain.
Qed.

Lemma path_include_substitutes_witness :
  compileFile Nested.matter Nested.hbs_parse Nested.config Nested.disk Nested.index
    2 "docs/x.md" cleared
  = Some (Return "X Y"
            {| compileStack := [];
               compiledFiles := ["docs/x.md"; "docs/other.md"];
               tagsUsed := [] |}).
Proof.
  apply (path_include_substitutes Nested.matter Nested.hbs_parse Nested.config
           Nested.disk Nested.index 1 "docs/x.md" "docs/other.md" [NText "X "] []
           cleared
           {| compileStack := ["docs/x.md"];
              compiledFiles := ["docs/x.md"; "docs/other.md"];
              tagsUsed := [] |} "Y").
  - apply not_elem_of_nil.
  - vm_compute. reflexivity.
  - repeat constructor.
  - constructor.
  - vm_compute. reflexivity.
Defined.

(** Files that each compile on their own compile in sequence to the same
    texts: the state a call leaves has the stack it found. *)
Lemma map_run_compileFile_each {collate : Js.Collation}
    (matter : string → Frontmatter * string)
    (hbs_parse : string → option (list node)) (config : AgentConfig)
    (disk : gmap string string) (index : SourceIndex)
    (fuel : nat) (files : list SourceFile) (outs : list string)
    (st0 st : CompilerState) :
  compileStack st = compileStack st0 →
  Forall2 (λ f out, ∃ st', compileFile matter hbs_parse config disk index fuel
                             (sf_path f) st0 = Some (Return out st'))
    files outs →
  ∃ st', map_run (λ f, compileFile matter hbs_parse config disk index fuel (sf_path f))
           files st = Some (Return outs st') ∧
         compileStack st' = compileStack st0.
Proof.
  intros Hs Hall. revert st Hs.
  induction Hall as [|f out files outs [st0' Hf] _ IH]; intros st Hs; simpl.
  - by exists st.
  - pose proof (stack_only_compileFile matter hbs_parse config disk index fuel
                  (sf_path f) st0 st (eq_sym Hs)) as Hagree.
    rewrite Hf in Hagree. unfold mbind at 1, run_bind.
    destruct (compileFile _ _ _ _ _ _ _ st) as [[out' st1|e]|] eqn:Hrun; [|done..].
    destruct Hagree as [<- _].
    pose proof (compileFile_returns_stack _ _ _ _ _ _ _ _ _ _ Hrun) as Hs1.
    destruct (IH st1) as (st' & Hrest & Hs'); [by rewrite Hs1|].
    exists st'. unfold mbind at 1, run_bind. by rewrite Hrest.
Qed.

(** Include-by-tag gives the texts that the files of the bucket compile to
    on their own, in sorted order, joined by the separator: the separator
    stands between two files only, an empty bucket gives the empty text. *)
Theorem tag_include_joins_compiled_files {collate : Js.Collation}
    (matter : string → Frontmatter * string)
    (hbs_parse : string → option (list node)) (config : AgentConfig)
    (disk : gmap string string) (index : SourceIndex)
    (fuel : nat) (tagName : string) (files : list SourceFile) (outs : list string)
    (st : CompilerState) :
  idx_tags index !! tagName = Some files →
  Forall2 (λ f out, ∃ st', compileFile matter hbs_parse config disk index fuel
                             (sf_path f) st = Some (Return out st'))
    (sortSourceFiles files) outs →
  ∃ st', tag config index (compileFile matter hbs_parse config disk index fuel)
           tagName st
         = Some (Return (Js.join (sep config) outs) st') ∧
         compileStack st' = compileStack st.
Proof.
  intros Hbucket Hall.
  destruct (map_run_compileFile_each matter hbs_parse config disk index fuel
              (sortSourceFiles files) outs st (use_tag tagName st))
    as (st' & Hrun & Hs); [done|done|].
  unfold tag, mbind at 1, run_bind, modify. rewrite Hbucket.
  destruct files as [|f files].
  - apply Forall2_nil_inv_l in Hall as ->. by eexists.
  - exists st'. unfold mbind at 1, run_bind. by rewrite Hrun.
Qed.

Lemma tag_include_joins_compiled_files_witness :
  ∃ st', tag Nested.config Nested.index
           (compileFile Nested.matter Nested.hbs_parse Nested.config Nested.disk
              Nested.index 2)
           "t" {| compileStack := ["docs/entry.md"]; compiledFiles := ["docs/entry.md"];
                  tagsUsed := [] |}
         = Some (Return "X Y" st').
Proof.
  edestruct (tag_include_joins_compiled_files Nested.matter Nested.hbs_parse
               Nested.config Nested.disk Nested.index 2 "t"
               [source_file_of Nested.matter ("docs/x.md", Nested.raw_x)] ["X Y"]
               {| compileStack := ["docs/entry.md"]; compiledFiles := ["docs/entry.md"];
                  tagsUsed := [] |}) as (st' & H & _).
  - vm_compute. reflexivity.
  - constructor; [|constructor]. eexists. vm_compute. reflexivity.
  - exists st'. exact H.
Defined.

(** A tag directive on a tag without files is a no-op: a template with an
    include-by-tag, or a tag iteration, of such a tag renders as the
    template without the directive does: the same text or the same error. *)
Theorem empty_tag_is_no_op {collate : Js.Collation}
    (matter : string → Frontmatter * string)
    (hbs_parse : string → option (list node)) (config : AgentConfig)
    (disk : gmap string string) (index : SourceIndex)
    (fuel : nat) (meta : Frontmatter) (this : option Element)
    (tagName : string) (pre post body : list node) (st : CompilerState) :
  idx_tags index !! tagName = None ∨ idx_tags index !! tagName = Some [] →
  agree
    (render config index (compileFile matter hbs_parse config disk index fuel)
       meta this (pre ++ NTag tagName :: post) st)
    (render config index (compileFile matter hbs_parse config disk index fuel)
       meta this (pre ++ post) st) ∧
  agree
    (render config index (compileFile matter hbs_parse config disk index fuel)
       meta this (pre ++ NEach tagName body :: post) st)
    (render config index (compileFile matter hbs_parse config disk index fuel)
       meta this (pre ++ post) st).
Proof.
  intros Hbucket.
  assert (∀ s, tag config index (compileFile matter hbs_parse config disk index fuel)
                 tagName s = Some (Return "" (use_tag tagName s))) as Htag.
  { intros s. unfold tag, mbind, run_bind, modify. by destruct Hbucket as [-> | ->]. }
  assert (∀ s, tagged index (compileFile matter hbs_parse config disk index fuel)
                 tagName s = Some (Return [] (use_tag tagName s))) as Htagged.
  { intros s. unfold tagged, mbind, run_bind, modify. by destruct Hbucket as [-> | ->]. }
  assert (∀ s, agree
            (render config index (compileFile matter hbs_parse config disk index fuel)
               meta this post (use_tag tagName s))
            (render config index (compileFile matter hbs_parse config disk index fuel)
               meta this post s)) as Hpost.
  { intros s. apply stack_only_render; [|done]. intros q.
    apply stack_only_compileFile. }
  split.
  - rewrite !render_app. destruct (render _ _ _ _ _ pre st) as [[a s1|e]|]; [|done..].
    rewrite render_cons. unfold mbind at 1, run_bind.
    change (render_node config index _ meta this (NTag tagName) s1)
      with (tag config index (compileFile matter hbs_parse config disk index fuel)
              tagName s1).
    rewrite Htag. unfold mbind at 1, run_bind. specialize (Hpost s1).
    destruct (render _ _ _ _ _ post (use_tag tagName s1)) as [[b s2|e]|],
             (render _ _ _ _ _ post s1) as [[b' s2'|e']|]; try done.
    destruct Hpost as [<- ?]. done.
  - rewrite !render_app. destruct (render _ _ _ _ _ pre st) as [[a s1|e]|]; [|done..].
    rewrite render_cons. unfold mbind at 1, run_bind.
    change (render_node config index _ meta this (NEach tagName body) s1)
      with ((items ← tagged index (compileFile matter hbs_parse config disk index fuel)
                       tagName;
             concat_run (λ item, concat_run
                (render_node config index
                   (compileFile matter hbs_parse config disk index fuel)
                   meta (Some item)) body) items) s1).
    unfold mbind at 1, run_bind. rewrite Htagged. simpl concat_run.
    unfold mret, run_ret. unfold mbind at 1, run_bind. cbv beta iota.
    specialize (Hpost s1).
    destruct (render _ _ _ _ _ post (use_tag tagName s1)) as [[b s2|e]|],
             (render _ _ _ _ _ post s1) as [[b' s2'|e']|]; try done.
    destruct Hpost as [<- ?]. done.
Qed.

Lemma empty_tag_is_no_op_witness :
  agree
    (render Nested.config Nested.index
       (compileFile Nested.matter Nested.hbs_parse Nested.config Nested.disk
          Nested.index 1)
       [] None ([NText "a"] ++ NTag "none" :: [NText "b"]) cleared)
    (Some (Return "ab" cleared)).
Proof.
  edestruct (empty_tag_is_no_op Nested.matter Nested.hbs_parse Nested.config
               Nested.disk Nested.index 1 [] None "none" [NText "a"] [NText "b"] []
               cleared) as [H _].
  - left. vm_compute. reflexivity.
  - exact H.
Defined.

(** * Further properties of the source index *)

Lemma occurrences_pos (tagName : string) (tag_list : list string) :
  (0 < occurrences tagName tag_list)%nat ↔ tagName ∈ tag_list.
Proof.
  unfold occurrences. induction tag_list as [|tag tag_list IH]; simpl.
  - rewrite elem_of_nil. split; [lia|done].
  - rewrite elem_of_cons. destruct (decide (tag = tagName)) as [->|Hne].
    + rewrite filter_cons_True; [|done]. simpl. split; [auto|lia].
    + rewrite filter_cons_False; [|done]. rewrite IH.
      split; [auto|]. by intros [?|?].
Qed.

Lemma filter_none {A : Type} (P : A → Prop) `{∀ x, Decision (P x)} (l : list A) :
  (∀ x, x ∈ l → ¬ P x) → filter P l = [].
Proof.
  induction l as [|y l IH]; intros Hl; [done|].
  rewrite filter_cons_False; [|apply Hl; by left].
  apply IH. intros x Hx. apply Hl. by right.
Qed.

Lemma filter_own_key {A B : Type} `{EqDecision B} (h : A → B) (l : list A) (x : A) :
  NoDup (h <$> l) → x ∈ l → filter (λ y, h y = h x) l = [x].
Proof.
  induction l as [|y l IH]; intros Hnd Hx; [by apply elem_of_nil in Hx|].
  rewrite fmap_cons in Hnd. apply NoDup_cons in Hnd as [Hy Hnd].
  apply elem_of_cons in Hx as [->|Hx].
  - rewrite filter_cons_True; [|done]. f_equal.
    apply filter_none. intros z Hz Heq.
    apply Hy. rewrite <- Heq. apply list_elem_of_fmap. eauto.
  - rewrite filter_cons_False; [by apply IH|].
    intros Heq. apply Hy. rewrite Heq. apply list_elem_of_fmap. eauto.
Qed.

Section IndexFacts.

Variable matter : string → Frontmatter * string.

Lemma index_file_files (idx : SourceIndex) (m : string * string) :
  idx_files (index_file matter idx m) = idx_files idx ++ [source_file_of matter m].
Proof.
  unfold index_file, source_file_of. destruct m as [relPath raw]. cbn [fst snd].
  by destruct (matter raw) as [frontmatter content].
Qed.

Lemma index_file_paths (idx : SourceIndex) (m : string * string) :
  idx_paths (index_file matter idx m)
  = <[sf_path (source_file_of matter m) := source_file_of matter m]> (idx_paths idx).
Proof.
  unfold index_file, source_file_of. destruct m as [relPath raw]. cbn [fst snd].
  by destruct (matter raw) as [frontmatter content].
Qed.

Lemma fold_index_file_files (matched : list (string * string)) (idx : SourceIndex) :
  idx_files (fold_left (index_file matter) matched idx)
  = idx_files idx ++ (source_file_of matter <$> matched).
Proof.
  revert idx. induction matched as [|m matched IH]; intros idx; simpl.
  - by rewrite app_nil_r.
  - rewrite IH, index_file_files. by rewrite <- app_assoc.
Qed.

Lemma fold_index_file_paths (matched : list (string * string)) (idx : SourceIndex)
    (p : string) :
  idx_paths (fold_left (index_file matter) matched idx) !! p
  = from_option Some (idx_paths idx !! p)
      (last (filter (λ f, sf_path f = p) (source_file_of matter <$> matched))).
Proof.
  revert idx. induction matched as [|m matched IH]; intros idx; [done|].
  cbn [fold_left]. rewrite IH, index_file_paths, fmap_cons.
  destruct (decide (sf_path (source_file_of matter m) = p)) as [Hp|Hp].
  - rewrite filter_cons_True; [|done]. rewrite last_cons.
    destruct (last _); [done|]. cbn [from_option]. by rewrite Hp, lookup_insert_eq.
  - rewrite filter_cons_False; [|done]. destruct (last _); [done|].
    cbn [from_option]. by rewrite lookup_insert_ne.
Qed.

Lemma index_tags_nonempty (sourceFile : SourceFile) (tag_list : list string)
    (tags : gmap string (list SourceFile)) :
  map_Forall (λ _ bucket, bucket ≠ []) tags →
  map_Forall (λ _ bucket, bucket ≠ []) (index_tags sourceFile tag_list tags).
Proof.
  unfold index_tags. revert tags.
  induction tag_list as [|tag tag_list IH]; intros tags Htags; [done|].
  simpl. apply IH. apply map_Forall_insert_2; [|done].
  by destruct (default [] (tags !! tag)).
Qed.

Lemma fold_index_file_nonempty (matched : list (string * string)) (idx : SourceIndex) :
  map_Forall (λ _ bucket, bucket ≠ []) (idx_tags idx) →
  map_Forall (λ _ bucket, bucket ≠ [])
    (idx_tags (fold_left (index_file matter) matched idx)).
Proof.
  revert idx. induction matched as [|m matched IH]; intros idx Hidx; [done|].
  simpl. apply IH. unfold index_file. destruct m as [relPath raw].
  destruct (matter raw) as [frontmatter content]. cbn [idx_tags].
  destruct (im_tags (instrux_of frontmatter)); [|done].
  by apply index_tags_nonempty.
Qed.

Lemma buildSourceIndex_files (matched : list (string * string)) :
  idx_files (buildSourceIndex matter matched) = source_file_of matter <$> matched.
Proof. unfold buildSourceIndex. by rewrite fold_index_file_files. Qed.

Lemma buildSourceIndex_lookup (matched : list (string * string)) (p : string) :
  idx_paths (buildSourceIndex matter matched) !! p
  = last (filter (λ f, sf_path f = p) (source_file_of matter <$> matched)).
Proof.
  unfold buildSourceIndex. rewrite fold_index_file_paths.
  cbn [idx_paths]. rewrite lookup_empty. by destruct (last _).
Qed.

(** The index keeps the files in the order of the scan, and its path map
    gives, for a path, the last scanned file whose normalised path it is:
    no file when none has that path, the later of two files whose paths
    differ only in the direction of the slashes. *)
Theorem buildSourceIndex_path_is_last_scanned
    (matched : list (string * string)) (p : string) :
  idx_files (buildSourceIndex matter matched) = source_file_of matter <$> matched ∧
  idx_paths (buildSourceIndex matter matched) !! p
  = last (filter (λ f, sf_path f = p) (idx_files (buildSourceIndex matter matched))).
Proof.
  split; [apply buildSourceIndex_files|].
  rewrite buildSourceIndex_files. apply buildSourceIndex_lookup.
Qed.

(** When the scanned files have different normalised paths, each file of
    the index is the one the path map gives for its path. *)
Theorem buildSourceIndex_finds_each_file
    (matched : list (string * string)) (f : SourceFile) :
  NoDup (Js.replace_backslashes ∘ fst <$> matched) →
  f ∈ idx_files (buildSourceIndex matter matched) →
  idx_paths (buildSourceIndex matter matched) !! sf_path f = Some f.
Proof.
  intros Hnd Hf.
  rewrite buildSourceIndex_files in Hf. rewrite buildSourceIndex_lookup.
  rewrite filter_own_key; [done| |done].
  rewrite <- list_fmap_compose.
  erewrite list_fmap_ext; [exact Hnd|]. by intros i [relPath raw].
Qed.

(** When the tags of the scanned files are well typed, the bucket of a tag
    holds the files of the index that list the tag, and only them; each of
    them has an entry in the path map; a tag no file lists has no bucket,
    and no bucket is empty. *)
Theorem buildSourceIndex_bucket_members
    (matched : list (string * string)) (tagName : string) :
  Forall (λ m, typed_tags (matter m.2).1) matched →
  match idx_tags (buildSourceIndex matter matched) !! tagName with
  | Some files =>
      files ≠ [] ∧
      (∀ f, f ∈ files ↔
            f ∈ idx_files (buildSourceIndex matter matched) ∧ tagName ∈ tags_of f) ∧
      (∀ f, f ∈ files →
            is_Some (idx_paths (buildSourceIndex matter matched) !! sf_path f))
  | None =>
      ∀ f, f ∈ idx_files (buildSourceIndex matter matched) → tagName ∉ tags_of f
  end.
Proof.
  intros _.
  pose proof (buildSourceIndex_bucket matter matched tagName) as Hbucket.
  pose proof (buildSourceIndex_files matched) as Hfiles.
  assert (∀ f, f ∈ default [] (idx_tags (buildSourceIndex matter matched) !! tagName)
               ↔ f ∈ idx_files (buildSourceIndex matter matched) ∧ tagName ∈ tags_of f)
    as Hmem.
  { intros f. rewrite Hbucket, Hfiles, list_elem_of_bind. split.
    - intros (g & Hrep & Hg). apply elem_of_replicate in Hrep as [-> Hn].
      split; [done|]. apply occurrences_pos. lia.
    - intros [Hf Htag]. exists f. split; [|done].
      apply elem_of_replicate. split; [done|].
      apply occurrences_pos in Htag. lia. }
  assert (map_Forall (λ _ bucket, bucket ≠ [])
            (idx_tags (buildSourceIndex matter matched))) as Hne.
  { unfold buildSourceIndex. by apply fold_index_file_nonempty. }
  destruct (idx_tags (buildSourceIndex matter matched) !! tagName) as [files|] eqn:Hlook.
  - split; [by eapply Hne|]. split; [exact Hmem|].
    intros f Hf. apply Hmem in Hf as [Hf _].
    rewrite buildSourceIndex_lookup.
    destruct (last _) eqn:Hlast; [done|]. apply last_None in Hlast.
    assert (f ∈ filter (λ g, sf_path g = sf_path f)
                  (source_file_of matter <$> matched)) as Hin.
    { apply list_elem_of_filter. by rewrite <- Hfiles. }
    rewrite Hlast in Hin. by apply elem_of_nil in Hin.
  - intros f Hf Htag. apply (elem_of_nil f). apply Hmem. done.
Qed.

End IndexFacts.

Lemma buildSourceIndex_bucket_members_witness :
  match idx_tags Nested.index !! "t" with
  | Some files =>
      files ≠ [] ∧
      (∀ f, f ∈ files ↔ f ∈ idx_files Nested.index ∧ "t" ∈ tags_of f) ∧
      (∀ f, f ∈ files → is_Some (idx_paths Nested.index !! sf_path f))
  | None => ∀ f, f ∈ idx_files Nested.index → "t" ∉ tags_of f
  end.
Proof.
  apply (buildSourceIndex_bucket_members Nested.matter Nested.matched "t").
  vm_compute. repeat constructor; by eexists.
Defined.

Lemma buildSourceIndex_finds_each_file_witness :
  idx_paths Nested.index !! "docs/x.md"
  = Some (source_file_of Nested.matter ("docs/x.md", Nested.raw_x)).
Proof.
  apply (buildSourceIndex_finds_each_file Nested.matter Nested.matched
           (source_file_of Nested.matter ("docs/x.md", Nested.raw_x))).
  - apply (bool_decide_eq_true_1
             (NoDup (Js.replace_backslashes ∘ fst <$> Nested.matched))).
    vm_compute. reflexivity.
  - vm_compute. apply list_elem_of_further, list_elem_of_here.
Defined.

(** * Further properties of the order of files *)

Lemma sort_insert_least {A : Type} (cmp : A → A → Z) (x : A) (l : list A) :
  Forall (λ y, cmp x y ≤ 0) l → Js.sort_insert cmp x l = x :: l.
Proof.
  destruct 1 as [|y l Hy _]; [done|]. simpl.
  by destruct (Z.leb_spec (cmp x y) 0); [|lia].
Qed.

Lemma sort_of_sorted {A : Type} (cmp : A → A → Z) (l : list A) :
  StronglySorted (λ x y, cmp x y ≤ 0) l → Js.sort cmp l = l.
Proof.
  induction 1 as [|x l _ IH Hx]; [done|].
  simpl. rewrite IH. by apply sort_insert_least.
Qed.

(** A list of files that is in order already, by [order] (999 when absent)
    and then by path as the collation compares paths, is returned as it is,
    ties included: the sort is stable. In particular sorting twice is
    sorting once. *)
Theorem sortSourceFiles_keeps_sorted
    {collate : Js.Collation} (files : list SourceFile) :
  Js.consistent →
  (StronglySorted key_le files → sortSourceFiles files = files) ∧
  sortSourceFiles (sortSourceFiles files) = sortSourceFiles files.
Proof.
  assert (∀ l, StronglySorted key_le l → sortSourceFiles l = l) as Hfix.
  { intros l Hl. apply sort_of_sorted.
    induction Hl as [|x l _ IH Hx]; constructor; [done|].
    eapply Forall_impl; [exact Hx|]. intros y. apply compare_files_le. }
  intros Hc. split; [apply Hfix|].
  by apply Hfix, sortSourceFiles_sorted.
Qed.

Lemma sortSourceFiles_keeps_sorted_witness :
  sortSourceFiles [Demo.file_with "a.md" (Some 1); Demo.file_with "a.md" (Some 1);
                   Demo.file_with "b.md" None]
  = [Demo.file_with "a.md" (Some 1); Demo.file_with "a.md" (Some 1);
     Demo.file_with "b.md" None].
Proof.
  destruct (sortSourceFiles_keeps_sorted
              [Demo.file_with "a.md" (Some 1); Demo.file_with "a.md" (Some 1);
               Demo.file_with "b.md" None] code_units_consistent) as [Hkeep _].
  apply Hkeep.
  repeat first [apply SSorted_nil | apply SSorted_cons
               | apply List.Forall_nil | apply List.Forall_cons];
    unfold key_le; vm_compute;
    first [left; reflexivity | right; split; [reflexivity|discriminate]].
Defined.

(** The order of the files of a tag does not depend on the order in which
    the scan found them, as long as two files whose paths the collation
    takes for equal are one file: two arrangements of the same files sort to
    the same list. *)
Theorem sortSourceFiles_ignores_scan_order
    {collate : Js.Collation} (files files' : list SourceFile) :
  Js.consistent →
  (∀ x y, x ∈ files → y ∈ files →
          Js.localeCompare (sf_path x) (sf_path y) = 0 → x = y) →
  files ≡ₚ files' →
  sortSourceFiles files = sortSourceFiles files'.
Proof.
  intros Hc Hpaths Hperm. apply sortSourceFiles_unique; [done| | |].
  - intros x y Hx Hy Hxy Hyx.
    rewrite sortSourceFiles_perm, <- Hperm in Hx, Hy.
    apply Hpaths; [done..|].
    destruct Hxy as [?|[? Hxy]], Hyx as [?|[? Hyx]]; try lia.
    by apply localeCompare_both.
  - by apply sortSourceFiles_sorted.
  - by rewrite sortSourceFiles_perm.
Qed.

Lemma sortSourceFiles_ignores_scan_order_witness :
  sortSourceFiles [Demo.file_with "b.md" None; Demo.file_with "a.md" (Some 1)]
  = sortSourceFiles [Demo.file_with "a.md" (Some 1); Demo.file_with "b.md" None].
Proof.
  apply (sortSourceFiles_ignores_scan_order
           [Demo.file_with "b.md" None; Demo.file_with "a.md" (Some 1)]
           [Demo.file_with "a.md" (Some 1); Demo.file_with "b.md" None]
           code_units_consistent).
  - intros x y Hx Hy.
    apply elem_of_cons in Hx as [->|Hx]; [|apply list_elem_of_singleton in Hx as ->];
      (apply elem_of_cons in Hy as [->|Hy]; [|apply list_elem_of_singleton in Hy as ->]);
      vm_compute; congruence.
  - apply perm_swap.
Defined.

(** * Further properties of the metadata block *)

Lemma trimEnd_idem (s : string) : Js.trimEnd (Js.trimEnd s) = Js.trimEnd s.
Proof.
  induction s as [|c s IH]; [done|]. cbn [Js.trimEnd].
  destruct (Js.trimEnd s) as [|a t] eqn:Hs.
  - destruct (Js.is_white c) eqn:Hc; [done|]. cbn [Js.trimEnd]. by rewrite Hc.
  - change (Js.trimEnd (String c (String a t)))
      with (match Js.trimEnd (String a t) with
            | EmptyString =>
                if Js.is_white c then EmptyString else String c EmptyString
            | u => String c u
            end).
    by rewrite IH.
Qed.

(** [stripInstruxMeta] takes out the key [instrux] and nothing else: the
    other keys keep their values, the result has no instrux metadata, and
    stripping again changes nothing. *)
Theorem stripInstruxMeta_removes_only_instrux (frontmatter : Frontmatter) :
  get "instrux" (stripInstruxMeta frontmatter) = None ∧
  (∀ key, key ≠ "instrux" →
          get key (stripInstruxMeta frontmatter) = get key frontmatter) ∧
  instrux_of (stripInstruxMeta frontmatter)
  = {| im_tags := None; im_order := None; im_description := None |} ∧
  stripInstruxMeta (stripInstruxMeta frontmatter) = stripInstruxMeta frontmatter.
Proof.
  split; [apply get_instrux_stripped|].
  split; [intros key; apply get_stripInstruxMeta|].
  split; [unfold instrux_of; by rewrite get_instrux_stripped|].
  unfold stripInstruxMeta.
  induction frontmatter as [|[k v] frontmatter IH]; [done|].
  destruct (decide (k = "instrux")) as [->|Hk].
  - rewrite filter_cons_False; [done|]. by intros [].
  - rewrite !filter_cons_True; [|done..]. by rewrite IH.
Qed.

(** [serializeFrontmatter] gives nothing for an object without keys and
    for it only; for another object it gives the YAML block without its
    trailing white space, closed by one newline and followed by one empty
    line. *)
Theorem serializeFrontmatter_block
    (matter_stringify : Frontmatter → string) (data : Frontmatter) :
  (serializeFrontmatter matter_stringify data = "" ↔ data = []) ∧
  (data ≠ [] →
   ∃ block, serializeFrontmatter matter_stringify data
            = block +:+ Js.newline +:+ Js.newline ∧
            Js.trimEnd block = block).
Proof.
  unfold serializeFrontmatter. destruct data as [|kv data].
  - split; [done|]. by intros [].
  - split.
    + split; [|done]. by destruct (Js.trimEnd (matter_stringify (kv :: data))).
    + intros _. eexists. split; [done|]. apply trimEnd_idem.
Qed.

Lemma serializeFrontmatter_block_witness :
  ∃ block, serializeFrontmatter Demo.matter_stringify [("title", VStr "X")]
           = block +:+ Js.newline +:+ Js.newline ∧
           Js.trimEnd block = block.
Proof.
  apply (serializeFrontmatter_block Demo.matter_stringify [("title", VStr "X")]).
  discriminate.
Defined.

(** * Properties of the engine *)

(** ** Trimmed texts *)

Lemma string_app_nonempty_r (a b : string) : b ≠ "" → a +:+ b ≠ "".
Proof.
  intros Hb. destruct a as [|c a]; [done|].
  by change (String c a +:+ b) with (String c (a +:+ b)).
Qed.

Lemma trimStart_length (s : string) :
  (String.length (Engine.trimStart s) ≤ String.length s)%nat.
Proof.
  induction s as [|c s IH]; [done|]. cbn [Engine.trimStart].
  destruct (Js.is_white c); cbn [String.length]; lia.
Qed.

Lemma trimStart_fixed (c : ascii) (s : string) :
  Engine.trimStart (String c s) = String c s → Js.is_white c = false.
Proof.
  cbn [Engine.trimStart]. destruct (Js.is_white c); [|done].
  intros Heq. pose proof (trimStart_length s) as Hlen.
  rewrite Heq in Hlen. cbn [String.length] in Hlen. lia.
Qed.

Lemma trimStart_idem (s : string) :
  Engine.trimStart (Engine.trimStart s) = Engine.trimStart s.
Proof.
  induction s as [|c s IH]; [done|]. cbn [Engine.trimStart].
  destruct (Js.is_white c) eqn:Hc; [done|]. cbn [Engine.trimStart]. by rewrite Hc.
Qed.

Lemma trimStart_app (a b : string) :
  Engine.trimStart a = a → a ≠ "" → Engine.trimStart (a +:+ b) = a +:+ b.
Proof.
  destruct a as [|c a]; [done|]. intros Ha _. apply trimStart_fixed in Ha.
  change (String c a +:+ b) with (String c (a +:+ b)).
  cbn [Engine.trimStart]. by rewrite Ha.
Qed.

Lemma trimEnd_app (a b : string) :
  Js.trimEnd b ≠ "" → Js.trimEnd (a +:+ b) = a +:+ Js.trimEnd b.
Proof.
  intros Hb. induction a as [|c a IH]; [done|].
  change (String c a +:+ b) with (String c (a +:+ b)).
  change (String c a +:+ Js.trimEnd b) with (String c (a +:+ Js.trimEnd b)).
  cbn [Js.trimEnd]. rewrite IH.
  pose proof (string_app_nonempty_r a _ Hb) as Hne.
  by destruct (a +:+ Js.trimEnd b).
Qed.

Lemma trimEnd_fixed_tail (c : ascii) (s : string) :
  Js.trimEnd (String c s) = String c s → Js.trimEnd s = s.
Proof.
  cbn [Js.trimEnd]. destruct (Js.trimEnd s) as [|d t].
  - destruct (Js.is_white c); [done|]. by intros [= <-].
  - by intros [= <-].
Qed.

Lemma trimEnd_fixed_no_newline (t : string) :
  Js.trimEnd t = t → t ≠ "" → Js.endsWith_char t Js.LF = false.
Proof.
  induction t as [|c t IH]; [done|]. intros Hfix _.
  pose proof (trimEnd_fixed_tail _ _ Hfix) as Ht. destruct t as [|d t].
  - cbn [Js.trimEnd] in Hfix. cbn [Js.endsWith_char].
    destruct (Ascii.eqb_spec c Js.LF) as [->|]; [|done].
    by vm_compute in Hfix.
  - change (Js.endsWith_char (String c (String d t)) Js.LF)
      with (Js.endsWith_char (String d t) Js.LF).
    by apply IH.
Qed.

Lemma trimEnd_trimStart (s : string) :
  Js.trimEnd s = s → Js.trimEnd (Engine.trimStart s) = Engine.trimStart s.
Proof.
  induction s as [|c s IH]; [done|]. intros Hfix. cbn [Engine.trimStart].
  destruct (Js.is_white c); [|done]. apply IH. by eapply trimEnd_fixed_tail.
Qed.

Lemma trim_fixed (s : string) :
  Engine.trimStart (Engine.trim s) = Engine.trim s ∧
  Js.trimEnd (Engine.trim s) = Engine.trim s.
Proof.
  unfold Engine.trim. split; [apply trimStart_idem|].
  apply trimEnd_trimStart, trimEnd_idem.
Qed.

Lemma trim_idem (s : string) : Engine.trim (Engine.trim s) = Engine.trim s.
Proof.
  destruct (trim_fixed s) as [Hstart Hend].
  unfold Engine.trim at 1. by rewrite Hend.
Qed.

(** The last step of [merge]: a trimmed text never ends in a newline, so
    the newline is added whenever the text is not empty. *)
Lemma merge_finish (merged : string) :
  (if (0 <? String.length (Engine.trim merged))%nat
      && negb (Js.endsWith_char (Engine.trim merged) Js.LF)
   then Engine.trim merged +:+ Js.newline
   else Engine.trim merged)
  = match Engine.trim merged with
    | EmptyString => ""
    | text => text +:+ Js.newline
    end.
Proof.
  destruct (trim_fixed merged) as [_ Hend].
  destruct (Engine.trim merged) as [|c t] eqn:Htrim; [done|].
  by rewrite trimEnd_fixed_no_newline.
Qed.

(** ** [merge] *)

Section Merge.

Variable disk : gmap string string.
Variable now : string.

Local Abbreviation merge' := (Engine.merge disk now).
Local Abbreviation merge_file' := (Engine.merge_file disk).
Local Abbreviation parts' :=
  (λ files, filter (λ c : string, c ≠ "") (merged_content disk <$> files)).

Lemma merge_file_blank (s : Engine.MergeSettings) (acc : string * bool)
    (f : Engine.InstruxFile) :
  merged_content disk f = "" → merge_file' s acc f = acc.
Proof.
  unfold Engine.merge_file, merged_content. destruct acc as [merged first].
  intros ->. by rewrite orb_true_r.
Qed.

Lemma merge_file_nonblank (s : Engine.MergeSettings) (merged : string) (first : bool)
    (f : Engine.InstruxFile) :
  merged_content disk f ≠ "" →
  merge_file' s (merged, first) f
  = ((if first then merged else merged +:+ merge_separator s)
     +:+ (if Engine.includeFileHeaders s
          then "<!-- File: " +:+ Engine.file_path f +:+ " -->" +:+ Js.newline
               +:+ "<!-- " +:+ Engine.file_description f +:+ " -->" +:+ Js.newline
               +:+ Js.newline
          else "")
     +:+ merged_content disk f, false).
Proof.
  unfold Engine.merge_file, merged_content, merge_separator. intros Hne.
  destruct (default "" (disk !! Engine.file_path f)) as [|c content] eqn:Hc; [done|].
  destruct (Engine.trim (String c content)) as [|d text] eqn:Htrim; [done|].
  cbn [String.length Nat.eqb orb]. f_equal.
  destruct (Engine.includeFileHeaders s).
  - destruct first, (Engine.addSeparators s); by rewrite !string_app_assoc.
  - change ("" +:+ String d text) with (String d text).
    by destruct first, (Engine.addSeparators s).
Qed.

Lemma fold_merge_file_filter (s : Engine.MergeSettings) (files : list Engine.InstruxFile)
    (acc : string * bool) :
  fold_left (merge_file' s) (filter (λ f, merged_content disk f ≠ "") files) acc
  = fold_left (merge_file' s) files acc.
Proof.
  revert acc. induction files as [|f files IH]; intros acc; [done|].
  destruct (decide (merged_content disk f = "")) as [Hblank|Hne].
  - rewrite filter_cons_False; [|by intros []]. cbn [fold_left].
    by rewrite merge_file_blank.
  - rewrite filter_cons_True; [|done]. cbn [fold_left]. apply IH.
Qed.

Lemma join_snoc (sep : string) (ps : list string) (c : string) :
  ps ≠ [] → Js.join sep (ps ++ [c]) = Js.join sep ps +:+ sep +:+ c.
Proof.
  induction ps as [|p ps IH]; [done|]. intros _. destruct ps as [|q ps]; [done|].
  change (Js.join sep ((p :: q :: ps) ++ [c]))
    with (p +:+ sep +:+ Js.join sep ((q :: ps) ++ [c])).
  change (Js.join sep (p :: q :: ps)) with (p +:+ sep +:+ Js.join sep (q :: ps)).
  rewrite IH; [|done]. by rewrite !string_app_assoc.
Qed.

Lemma fold_merge_file_join (s : Engine.MergeSettings) (files : list Engine.InstruxFile)
    (ps : list string) :
  Engine.includeFileHeaders s = false →
  fold_left (merge_file' s) files
    (Js.join (merge_separator s) ps, bool_decide (ps = []))
  = (Js.join (merge_separator s) (ps ++ parts' files),
     bool_decide (ps ++ parts' files = [])).
Proof.
  intros Hheaders. revert ps.
  induction files as [|f files IH]; intros ps; [by rewrite app_nil_r|].
  cbn [fold_left]. rewrite fmap_cons.
  destruct (decide (merged_content disk f = "")) as [Hblank|Hne].
  - rewrite merge_file_blank; [|done]. rewrite filter_cons_False; [|by intros []].
    apply IH.
  - rewrite merge_file_nonblank; [|done]. rewrite filter_cons_True; [|done].
    rewrite Hheaders. rewrite (cons_middle _ ps), app_assoc. rewrite <- IH.
    f_equal. f_equal.
    + destruct ps as [|p ps]; [done|].
      rewrite bool_decide_eq_false_2; [|done].
      rewrite join_snoc; [|done]. by rewrite !string_app_assoc.
    + symmetry. apply bool_decide_eq_false_2. by destruct ps.
Qed.

Lemma join_trimmed (sep : string) (parts : list string) :
  Forall (λ p, Engine.trimStart p = p ∧ Js.trimEnd p = p ∧ p ≠ "") parts →
  parts ≠ [] →
  Engine.trimStart (Js.join sep parts) = Js.join sep parts ∧
  Js.trimEnd (Js.join sep parts) = Js.join sep parts ∧
  Js.join sep parts ≠ "".
Proof.
  induction 1 as [|p parts (Hstart & Hend & Hne) _ IH]; [done|]. intros _.
  destruct parts as [|q parts]; [done|].
  destruct IH as (_ & Hend' & Hne'); [done|].
  change (Js.join sep (p :: q :: parts)) with (p +:+ sep +:+ Js.join sep (q :: parts)).
  assert (Js.trimEnd (sep +:+ Js.join sep (q :: parts))
          = sep +:+ Js.join sep (q :: parts)) as Hrest.
  { rewrite trimEnd_app; by rewrite Hend'. }
  split_and!.
  - by apply trimStart_app.
  - rewrite trimEnd_app; rewrite Hrest; [done|].
    by apply string_app_nonempty_r.
  - by apply string_app_nonempty_r, string_app_nonempty_r.
Qed.

(** The merged text is normalised: it is empty, or a text without white
    space at its ends followed by one newline. *)
Theorem merge_output_is_trimmed (config : Engine.ResolvedAgentConfig) :
  merge' config = "" ∨
  ∃ text, merge' config = text +:+ Js.newline ∧ text ≠ "" ∧ Engine.trim text = text.
Proof.
  unfold Engine.merge. rewrite merge_finish.
  destruct (Engine.trim _) as [|c text] eqn:Htrim; [by left|].
  right. eexists. split; [done|]. split; [done|].
  rewrite <- Htrim. apply trim_idem.
Qed.

(** Files that are missing, empty or blank add nothing to the merged text,
    with or without file headers: the merge of a list of files is the merge
    of those among them that have a content. *)
Theorem merge_skips_blank_files (config config' : Engine.ResolvedAgentConfig) :
  Engine.rc_name config' = Engine.rc_name config →
  Engine.rc_mergeSettings config' = Engine.rc_mergeSettings config →
  Engine.rc_files config'
  = Some (filter (λ f, merged_content disk f ≠ "")
            (default [] (Engine.rc_files config))) →
  merge' config' = merge' config.
Proof.
  intros Hname Hsettings Hfiles. unfold Engine.merge.
  rewrite Hname, Hsettings, Hfiles. cbn [default from_option]. unfold id.
  by rewrite fold_merge_file_filter.
Qed.

(** Without file headers the merged text is the trimmed contents of the
    files that have one, in the order of the configuration, joined by the
    separator line (a newline without separators), and closed by one
    newline; it is empty when no file has a content. *)
Theorem merge_joins_trimmed_contents (config : Engine.ResolvedAgentConfig) :
  Engine.includeFileHeaders (Engine.rc_mergeSettings config) = false →
  merge' config
  = match filter (λ c : string, c ≠ "")
            (merged_content disk <$> default [] (Engine.rc_files config)) with
    | [] => ""
    | parts => Js.join (merge_separator (Engine.rc_mergeSettings config)) parts
               +:+ Js.newline
    end.
Proof.
  intros Hheaders. unfold Engine.merge. rewrite merge_finish, Hheaders.
  pose proof (fold_merge_file_join (Engine.rc_mergeSettings config)
                (default [] (Engine.rc_files config)) [] Hheaders) as Hfold.
  cbn [Js.join app] in Hfold. rewrite bool_decide_eq_true_2 in Hfold; [|done].
  rewrite Hfold. cbn [fst]. clear Hfold.
  assert (Forall (λ p, Engine.trimStart p = p ∧ Js.trimEnd p = p ∧ p ≠ "")
            (filter (λ c : string, c ≠ "")
               (merged_content disk <$> default [] (Engine.rc_files config))))
    as Hall.
  { apply Forall_forall. intros c Hc.
    apply list_elem_of_filter in Hc as [Hne Hc].
    apply list_elem_of_fmap in Hc as (f & -> & _).
    destruct (trim_fixed (default "" (disk !! Engine.file_path f))). done. }
  destruct (filter _ _) as [|p parts]; [done|].
  destruct (join_trimmed (merge_separator (Engine.rc_mergeSettings config))
              (p :: parts)) as (Hstart & Hend & Hne); [done..|].
  unfold Engine.trim. rewrite Hend, Hstart.
  by destruct (Js.join _ (p :: parts)).
Qed.

End Merge.

Lemma merge_skips_blank_files_witness :
  Engine.merge Legacy.disk Legacy.now
    (Engine.mergeConfigs Legacy.toLowerCase
       (Legacy.agent
          [ {| Engine.file_path := "a.md"; Engine.file_description := "first";
               Engine.file_required := true |};
            {| Engine.file_path := "b.md"; Engine.file_description := "second";
               Engine.file_required := true |} ] None)
       Legacy.repo)
  = Engine.merge Legacy.disk Legacy.now Legacy.config.
Proof.
  apply (merge_skips_blank_files Legacy.disk Legacy.now Legacy.config).
  - reflexivity.
  - reflexivity.
  - vm_compute. reflexivity.
Defined.

Lemma merge_joins_trimmed_contents_witness :
  Engine.merge Legacy.disk Legacy.now Legacy.config
  = "A" +:+ Js.newline +:+ "---" +:+ Js.newline +:+ "B" +:+ Js.newline.
Proof.
  etrans; [apply (merge_joins_trimmed_contents Legacy.disk Legacy.now Legacy.config)|].
  - reflexivity.
  - vm_compute. reflexivity.
Defined.

(** ** [validate] *)

Section Validate.

Variable disk : gmap string string.

Lemma fold_validate_file (files : list Engine.InstruxFile)
    (missing warnings : list string) :
  fold_left (Engine.validate_file disk) files (missing, warnings)
  = (missing ++
       (Engine.file_path <$>
          filter (λ f, Engine.file_required f = true ∧
                       disk !! Engine.file_path f = None) files),
     warnings ++
       ((λ f, "Optional file not found: " +:+ Engine.file_path f) <$>
          filter (λ f, Engine.file_required f = false ∧
                       disk !! Engine.file_path f = None) files)).
Proof.
  revert missing warnings.
  induction files as [|f files IH]; intros missing warnings.
  - cbn [fold_left]. by rewrite !filter_nil, !fmap_nil, !app_nil_r.
  - cbn [fold_left]. unfold Engine.validate_file at 2.
    destruct (disk !! Engine.file_path f) as [content|] eqn:Hf.
    + rewrite bool_decide_eq_true_2; [|by eexists]. cbn [negb andb].
      rewrite IH, !filter_cons_False; [done|intros [_ ?]; congruence..].
    + rewrite bool_decide_eq_false_2; [|by intros [? ?]]. cbn [negb andb].
      destruct (Engine.file_required f) eqn:Hreq; cbn [negb].
      * rewrite IH, filter_cons_True, filter_cons_False;
          [|intros [? _]; congruence|done].
        by rewrite fmap_cons, <- app_assoc.
      * rewrite IH, filter_cons_False, filter_cons_True;
          [|done|intros [? _]; congruence].
        by rewrite fmap_cons, <- app_assoc.
Qed.

(** Validation lists as missing the required files that do not exist, in
    the order of the configuration, and warns of each optional file that
    does not exist; a configuration is valid exactly when every required
    file exists. *)
Theorem validate_reports_missing_files (config : Engine.ResolvedAgentConfig) :
  Engine.missing (Engine.validate disk config)
  = Engine.file_path <$>
      filter (λ f, Engine.file_required f = true ∧ disk !! Engine.file_path f = None)
        (default [] (Engine.rc_files config)) ∧
  Engine.warnings (Engine.validate disk config)
  = (λ f, "Optional file not found: " +:+ Engine.file_path f) <$>
      filter (λ f, Engine.file_required f = false ∧ disk !! Engine.file_path f = None)
        (default [] (Engine.rc_files config)) ∧
  (Engine.valid (Engine.validate disk config) = true ↔
   ∀ f, f ∈ default [] (Engine.rc_files config) →
        Engine.file_required f = true → is_Some (disk !! Engine.file_path f)).
Proof.
  unfold Engine.validate. rewrite fold_validate_file. cbn [app].
  cbn [Engine.missing Engine.warnings Engine.valid].
  split; [done|]. split; [done|].
  rewrite Nat.eqb_eq, length_fmap, length_zero_iff_nil. split.
  - intros Hnone f Hf Hreq. destruct (disk !! Engine.file_path f) eqn:Hlook; [done|].
    assert (f ∈ filter (λ f, Engine.file_required f = true ∧
                             disk !! Engine.file_path f = None)
                  (default [] (Engine.rc_files config))) as Hin.
    { by apply list_elem_of_filter. }
    rewrite Hnone in Hin. by apply elem_of_nil in Hin.
  - intros Hall. apply filter_none. intros f Hf [Hreq Hlook].
    destruct (Hall f Hf Hreq) as [content Hcontent]. congruence.
Qed.

End Validate.

(** ** From the engine to the compiler *)

(** In compile mode the engine never hands the compiler a configuration it
    rejects: for a resolved configuration with an entry, [compile] gives a
    result, which is neither the missing-entry nor the missing-sources
    error, whatever [agent.json] and [instrux.json] hold. *)
Theorem engine_never_misconfigures_compiler {collate : Js.Collation}
    (matter : string → Frontmatter * string) (matter_stringify : Frontmatter → string)
    (hbs_parse : string → option (list node)) (toLowerCase : string → string)
    (agentConfig : Engine.AgentConfig) (repoConfig : Engine.RepoConfig)
    (disk : gmap string string) (matched : list (string * string)) :
  Engine.isCompileMode (Engine.mergeConfigs toLowerCase agentConfig repoConfig) = true →
  ∃ r, r ≠ inl NoEntry ∧ r ≠ inl NoSources ∧
       ∀ fuel,
         (size (known disk (buildSourceIndex matter matched)) < fuel)%nat →
         compile matter matter_stringify hbs_parse
           (compiler_config (Engine.mergeConfigs toLowerCase agentConfig repoConfig))
           disk fuel matched = Some r.
Proof.
  unfold Engine.isCompileMode, compile. cbn [compiler_config cfg_entry cfg_sources].
  destruct (Engine.rc_entry _) as [[|c entry]|]; [done| |done]. intros _.
  cbn [Engine.mergeConfigs Engine.rc_sources app].
  destruct (compileFile_terminates_within matter hbs_parse
              (compiler_config (Engine.mergeConfigs toLowerCase agentConfig repoConfig))
              disk (buildSourceIndex matter matched)
              (known disk (buildSourceIndex matter matched))
              (Js.replace_backslashes (String c entry)) cleared) as [r Hr];
    [apply known_closed|done|].
  destruct r as [body st|e].
  - refine (ex_intro _ (inr _) _). split; [|split]; [discriminate..|].
    intros fuel Hfuel. by rewrite (Hr fuel Hfuel).
  - exists (inl e). split; [|split]; [| |intros fuel Hfuel; by rewrite (Hr fuel Hfuel)].
    + intros [= ->].
      by destruct (compileFile_no_configuration_error _ _ _ _ _ _ _ _ _
                     (Hr _ (Nat.lt_succ_diag_r _))).
    + intros [= ->].
      by destruct (compileFile_no_configuration_error _ _ _ _ _ _ _ _ _
                     (Hr _ (Nat.lt_succ_diag_r _))).
Qed.

Lemma engine_never_misconfigures_compiler_witness :
  ∃ r, r ≠ inl NoEntry ∧ r ≠ inl NoSources ∧
       ∀ fuel,
         (size (known Nested.disk (buildSourceIndex Nested.matter Nested.matched))
          < fuel)%nat →
         compile Nested.matter Demo.matter_stringify Nested.hbs_parse
           (compiler_config
              (Engine.mergeConfigs Legacy.toLowerCase
                 (Legacy.agent [] (Some "entry.md")) Legacy.repo))
           Nested.disk fuel Nested.matched = Some r.
Proof.
  apply (engine_never_misconfigures_compiler Nested.matter Demo.matter_stringify
           Nested.hbs_parse Legacy.toLowerCase (Legacy.agent [] (Some "entry.md"))
           Legacy.repo Nested.disk Nested.matched).
  vm_compute. reflexivity.
Defined.

(** * The tags a compilation reports *)

Lemma set_add_idem (x : string) (s : list string) :
  Js.set_add x (Js.set_add x s) = Js.set_add x s.
Proof.
  unfold Js.set_add at 1. rewrite (proj2 (set_has_true _ _)); [done|].
  apply elem_of_set_add. by left.
Qed.

Lemma use_tag_idem (tagName : string) (st : CompilerState) :
  use_tag tagName (use_tag tagName st) = use_tag tagName st.
Proof. unfold use_tag. simpl. by rewrite set_add_idem. Qed.

(** A directive on a tag records the tag before anything else. *)
Lemma render_node_records_first {collate : Js.Collation} (config : AgentConfig) (index : SourceIndex)
    (cf : string → Run string) (meta : Frontmatter) (this : option Element)
    (n : node) (tagName : string) (st : CompilerState) :
  n = NTag tagName ∨ (∃ body, n = NEach tagName body) →
  render_node config index cf meta this n st
  = render_node config index cf meta this n (use_tag tagName st).
Proof.
  intros [->|[body ->]].
  - change (tag config index cf tagName st
            = tag config index cf tagName (use_tag tagName st)).
    unfold tag, mbind, run_bind, modify. by rewrite use_tag_idem.
  - change ((items ← tagged index cf tagName;
             concat_run (λ item, concat_run
                (render_node config index cf meta (Some item)) body) items) st
            = (items ← tagged index cf tagName;
               concat_run (λ item, concat_run
                  (render_node config index cf meta (Some item)) body) items)
                (use_tag tagName st)).
    unfold tagged, mbind, run_bind, modify. by rewrite use_tag_idem.
Qed.

(** Every tag directive that the template of a compiled file has at its top
    level is reported in the tags used, whether or not files carry the tag:
    both an include-by-tag and an iteration over the tag record it. *)
Theorem reached_tag_is_reported {collate : Js.Collation}
    (matter : string → Frontmatter * string)
    (hbs_parse : string → option (list node)) (config : AgentConfig)
    (disk : gmap string string) (index : SourceIndex)
    (fuel : nat) (relPath : string) (st st' : CompilerState) (out : string)
    (pre post : list node) (n : node) (tagName : string) :
  compileFile matter hbs_parse config disk index fuel relPath st
  = Some (Return out st') →
  template_of matter hbs_parse disk index (Js.replace_backslashes relPath)
  = Some (pre ++ n :: post) →
  n = NTag tagName ∨ (∃ body, n = NEach tagName body) →
  tagName ∈ tagsUsed st'.
Proof.
  intros H Htemplate Hn. destruct fuel as [|fuel]; [done|].
  destruct (decide (Js.replace_backslashes relPath ∈ compileStack st)) as [Hin|Hout].
  { by rewrite compileFile_circular in H. }
  rewrite compileFile_unfold, Htemplate in H; [|done].
  destruct (render _ _ _ _ _ _ _) as [[rendered st1|e]|] eqn:Hr; [|done..].
  injection H as _ <-. cbn [pop_file tagsUsed].
  rewrite render_app in Hr.
  destruct (render _ _ _ _ _ pre _) as [[a s1|e]|]; [|done..].
  rewrite render_cons in Hr. unfold mbind at 1, run_bind in Hr.
  rewrite (render_node_records_first _ _ _ _ _ n tagName s1 Hn) in Hr.
  destruct (render_node _ _ _ _ _ n (use_tag tagName s1)) as [[x s2|e]|] eqn:Hnode;
    [|done..].
  unfold mbind at 1, run_bind in Hr.
  destruct (render _ _ _ _ _ post s2) as [[b st1'|e]|] eqn:Hpost; [|done..].
  injection Hr as _ <-.
  assert (tagName ∈ tagsUsed s2) as Hs2.
  { apply (render_keeps matter hbs_parse config disk index
             (λ s, tagName ∈ tagsUsed s)) with
      (fuel := fuel)
      (meta := from_option sf_frontmatter []
                 (idx_paths index !! Js.replace_backslashes relPath))
      (this := None) (ns := [n]) (st := use_tag tagName s1) (text := x +:+ "");
      try done.
    - intros t s Hs. simpl. apply elem_of_set_add. by right.
    - rewrite render_cons. unfold mbind at 1, run_bind. by rewrite Hnode.
    - simpl. apply elem_of_set_add. by left. }
  apply (render_keeps matter hbs_parse config disk index
           (λ s, tagName ∈ tagsUsed s)) in Hpost; try done.
  intros t s Hs. simpl. apply elem_of_set_add. by right.
Qed.

Lemma reached_tag_is_reported_witness :
  "t" ∈ tagsUsed {| compileStack := [];
                    compiledFiles := ["docs/entry.md"; "docs/x.md"; "docs/other.md"];
                    tagsUsed := ["t"] |}.
Proof.
  apply (reached_tag_is_reported Nested.matter Nested.hbs_parse Nested.config
           Nested.disk Nested.index 3 "docs/entry.md" cleared
           {| compileStack := [];
              compiledFiles := ["docs/entry.md"; "docs/x.md"; "docs/other.md"];
              tagsUsed := ["t"] |}
           "A X Y B" [NText "A "] [NText " B"] (NTag "t") "t").
  - vm_compute. reflexivity.
  - vm_compute. reflexivity.
  - left. reflexivity.
Defined.

(** * The order of the files of a tag *)

(** C3, as stated, fails where the order of the code units and the collation
    differ: [B.md] is the lexicographically smaller path, and [a.md] comes
    first. *)
Lemma C3_counterexample :
  String.compare "B.md" "a.md" = Lt ∧
  order_of (Demo.file_with "B.md" (Some 1)) = order_of (Demo.file_with "a.md" (Some 1)) ∧
  @sortSourceFiles Icu.collation
    [Demo.file_with "B.md" (Some 1); Demo.file_with "a.md" (Some 1)]
  = [Demo.file_with "a.md" (Some 1); Demo.file_with "B.md" (Some 1)].
Proof. split_and!; reflexivity. Qed.

(** C3, amended. Include-by-tag gives the compiled texts of the files of the
    bucket, joined by the separator, in the order [sortSourceFiles] gives: a
    permutation of the bucket, sorted by [order] ascending (999 when absent)
    and then by path as the collation of the host compares paths. Three
    files of orders 2, absent and 1 come out as order 1, order 2, order
    absent, whatever their arrangement in the bucket; of two files of equal
    order the one whose path the collation puts first comes first. *)
Theorem C3_tag_include_sort_rule
    {collate : Js.Collation}
    (matter : string → Frontmatter * string)
    (hbs_parse : string → option (list node)) (config : AgentConfig)
    (disk : gmap string string) (index : SourceIndex)
    (fuel : nat) (tagName : string) (files bucket3 : list SourceFile)
    (outs : list string) (st : CompilerState)
    (f1 f2 fm a b : SourceFile) :
  Js.consistent →
  idx_tags index !! tagName = Some files →
  Forall2 (λ f out, ∃ st', compileFile matter hbs_parse config disk index fuel
                             (sf_path f) st = Some (Return out st'))
    (sortSourceFiles files) outs →
  im_order (sf_instrux f2) = Some 2 →
  im_order (sf_instrux fm) = None →
  im_order (sf_instrux f1) = Some 1 →
  bucket3 ≡ₚ [f2; fm; f1] →
  order_of a = order_of b →
  Js.localeCompare (sf_path a) (sf_path b) < 0 →
  (∃ st', tag config index (compileFile matter hbs_parse config disk index fuel)
            tagName st
          = Some (Return (Js.join (sep config) outs) st')) ∧
  sortSourceFiles files ≡ₚ files ∧
  StronglySorted key_le (sortSourceFiles files) ∧
  sortSourceFiles bucket3 = [f1; f2; fm] ∧
  sortSourceFiles [a; b] = [a; b] ∧
  sortSourceFiles [b; a] = [a; b].
Proof.
  intros Hc Hbucket Hall H2 Hm H1 Hperm Hab Hlt.
  apply order_of_Some in H2, H1. apply order_of_None in Hm.
  assert (0 < Js.localeCompare (sf_path b) (sf_path a)) as Hgt.
  { destruct Hc as [Hflip _]. specialize (Hflip (sf_path a) (sf_path b)).
    destruct (Z.sgn_spec (Js.localeCompare (sf_path a) (sf_path b)))
      as [[? ?]|[[? ?]|[? ?]]],
      (Z.sgn_spec (Js.localeCompare (sf_path b) (sf_path a)))
      as [[? ?]|[[? ?]|[? ?]]]; lia. }
  split_and!.
  - destruct (map_run_compileFile_each matter hbs_parse config disk index fuel
                (sortSourceFiles files) outs st (use_tag tagName st))
      as (st' & Hrun & _); [done|done|].
    unfold tag, mbind at 1, run_bind, modify. rewrite Hbucket.
    destruct files as [|f files].
    + apply Forall2_nil_inv_l in Hall as ->. by eexists.
    + exists st'. unfold mbind at 1, run_bind. by rewrite Hrun.
  - apply sortSourceFiles_perm.
  - by apply sortSourceFiles_sorted.
  - apply sortSourceFiles_unique; [done| | |].
    + intros x y Hx Hy Hxy Hyx.
      assert (order_of x = order_of y) as Heq
        by (destruct Hxy as [?|[? _]], Hyx as [?|[? _]]; lia).
      set_unfold in Hx. set_unfold in Hy.
      destruct Hx as [->|[->|[->|[]]]], Hy as [->|[->|[->|[]]]]; try done; lia.
    + repeat first [apply SSorted_nil | apply SSorted_cons
                   | apply List.Forall_nil | apply List.Forall_cons];
        unfold key_le; lia.
    + rewrite Hperm. etrans; [apply perm_skip, perm_swap|apply perm_swap].
  - unfold sortSourceFiles, compare_files. simpl.
    rewrite Hab, Z.eqb_refl. simpl.
    by destruct (Z.leb_spec (Js.localeCompare (sf_path a) (sf_path b)) 0); [|lia].
  - unfold sortSourceFiles, compare_files. simpl.
    rewrite Hab, Z.eqb_refl. simpl.
    by destruct (Z.leb_spec (Js.localeCompare (sf_path b) (sf_path a)) 0); [lia|].
Qed.


Lemma C3_witness :
  sortSourceFiles
    [Demo.file_with "two.md" (Some 2); Demo.file_with "none.md" None;
     Demo.file_with "one.md" (Some 1)]
  = [Demo.file_with "one.md" (Some 1); Demo.file_with "two.md" (Some 2);
     Demo.file_with "none.md" None] ∧
  sortSourceFiles [Demo.file_with "b.md" (Some 5); Demo.file_with "a.md" (Some 5)]
  = [Demo.file_with "a.md" (Some 5); Demo.file_with "b.md" (Some 5)] ∧
  ∃ st', tag Nested.config Nested.index
           (compileFile Nested.matter Nested.hbs_parse Nested.config Nested.disk
              Nested.index 2)
           "t" {| compileStack := ["docs/entry.md"]; compiledFiles := ["docs/entry.md"];
                  tagsUsed := [] |}
         = Some (Return "X Y" st').
Proof.
  edestruct (C3_tag_include_sort_rule Nested.matter Nested.hbs_parse Nested.config
               Nested.disk Nested.index 2 "t"
               [source_file_of Nested.matter ("docs/x.md", Nested.raw_x)]
               [Demo.file_with "two.md" (Some 2); Demo.file_with "none.md" None;
                Demo.file_with "one.md" (Some 1)]
               ["X Y"]
               {| compileStack := ["docs/entry.md"]; compiledFiles := ["docs/entry.md"];
                  tagsUsed := [] |}
               (Demo.file_with "one.md" (Some 1)) (Demo.file_with "two.md" (Some 2))
               (Demo.file_with "none.md" None)
               (Demo.file_with "a.md" (Some 5)) (Demo.file_with "b.md" (Some 5))
               code_units_consistent)
    as (Htag & _ & _ & H3 & _ & H2).
  - vm_compute. reflexivity.
  - constructor; [|constructor]. eexists. vm_compute. reflexivity.
  - reflexivity.
  - reflexivity.
  - reflexivity.
  - reflexivity.
  - reflexivity.
  - reflexivity.
  - exact (conj H3 (conj H2 Htag)).
Defined.
